(** * fcopy: fuzzy path resolution and the ingestion pipeline

    A shallow embedding of the Go sources

      - [utils]      Min, Abs, CalculateSimilarity
      - [config]     Config, IgnoreDirs, IgnoreExts, BinaryExts
      - [finder]     ShouldIgnore, FindRecursiveMatches, FuzzyFindPath
      - [processor]  ProcessSingleFile, ProcessDirectory, ProcessPath
      - [main]       the resolution of the arguments, the collecting loop

    Conventions.  A Go [string] is a Rocq [string] (a sequence of bytes);
    [len s] is its byte length.  A Go [int] is a [Z]: every integer the
    modelled code computes is a length, a depth, or a sum of a few such
    numbers, far from the 64-bit limits (see [cell_bounds] for the cells of
    the scorer).  A Go slice updated by index is a list with stdpp's lookup
    and insert; all the indices the code uses are shown to be in range. *)

From Stdlib Require Import ZArith Lia Ascii String.
From stdpp Require Import base list sorting strings gmap.

Local Open Scope Z_scope.
Set Warnings "-register-all".

(** ** Go primitives *)

Definition len (s : string) : Z := Z.of_nat (String.length s).

(** [s[i]]: the byte at index [i].  The code only indexes in range. *)
Definition byteAt (s : string) (i : nat) : ascii :=
  default Ascii.zero (String.get i s).

(** [for i := lo; i < lo + n; i++ { st = body i st }] *)
Fixpoint for_range {St : Type} (lo n : nat) (body : nat -> St -> St) (st : St) : St :=
  match n with
  | O => st
  | S n' => for_range (S lo) n' body (body lo st)
  end.

(** ** package utils *)

Definition Min (a b c : Z) : Z :=
  if a <? b then
    if a <? c then a else c
  else if b <? c then b else c.

Definition Abs (n : Z) : Z :=
  if n <? 0 then - n else n.

(** One pass of the inner loop: row [v1] filled from the previous row [v0]
    for the byte [s1[i]]. *)
Definition fillRow (s1 s2 : string) (i : nat) (v0 v1 : list Z) : list Z :=
  for_range 0 (String.length s2) (fun j v1 =>
    let cost := if Ascii.eqb (byteAt s1 i) (byteAt s2 j) then 0 else 1 in
    <[S j := Min (v1 !!! j + 1) (v0 !!! S j + 1) (v0 !!! j + cost)]> v1) v1.

(** [for j := 0; j <= len(s2); j++ { v0[j] = v1[j] }] *)
Definition copyRow (s2 : string) (v0 v1 : list Z) : list Z :=
  for_range 0 (S (String.length s2)) (fun j v0 => <[j := v1 !!! j]> v0) v0.

Definition rowStep (s1 s2 : string) (i : nat) (vs : list Z * list Z) : list Z * list Z :=
  let '(v0, v1) := vs in
  let v1 := <[O := Z.of_nat i + 1]> v1 in
  let v1 := fillRow s1 s2 i v0 v1 in
  let v0 := copyRow s2 v0 v1 in
  (v0, v1).

Definition CalculateSimilarity (s1 s2 : string) : Z :=
  if len s1 =? 0 then len s2
  else if len s2 =? 0 then len s1
  else
    let v0 := replicate (S (String.length s2)) 0 in
    let v1 := replicate (S (String.length s2)) 0 in
    let v0 := for_range 0 (S (String.length s2)) (fun i v0 => <[i := Z.of_nat i]> v0) v0 in
    let '(v0, v1) := for_range 0 (String.length s1) (rowStep s1 s2) (v0, v1) in
    v1 !!! String.length s2.

(** ** The classic edit distance (specification side)

    [edit1 s t]: [t] is [s] after one insertion, one deletion or one
    substitution of a single byte, at any position; [edits n s t]: [n] such
    operations lead from [s] to [t]; the edit distance is the least such [n]. *)

Inductive edit1 {A : Type} : list A -> list A -> Prop :=
| edit1_insert (p : list A) (c : A) (q : list A) : edit1 (p ++ q) (p ++ c :: q)
| edit1_delete (p : list A) (c : A) (q : list A) : edit1 (p ++ c :: q) (p ++ q)
| edit1_subst (p : list A) (c d : A) (q : list A) : edit1 (p ++ c :: q) (p ++ d :: q).

Inductive edits {A : Type} : nat -> list A -> list A -> Prop :=
| edits_refl (s : list A) : edits O s s
| edits_step (n : nat) (s t u : list A) : edit1 s t -> edits n t u -> edits (S n) s u.

Definition is_edit_distance {A : Type} (s t : list A) (n : nat) : Prop :=
  edits n s t /\ forall m, edits m s t -> (n <= m)%nat.

(** The textbook recurrence, used as the bridge between the rolling rows of
    [CalculateSimilarity] and [is_edit_distance]. *)
Fixpoint lev (s t : list ascii) {struct s} : nat :=
  match s with
  | [] => length t
  | x :: s' =>
      (fix lev_row (t : list ascii) : nat :=
         match t with
         | [] => S (length s')
         | y :: t' =>
             Nat.min (Nat.min (S (lev_row t')) (S (lev s' t)))
                     (lev s' t' + (if Ascii.eqb x y then 0 else 1))%nat
         end) t
  end.

Definition bytes (s : string) : list ascii := list_ascii_of_string s.

(** The cell [A[i][j]] of the full distance table: the distance between the
    first [i] bytes of [s1] and the first [j] bytes of [s2]. *)
Definition cell (s1 s2 : string) (i j : nat) : Z :=
  Z.of_nat (lev (rev (take i (bytes s1))) (rev (take j (bytes s2)))).

(** ** package config *)

Record Config := mkConfig {
  MaxFileSize : Z;
  Workers : Z;
  Verbose : bool;
  Debug : bool;
  MaxMatches : Z;
  SearchDepth : Z;
  AutoSelect : bool;
  SearchHidden : bool;
  NoIgnore : bool
}.

(** [m[k]] on a [map[string]bool]: a missing key reads as [false]. *)
Definition mapGet (m : gmap string bool) (k : string) : bool :=
  default false (m !! k).

Definition IgnoreDirs : gmap string bool :=
  list_to_map
    [("node_modules", true); (".git", true); (".svn", true); (".hg", true);
     ("dist", true); ("build", true); ("out", true); ("target", true);
     ("bin", true); ("obj", true); (".idea", true); (".vscode", true);
     (".vs", true); ("vendor", true); ("bower_components", true);
     ("jspm_packages", true); ("tmp", true); ("temp", true); ("logs", true);
     ("log", true); (".npm", true); ("coverage", true); (".next", true);
     (".nuxt", true); (".cache", true); (".parcel-cache", true)]%string.

Definition IgnoreExts : gmap string bool :=
  list_to_map
    [(".log", true); (".lock", true); (".min.js", true); (".min.css", true);
     (".map", true); (".DS_Store", true); ("Thumbs.db", true);
     (".gitignore", true); (".gitattributes", true); (".eslintrc", true);
     (".prettierrc", true)]%string.

Definition BinaryExts : gmap string bool :=
  list_to_map
    [(".bin", true); (".exe", true); (".dll", true); (".so", true);
     (".dylib", true); (".jpg", true); (".jpeg", true); (".png", true);
     (".gif", true); (".bmp", true); (".zip", true); (".tar", true);
     (".gz", true); (".rar", true); (".7z", true); (".pdf", true);
     (".doc", true); (".docx", true); (".xls", true); (".xlsx", true)]%string.

(** ** Standard-library helpers with a closed form (Unix separator) *)

Definition isSlash (c : ascii) : bool := Ascii.eqb c "/"%char.
Definition isDot (c : ascii) : bool := Ascii.eqb c "."%char.

(** [strings.Contains(s, substr)] *)
Fixpoint strings_Contains (s substr : string) : bool :=
  String.prefix substr s ||
  match s with
  | EmptyString => false
  | String _ s' => strings_Contains s' substr
  end.

(** [strings.HasSuffix(s, suffix)]:
    [len(s) >= len(suffix) && s[len(s)-len(suffix):] == suffix] *)
Definition strings_HasSuffix (s suffix : string) : bool :=
  (len suffix <=? len s) &&
  String.eqb (String.substring (String.length s - String.length suffix)
                               (String.length suffix) s) suffix.

(** [filepath.Ext]: the suffix beginning at the final dot of the final
    element of the path, empty if there is none. *)
Fixpoint filepath_Ext_from (path ext : string) : string :=
  match path with
  | EmptyString => ext
  | String c rest =>
      if isSlash c then filepath_Ext_from rest EmptyString
      else if isDot c then filepath_Ext_from rest path
      else filepath_Ext_from rest ext
  end.

Definition filepath_Ext (path : string) : string :=
  filepath_Ext_from path EmptyString.

Fixpoint stripTrailingSlashes (path : string) : string :=
  match path with
  | EmptyString => EmptyString
  | String c rest =>
      let r := stripTrailingSlashes rest in
      if isSlash c && String.eqb r EmptyString then EmptyString else String c r
  end.

Fixpoint afterLastSlash (path last : string) : string :=
  match path with
  | EmptyString => last
  | String c rest => afterLastSlash rest (if isSlash c then rest else last)
  end.

(** [filepath.Base]: the last element of the path, trailing slashes
    removed; ["."] for the empty path, ["/"] for a path of slashes only. *)
Definition filepath_Base (path : string) : string :=
  if String.eqb path EmptyString then "."%string
  else
    let p := stripTrailingSlashes path in
    let p := afterLastSlash p p in
    if String.eqb p EmptyString then "/"%string else p.

(** ** package finder: data *)

Record FuzzyMatch := mkFuzzyMatch {
  Path : string;
  Name : string;
  Score : Z;
  IsDir : bool;
  Depth : Z;
  MatchType : string
}.

(** [os.DirEntry], as far as the code reads it. *)
Record DirEntry := mkDirEntry {
  entryName : string;
  entryIsDir : bool
}.

(** The comparison function handed to [sort.Slice]. *)
Definition less (a b : FuzzyMatch) : bool :=
  if negb (Score a =? Score b) then Score a <? Score b
  else Depth a <? Depth b.

(** The ranking key the comparison looks at. *)
Definition rankKey (m : FuzzyMatch) : Z * Z := (Score m, Depth m).

(** [b] may follow [a] in a slice sorted by [less]: [less b a] is false. *)
Definition ranked (a b : FuzzyMatch) : Prop := less b a = false.

(** What [sort.Slice] guarantees of its result [out] for the input [l]
    (the sort is not stable). *)
Definition is_sort_of (out l : list FuzzyMatch) : Prop :=
  Permutation out l /\ Sorted ranked out.

(** [data.Swap(i, j)] *)
Definition swap {A : Type} (l : list A) (i j : nat) : list A :=
  match l !! i, l !! j with
  | Some x, Some y => <[j := x]> (<[i := y]> l)
  | _, _ => l
  end.

(** The inner loop of Go's insertion sort:
    [for j := i; j > a && less(j, j-1); j-- { swap(j, j-1) }] with [a = 0]. *)
Fixpoint siftDown {A : Type} (lt : A -> A -> bool) (j : nat) (l : list A) : list A :=
  match j with
  | O => l
  | S j' =>
      match l !! j, l !! j' with
      | Some x, Some y => if lt x y then siftDown lt j' (swap l j j') else l
      | _, _ => l
      end
  end.

(** [insertionSort(data, 0, n)]: what [sort.Slice] runs on a short slice
    (at most 12 elements since Go 1.19, at most 6 before), and a sorting
    function in its own right ([insertionSort_is_sort_of]). *)
Definition insertionSort (l : list FuzzyMatch) : list FuzzyMatch :=
  for_range 1 (length l - 1) (fun i l => siftDown less i l) l.

(** ** Console and errors *)

(** What [FuzzyFindPath] writes and reads, in order. *)
Inductive Event :=
| EvCannotFindDir (dir : string)
| EvNoMatches (targetName dir : string)
| EvAutoSelected (approximatePath path : string)
| EvDidYouMean (approximatePath : string)
| EvOption (i : Z) (m : FuzzyMatch)
| EvNoneOfThese
| EvPrompt (displayCount : Z)
| EvReadLine (input : string)
| EvReadError
| EvInvalidSelection.

(** Standard input as the lines still to be read, and the console output. *)
Record Console := mkConsole {
  stdin : list string;
  stdout : list Event
}.

Definition emit (e : Event) (w : Console) : Console :=
  {| stdin := stdin w; stdout := stdout w ++ [e] |}.

Inductive ctxErr := context_Canceled | context_DeadlineExceeded.

Inductive osErr := os_ErrNotExist | os_ErrPermission | os_ErrOther.

Inductive error :=
| ErrOs (e : osErr)
| ErrFileTooLarge (size : Z)
| ErrBinaryFile
| ErrCtx (e : ctxErr).

Record FileInfo := mkFileInfo {
  fiSize : Z;
  fiIsDir : bool
}.

(** ** package processor: data *)

Record FileContent := mkFileContent {
  fcPath : string;
  fcContent : string
}.

(** The outcome of the last [select] of [ProcessSingleFile]: the send on
    [results] went through, or the context was done first. *)
Inductive SendRace := SendFirst | DoneFirst (e : ctxErr).

(** The shared state of one run: context, counters and everything that was
    placed on the results channel (the consumer keeps receiving). *)
Record Shared := mkShared {
  ctx : option ctxErr;
  processed : Z;
  errors : Z;
  results : list FileContent
}.

(** The tree [filepath.WalkDir] finds under a root: files, and directories
    with the outcome of [os.ReadDir] on them. *)
Inductive FsTree :=
| FsFile (name : string)
| FsDir (name : string) (readErr : option osErr) (entries : list FsTree).

Definition fsName (t : FsTree) : string :=
  match t with
  | FsFile n => n
  | FsDir n _ _ => n
  end.

Inductive Worker :=
| WIdle                   (* at [for path := range files] *)
| WBusy (path : string)   (* received [path], not yet counted *)
| WExited.                (* the range loop ended, [wg.Done()] ran *)

(** Where the goroutine running [ProcessDirectory] stands. *)
Inductive Walker :=
| Walking (todo : list string) (final : option error)
    (* inside [filepath.WalkDir]: the file paths still to be sent, and the
       value the walk returns when none of the sends is interrupted *)
| Returned (err : option error)   (* [WalkDir] returned [err] *)
| Closed (err : option error)     (* [close(files)] done *)
| Waiting.                        (* at [wg.Wait()] *)

Record DirRun := mkDirRun {
  walker : Walker;
  files : list string;
  workers : list Worker;
  fileCount : Z
}.

Inductive TaskState :=
| TPending              (* [go ProcessPath(...)] not yet running *)
| TDir (d : DirRun)     (* inside [ProcessDirectory] *)
| TDone.                (* [ProcessPath] returned *)

Record Task := mkTask {
  taskPath : string;
  taskState : TaskState
}.

(** A run of the pipeline: one [ProcessPath] goroutine per resolved path,
    all sharing the context, the two counters and the results channel. *)
Record Run := mkRun {
  shared : Shared;
  tasks : list Task
}.

Inductive TaskAction :=
| TStart (race : SendRace)
| TWalkPush
| TWalkCancel
| TWalkEnd
| TClose
| TAccount
| TTake (w : nat)
| TWork (w : nat) (race : SendRace)
| TExit (w : nat)
| TJoin.

Inductive Action :=
| ACtxDone (e : ctxErr)             (* the deadline fires, or cancel() *)
| ATask (t : nat) (a : TaskAction). (* the goroutines of task [t] move *)

Definition addProcessed (s : Shared) : Shared :=
  {| ctx := ctx s; processed := processed s + 1; errors := errors s;
     results := results s |}.

Definition addError (s : Shared) : Shared :=
  {| ctx := ctx s; processed := processed s; errors := errors s + 1;
     results := results s |}.

Definition setResults (res : list FileContent) (s : Shared) : Shared :=
  {| ctx := ctx s; processed := processed s; errors := errors s;
     results := res |}.

(** The context is done by the time a [select] takes its [ctx.Done()] case. *)
Definition fire (race : SendRace) (s : Shared) : Shared :=
  match ctx s, race with
  | None, DoneFirst e =>
      {| ctx := Some e; processed := processed s; errors := errors s;
         results := results s |}
  | _, _ => s
  end.

Definition isExited (w : Worker) : bool :=
  match w with WExited => true | _ => false end.

Definition isBusy (w : Worker) : bool :=
  match w with WBusy _ => true | _ => false end.

(** [err == context.Canceled] *)
Definition isCanceled (err : error) : bool :=
  match err with
  | ErrCtx context_Canceled => true
  | _ => false
  end.

(** [err != nil && err != context.Canceled] *)
Definition isCountedWalkError (err : option error) : bool :=
  match err with
  | None => false
  | Some e => negb (isCanceled e)
  end.

(** ** package finder: ShouldIgnore *)

Definition ShouldIgnore (path : string) (isDir : bool) (cfg : Config) : bool :=
  if NoIgnore cfg then false
  else
    let fileName := filepath_Base path in
    if negb (SearchHidden cfg) && (1 <? len fileName)
       && Ascii.eqb (byteAt fileName 0) "."%char
    then true
    else if isDir then mapGet IgnoreDirs fileName
    else
      let ext := filepath_Ext fileName in
      if mapGet IgnoreExts ext then true
      else if existsb (fun kv => strings_HasSuffix fileName kv.1)
                      (map_to_list IgnoreExts)
      then true
      else false.

(** [threshold := len(targetName) * 2 / 3; if threshold < 3 { threshold = 3 }] *)
Definition fuzzyThreshold (targetName : string) : Z :=
  let threshold := Z.quot (len targetName * 2) 3 in
  if threshold <? 3 then 3 else threshold.

(** [threshold := len(targetName) / 4; if threshold < 2 { threshold = 2 }] *)
Definition autoThreshold (targetName : string) : Z :=
  let threshold := Z.quot (len targetName) 4 in
  if threshold <? 2 then 2 else threshold.

(** ** The code over its environment

    The Go standard library and the file system are parameters: the case
    mapping of [strings.ToLower], [strings.TrimSpace], the integer parser
    behind [fmt.Sscanf(input, "%d", &selection)], [filepath.Join] and
    [filepath.Dir] (both clean their result), [sort.Slice] with the
    comparison [less], and what [os.Stat], [os.ReadDir], [os.ReadFile] and
    the traversal of [filepath.WalkDir] find on disk. *)

Class Env := mkEnv {
  strings_ToLower : string -> string;
  strings_TrimSpace : string -> string;
  fmt_Sscanf_d : string -> option Z;
  filepath_Join : string -> string -> string;
  filepath_Dir : string -> string;
  sort_Slice : list FuzzyMatch -> list FuzzyMatch;
  os_Stat : string -> error + FileInfo;
  os_ReadDir : string -> option (list DirEntry);
  os_ReadFile : string -> error + string;
  os_WalkRoot : string -> osErr + FsTree
}.

(** [sort.Slice] sorts. *)
Definition sorts (E : Env) : Prop :=
  forall l, is_sort_of (sort_Slice l) l.

Section Fcopy.

Context {E : Env}.

(** *** FindRecursiveMatches *)

(** The body of the first loop over the entries of [dir]. *)
Definition scanEntry (dir targetName : string) (currentDepth : Z) (cfg : Config)
    (matches : list FuzzyMatch) (entry : DirEntry) : list FuzzyMatch :=
  let targetLower := strings_ToLower targetName in
  let name := entryName entry in
  let path := filepath_Join dir name in
  if ShouldIgnore path (entryIsDir entry) cfg then matches
  else
    let nameLower := strings_ToLower name in
    if String.eqb nameLower targetLower then
      matches ++ [{| Path := path; Name := name; Score := 0;
                     IsDir := entryIsDir entry; Depth := currentDepth;
                     MatchType := "exact" |}]
    else if strings_Contains nameLower targetLower
            || strings_Contains targetLower nameLower then
      let scoreFactor := Abs (len nameLower - len targetLower) in
      matches ++ [{| Path := path; Name := name; Score := 1 + scoreFactor;
                     IsDir := entryIsDir entry; Depth := currentDepth;
                     MatchType := "substring" |}]
    else
      let score := CalculateSimilarity nameLower targetLower in
      let threshold := fuzzyThreshold targetName in
      if score <=? threshold then
        matches ++ [{| Path := path; Name := name; Score := score + 2;
                       IsDir := entryIsDir entry; Depth := currentDepth;
                       MatchType := "fuzzy" |}]
      else matches.

(** The body of the second loop, [search] being the recursive call. *)
Definition scanSubdir (search : string -> list FuzzyMatch) (dir : string)
    (cfg : Config) (matches : list FuzzyMatch) (entry : DirEntry) : list FuzzyMatch :=
  if entryIsDir entry then
    let subdir := filepath_Join dir (entryName entry) in
    if ShouldIgnore subdir true cfg then matches
    else matches ++ search subdir
  else matches.

(** The recursion is bounded by the depth check; [levels] counts the levels
    still allowed, [SearchDepth - currentDepth + 1]. *)
Fixpoint FindRecursiveMatches_at (levels : nat) (dir targetName : string)
    (currentDepth : Z) (cfg : Config) : list FuzzyMatch :=
  match levels with
  | O => []
  | S levels' =>
      if SearchDepth cfg <? currentDepth then []
      else
        match os_ReadDir dir with
        | None => []
        | Some entries =>
            let matches :=
              foldl (scanEntry dir targetName currentDepth cfg) [] entries in
            foldl (scanSubdir
                     (fun subdir =>
                        FindRecursiveMatches_at levels' subdir targetName
                                                (currentDepth + 1) cfg)
                     dir cfg) matches entries
        end
  end.

Definition FindRecursiveMatches (dir targetName : string) (currentDepth : Z)
    (cfg : Config) : list FuzzyMatch :=
  FindRecursiveMatches_at (Z.to_nat (SearchDepth cfg - currentDepth + 1))
                          dir targetName currentDepth cfg.

(** *** FuzzyFindPath *)

Definition isNotExist (r : error + FileInfo) : bool :=
  match r with
  | inl (ErrOs os_ErrNotExist) => true
  | _ => false
  end.

(** The first part of [FuzzyFindPath]: the directory to search and the
    target name, [resolve] being the recursive call for a missing
    directory.  [None]: the recursive call did not return; [inl]: the
    function returns at once with that result. *)
Definition resolveDir (resolve : string -> Console -> option ((string * bool) * Console))
    (approximatePath : string) (w : Console)
    : option (((string * bool) * Console) + (string * string * Console)) :=
  if strings_Contains approximatePath "/" then
    let dir := filepath_Dir approximatePath in
    let targetName := filepath_Base approximatePath in
    if isNotExist (os_Stat dir) then
      match resolve dir w with
      | None => None
      | Some ((resolvedDir, found), w) =>
          if negb found then
            Some (inl ((EmptyString, false), emit (EvCannotFindDir dir) w))
          else Some (inr (resolvedDir, targetName, w))
      end
    else Some (inr (dir, targetName, w))
  else Some (inr ("."%string, approximatePath, w)).

(** The loop reading the selection; it ends when a line is accepted or the
    input is exhausted ([ReadString] then returns an error). *)
Fixpoint readSelection (matches : list FuzzyMatch) (displayCount : Z)
    (lines : list string) (out : list Event) : (string * bool) * Console :=
  let out := out ++ [EvPrompt displayCount] in
  match lines with
  | [] => ((EmptyString, false), {| stdin := []; stdout := out ++ [EvReadError] |})
  | input :: lines' =>
      let out := out ++ [EvReadLine input] in
      let input := strings_TrimSpace input in
      match fmt_Sscanf_d input with
      | None => readSelection matches displayCount lines' (out ++ [EvInvalidSelection])
      | Some selection =>
          if (selection <? 0) || (displayCount <? selection) then
            readSelection matches displayCount lines' (out ++ [EvInvalidSelection])
          else if selection =? 0 then
            ((EmptyString, false), {| stdin := lines'; stdout := out |})
          else
            match matches !! Z.to_nat (selection - 1) with
            | Some m => ((Path m, true), {| stdin := lines'; stdout := out |})
            | None => ((EmptyString, false), {| stdin := lines'; stdout := out |})
            end
      end
  end.

(** [Did you mean] and the numbered options. *)
Definition displayMatches (approximatePath : string) (matches : list FuzzyMatch)
    (displayCount : Z) (w : Console) : Console :=
  let w := emit (EvDidYouMean approximatePath) w in
  let w :=
    for_range 0 (Z.to_nat displayCount) (fun i w =>
      match matches !! i with
      | Some m => emit (EvOption (Z.of_nat i + 1) m) w
      | None => w
      end) w in
  emit EvNoneOfThese w.

(** The rest of [FuzzyFindPath], from the search on. *)
Definition selectMatch (approximatePath dir targetName : string) (cfg : Config)
    (w : Console) : (string * bool) * Console :=
  let matches := FindRecursiveMatches dir targetName 0 cfg in
  if Z.of_nat (length matches) =? 0 then
    ((EmptyString, false), emit (EvNoMatches targetName dir) w)
  else
    let matches := sort_Slice matches in
    let displayCount := Z.of_nat (length matches) in
    let displayCount :=
      if MaxMatches cfg <? displayCount then MaxMatches cfg else displayCount in
    let interactive :=
      let w := displayMatches approximatePath matches displayCount w in
      readSelection matches displayCount (stdin w) (stdout w) in
    match AutoSelect cfg, matches with
    | true, bestMatch :: _ =>
        let threshold := autoThreshold targetName in
        if Score bestMatch <=? threshold then
          ((Path bestMatch, true),
           emit (EvAutoSelected approximatePath (Path bestMatch)) w)
        else interactive
    | _, _ => interactive
    end.

(** [None] only when [fuel] nested calls for missing directory prefixes
    were not enough. *)
Fixpoint FuzzyFindPath (fuel : nat) (approximatePath : string) (cfg : Config)
    (w : Console) : option ((string * bool) * Console) :=
  match fuel with
  | O => None
  | S fuel' =>
      match resolveDir (fun dir w => FuzzyFindPath fuel' dir cfg w)
                       approximatePath w with
      | None => None
      | Some (inl r) => Some r
      | Some (inr (dir, targetName, w)) =>
          Some (selectMatch approximatePath dir targetName cfg w)
      end
  end.

(** *** ProcessSingleFile

    [ctxNow] is [ctx.Err()] when the first [select] runs, [race] the case
    the second [select] takes; the function returns its error and the
    results channel. *)
Definition ProcessSingleFile (ctxNow : option ctxErr) (path : string)
    (fileInfo : FileInfo) (cfg : Config) (race : SendRace)
    (results : list FileContent) : option error * list FileContent :=
  if MaxFileSize cfg <? fiSize fileInfo then
    (Some (ErrFileTooLarge (fiSize fileInfo)), results)
  else
    let ext := strings_ToLower (filepath_Ext path) in
    if mapGet BinaryExts ext then (Some ErrBinaryFile, results)
    else
      match ctxNow with
      | Some e => (Some (ErrCtx e), results)
      | None =>
          match os_ReadFile path with
          | inl err => (Some err, results)
          | inr content =>
              match race with
              | SendFirst =>
                  (None, results ++ [{| fcPath := path; fcContent := content |}])
              | DoneFirst e => (Some (ErrCtx e), results)
              end
          end
      end.

(** [if err := ProcessSingleFile(...); err != nil { errors.Add(1) } else
    { processed.Add(1) }], as both callers have it. *)
Definition countSingleFile (path : string) (fileInfo : FileInfo) (cfg : Config)
    (race : SendRace) (s : Shared) : Shared :=
  match ProcessSingleFile (ctx s) path fileInfo cfg race (results s) with
  | (Some _, res) => addError (setResults res s)
  | (None, res) => addProcessed (setResults res s)
  end.

(** The body of a worker's loop for one [path] received from [files]. *)
Definition workerBody (path : string) (cfg : Config) (race : SendRace)
    (s : Shared) : Shared :=
  match os_Stat path with
  | inl _ => addError s
  | inr fileInfo => countSingleFile path fileInfo cfg race s
  end.

(** *** The directory walk

    [walkDir] is [filepath.walkDir] with the callback of [ProcessDirectory]
    inlined: the file paths the callback sends to [files], in order, and the
    error the walk returns, as long as no send is interrupted. *)
Fixpoint walkDir (path : string) (d : FsTree) (cfg : Config)
    : list string * option error :=
  match d with
  | FsFile _ =>
      if ShouldIgnore path false cfg then ([], None) else ([path], None)
  | FsDir _ readErr entries =>
      if ShouldIgnore path true cfg then ([], None)
      else
        match readErr with
        | Some e => ([], Some (ErrOs e))
        | None =>
            (fix walkEntries (ds : list FsTree) : list string * option error :=
               match ds with
               | [] => ([], None)
               | d1 :: rest =>
                   match walkDir (filepath_Join path (fsName d1)) d1 cfg with
                   | (sent, Some e) => (sent, Some e)
                   | (sent, None) =>
                       let '(sent', r) := walkEntries rest in
                       (sent ++ sent', r)
                   end
               end) entries
        end
  end.

(** [filepath.WalkDir(dirPath, ...)]: a failing [os.Lstat] on the root goes
    to the callback, which returns it. *)
Definition walkPlan (dirPath : string) (cfg : Config) : list string * option error :=
  match os_WalkRoot dirPath with
  | inl e => ([], Some (ErrOs e))
  | inr root => walkDir dirPath root cfg
  end.

(** *** ProcessDirectory and ProcessPath as a transition system *)

Definition startDirectory (dirPath : string) (cfg : Config) : DirRun :=
  let '(todo, final) := walkPlan dirPath cfg in
  {| walker := Walking todo final;
     files := [];
     workers := replicate (Z.to_nat (Workers cfg)) WIdle;
     fileCount := 0 |}.

Definition isClosed (wk : Walker) : bool :=
  match wk with
  | Closed _ | Waiting => true
  | _ => false
  end.

Definition setWorker (d : DirRun) (w : nat) (st : Worker) : DirRun :=
  {| walker := walker d; files := files d;
     workers := <[w := st]> (workers d); fileCount := fileCount d |}.

Definition stepDir (cfg : Config) (a : TaskAction) (d : DirRun) (s : Shared)
    : option (TaskState * Shared) :=
  match a, walker d with
  | TWalkPush, Walking (p :: todo) final =>
      (* [fileCount++], then [case files <- path] on a channel of capacity 100 *)
      if Z.of_nat (length (files d)) <? 100 then
        Some (TDir {| walker := Walking todo final; files := files d ++ [p];
                      workers := workers d; fileCount := fileCount d + 1 |}, s)
      else None
  | TWalkCancel, Walking (p :: todo) final =>
      (* [fileCount++], then [case <-ctx.Done(): return ctx.Err()] *)
      match ctx s with
      | Some e =>
          Some (TDir {| walker := Returned (Some (ErrCtx e)); files := files d;
                        workers := workers d; fileCount := fileCount d + 1 |}, s)
      | None => None
      end
  | TWalkEnd, Walking [] final =>
      Some (TDir {| walker := Returned final; files := files d;
                    workers := workers d; fileCount := fileCount d |}, s)
  | TClose, Returned err =>
      Some (TDir {| walker := Closed err; files := files d;
                    workers := workers d; fileCount := fileCount d |}, s)
  | TAccount, Closed err =>
      Some (TDir {| walker := Waiting; files := files d;
                    workers := workers d; fileCount := fileCount d |},
            if isCountedWalkError err then addError s else s)
  | TTake w, _ =>
      match workers d !! w, files d with
      | Some WIdle, p :: rest =>
          Some (TDir {| walker := walker d; files := rest;
                        workers := <[w := WBusy p]> (workers d);
                        fileCount := fileCount d |}, s)
      | _, _ => None
      end
  | TWork w race, _ =>
      match workers d !! w with
      | Some (WBusy p) =>
          Some (TDir (setWorker d w WIdle), fire race (workerBody p cfg race s))
      | _ => None
      end
  | TExit w, _ =>
      match workers d !! w, files d with
      | Some WIdle, [] =>
          if isClosed (walker d) then Some (TDir (setWorker d w WExited), s)
          else None
      | _, _ => None
      end
  | TJoin, Waiting =>
      if forallb isExited (workers d) then Some (TDone, s) else None
  | _, _ => None
  end.

(** One move of the goroutines of [ProcessPath(ctx, path, ...)]. *)
Definition stepTask (cfg : Config) (a : TaskAction) (path : string)
    (st : TaskState) (s : Shared) : option (TaskState * Shared) :=
  match st, a with
  | TPending, TStart race =>
      match os_Stat path with
      | inl _ => Some (TDone, addError s)
      | inr fileInfo =>
          if fiIsDir fileInfo then Some (TDir (startDirectory path cfg), s)
          else Some (TDone, fire race (countSingleFile path fileInfo cfg race s))
      end
  | TDir d, _ => stepDir cfg a d s
  | _, _ => None
  end.

Definition step (cfg : Config) (a : Action) (r : Run) : option Run :=
  match a with
  | ACtxDone e =>
      match ctx (shared r) with
      | None =>
          Some {| shared := {| ctx := Some e; processed := processed (shared r);
                               errors := errors (shared r);
                               results := results (shared r) |};
                  tasks := tasks r |}
      | Some _ => None
      end
  | ATask t a =>
      match tasks r !! t with
      | None => None
      | Some tk =>
          match stepTask cfg a (taskPath tk) (taskState tk) (shared r) with
          | None => None
          | Some (st, s) =>
              Some {| shared := s;
                      tasks := <[t := {| taskPath := taskPath tk; taskState := st |}]>
                                 (tasks r) |}
          end
      end
  end.

(** A schedule is a list of actions; [None] when one of them is not enabled. *)
Fixpoint execute (cfg : Config) (sched : list Action) (r : Run) : option Run :=
  match sched with
  | [] => Some r
  | a :: sched' =>
      match step cfg a r with
      | None => None
      | Some r' => execute cfg sched' r'
      end
  end.

(** [main] before the goroutines start: fresh counters, a live context. *)
Definition initialRun (paths : list string) : Run :=
  {| shared := {| ctx := None; processed := 0; errors := 0; results := [] |};
     tasks := map (fun p => {| taskPath := p; taskState := TPending |}) paths |}.

Definition isDone (tk : Task) : bool :=
  match taskState tk with TDone => true | _ => false end.

(** Every [ProcessPath] has returned: [wg.Wait()] in [main] is over. *)
Definition completed (r : Run) : bool := forallb isDone (tasks r).

(** What one resolved path adds to the two counters in a run that is not
    cancelled: one for a path that cannot be accessed, one for a plain
    file, and for a directory one per path sent to the workers plus one if
    the walk ended with an error. *)
Definition expectedCount (cfg : Config) (path : string) : Z :=
  match os_Stat path with
  | inl _ => 1
  | inr fileInfo =>
      if fiIsDir fileInfo then
        let '(sent, final) := walkPlan path cfg in
        Z.of_nat (length sent) + (if isCountedWalkError final then 1 else 0)
      else 1
  end.

(** The count the specification gives: the eligible paths the walker
    enqueued, plus the direct single-file invocations. *)
Definition eligiblePlusSingle (cfg : Config) (path : string) : Z :=
  match os_Stat path with
  | inl _ => 0
  | inr fileInfo =>
      if fiIsDir fileInfo then Z.of_nat (length (walkPlan path cfg).1)
      else 1
  end.

Definition sumZ (l : list Z) : Z := foldr Z.add 0 l.

End Fcopy.

(** ** package main

    The two loops of [main] in [cmd/fcopy/main.go] around the pipeline:
    the resolution of the arguments before it and the collection of the
    results after it.  Each call of [FuzzyFindPath] reads through a reader
    of its own; the lines one call leaves are the ones the next call finds,
    as on a terminal, which hands over one line per read. *)

(** [strings.Trim(path, cutset)] for the cutset of [main], the two quote
    characters: both are ASCII, so the trimming is by bytes, on the right
    and then on the left. *)
Definition isQuote (c : ascii) : bool :=
  Ascii.eqb c "034"%char || Ascii.eqb c "'"%char.

Fixpoint trimLeft (f : ascii -> bool) (s : string) : string :=
  match s with
  | EmptyString => EmptyString
  | String c s' => if f c then trimLeft f s' else s
  end.

Fixpoint trimRight (f : ascii -> bool) (s : string) : string :=
  match s with
  | EmptyString => EmptyString
  | String c s' =>
      match trimRight f s' with
      | EmptyString => if f c then EmptyString else String c EmptyString
      | t => String c t
      end
  end.

Definition trimQuotes (path : string) : string :=
  trimLeft isQuote (trimRight isQuote path).

(** What [main] and the finder print, in the order of printing. *)
Inductive MainEvent :=
| EvFinder (e : Event)
| EvSkipping (cleanPath : string)
| EvErrorAccessing (cleanPath : string) (err : error).

Record Terminal := mkTerminal {
  termIn : list string;
  termOut : list MainEvent
}.

(** One turn of [for _, path := range paths]. *)
Definition resolveArg {E : Env} (fuel : nat) (cfg : Config) (path : string)
    (st : list string * Terminal) : option (list string * Terminal) :=
  let '(resolvedPaths, t) := st in
  let cleanPath := trimQuotes path in
  match os_Stat cleanPath with
  | inl err =>
      if isNotExist (inl err) then
        match FuzzyFindPath fuel cleanPath cfg
                {| stdin := termIn t; stdout := [] |} with
        | None => None
        | Some ((resolvedPath, found), w) =>
            let out := termOut t ++ map EvFinder (stdout w) in
            if found then
              Some (resolvedPaths ++ [resolvedPath],
                    {| termIn := stdin w; termOut := out |})
            else
              Some (resolvedPaths,
                    {| termIn := stdin w;
                       termOut := out ++ [EvSkipping cleanPath] |})
        end
      else
        Some (resolvedPaths,
              {| termIn := termIn t;
                 termOut := termOut t ++ [EvErrorAccessing cleanPath err] |})
  | inr _ => Some (resolvedPaths ++ [cleanPath], t)
  end.

Fixpoint resolveArgs {E : Env} (fuel : nat) (cfg : Config) (paths : list string)
    (st : list string * Terminal) : option (list string * Terminal) :=
  match paths with
  | [] => Some st
  | path :: paths' =>
      match resolveArg fuel cfg path st with
      | None => None
      | Some st' => resolveArgs fuel cfg paths' st'
      end
  end.

Definition newline : string := String "010"%char EmptyString.

(** One turn of [for result := range fileContents]: [count++] and the three
    writes to [output]. *)
Definition collectOne (acc : Z * string) (result : FileContent) : Z * string :=
  let '(count, output) := acc in
  (count + 1,
   (output ++ ("-- " ++ fcPath result ++ " --" ++ newline)
    ++ fcContent result ++ (newline ++ newline))%string).

Definition collect (fileContents : list FileContent) : Z * string :=
  foldl collectOne (0, EmptyString) fileContents.

(** What [main] says at the end, and what it writes to the clipboard. *)
Inductive Report :=
| NoContent
| Copied (count bytes : Z) (clipboard : string).

Definition report (fileContents : list FileContent) : Report :=
  let '(count, output) := collect fileContents in
  if len output =? 0 then NoContent
  else Copied count (len output) output.

(** * Specification predicates *)

(** Class and score of a candidate go together: "exact" with score 0,
    "substring" with a score of at least 1, "fuzzy" with at least 2. *)
Definition classified (m : FuzzyMatch) : Prop :=
  (MatchType m = "exact"%string /\ Score m = 0) \/
  (MatchType m = "substring"%string /\ 1 <= Score m) \/
  (MatchType m = "fuzzy"%string /\ 2 <= Score m).

(** The order on ranking keys: by score, then by depth. *)
Definition keyLe (k1 k2 : Z * Z) : Prop :=
  k1.1 < k2.1 \/ (k1.1 = k2.1 /\ k1.2 <= k2.2).

(** A prompt for a selection was written after the console state [w]. *)
Definition promptedSince (w w' : Console) : Prop :=
  exists before displayCount after,
    stdout w' = stdout w ++ before ++ EvPrompt displayCount :: after.

(** *** Accounting of the pipeline *)

Definition countBusy (ws : list Worker) : Z :=
  sumZ (map (fun w => if isBusy w then 1 else 0) ws).

(** A top-level path that [os.Stat] cannot access. *)
Definition accessFailure {E : Env} (path : string) : Z :=
  match os_Stat path with
  | inl _ => 1
  | inr _ => 0
  end.

(** A directory whose walk ends with an error that is counted. *)
Definition walkFailure {E : Env} (cfg : Config) (path : string) : Z :=
  match os_Stat path with
  | inl _ => 0
  | inr fileInfo =>
      if fiIsDir fileInfo then
        if isCountedWalkError (walkPlan path cfg).2 then 1 else 0
      else 0
  end.

(** The increments of the two counters a task has made so far, as long as
    the context is live. *)
Definition counted {E : Env} (cfg : Config) (path : string) (st : TaskState) : Z :=
  match st with
  | TPending => 0
  | TDir d =>
      fileCount d - Z.of_nat (length (files d)) - countBusy (workers d)
      + match walker d with
        | Waiting => if isCountedWalkError (walkPlan path cfg).2 then 1 else 0
        | _ => 0
        end
  | TDone => expectedCount cfg path
  end.

(** What holds of the walker of a directory task while the context is
    live: it follows the plan of the walk. *)
Definition walkerOk {E : Env} (cfg : Config) (path : string) (d : DirRun) : Prop :=
  match walker d with
  | Walking todo final =>
      final = (walkPlan path cfg).2 /\
      exists sent, (walkPlan path cfg).1 = sent ++ todo /\
                   fileCount d = Z.of_nat (length sent)
  | Returned err | Closed err =>
      err = (walkPlan path cfg).2 /\
      fileCount d = Z.of_nat (length (walkPlan path cfg).1)
  | Waiting => fileCount d = Z.of_nat (length (walkPlan path cfg).1)
  end.

Definition taskOk {E : Env} (cfg : Config) (tk : Task) : Prop :=
  match taskState tk with
  | TDir d =>
      (exists fileInfo, os_Stat (taskPath tk) = inr fileInfo /\
                        fiIsDir fileInfo = true) /\
      walkerOk cfg (taskPath tk) d /\
      (0 < length (workers d))%nat /\
      (forall w, workers d !! w = Some WExited ->
                 files d = [] /\ isClosed (walker d) = true)
  | _ => True
  end.

Definition totalCounted {E : Env} (cfg : Config) (tks : list Task) : Z :=
  sumZ (map (fun tk => counted cfg (taskPath tk) (taskState tk)) tks).

(** The moves of the goroutines of one task, taken on their own. *)
Fixpoint runTask {E : Env} (cfg : Config) (path : string) (acts : list TaskAction)
    (st : TaskState) (s : Shared) : option (TaskState * Shared) :=
  match acts with
  | [] => Some (st, s)
  | a :: acts' =>
      match stepTask cfg a path st s with
      | None => None
      | Some (st', s') => runTask cfg path acts' st' s'
      end
  end.

(** A schedule that takes one task from start to finish when the context
    stays live: the first worker handles every path as soon as the walker
    has sent it, then the walk ends, the channel is closed and the workers
    leave one after the other. *)
Definition sequentialDir (todo workerCount : nat) : list TaskAction :=
  TStart SendFirst
  :: concat (replicate todo [TWalkPush; TTake 0; TWork 0 SendFirst])
  ++ [TWalkEnd; TClose; TAccount]
  ++ map TExit (seq 0 workerCount)
  ++ [TJoin].

Definition sequentialTask {E : Env} (cfg : Config) (path : string) : list TaskAction :=
  match os_Stat path with
  | inl _ => [TStart SendFirst]
  | inr fileInfo =>
      if fiIsDir fileInfo then
        sequentialDir (length (walkPlan path cfg).1) (Z.to_nat (Workers cfg))
      else [TStart SendFirst]
  end.

(** The tasks one after the other, the first at index [t]. *)
Fixpoint sequentialSchedule {E : Env} (cfg : Config) (t : nat) (paths : list string)
    : list Action :=
  match paths with
  | [] => []
  | path :: paths' =>
      map (ATask t) (sequentialTask cfg path)
      ++ sequentialSchedule cfg (S t) paths'
  end.

(** *** Candidates and their entries *)

(** Class and score of a candidate follow from its name and the target:
    the three cases of the scan, in the order the code tries them. *)
Definition scoredByName {E : Env} (targetName : string) (m : FuzzyMatch) : Prop :=
  let nameLower := strings_ToLower (Name m) in
  let targetLower := strings_ToLower targetName in
  (nameLower = targetLower /\
   MatchType m = "exact"%string /\ Score m = 0) \/
  (nameLower <> targetLower /\
   strings_Contains nameLower targetLower
   || strings_Contains targetLower nameLower = true /\
   MatchType m = "substring"%string /\
   Score m = 1 + Abs (len nameLower - len targetLower)) \/
  (nameLower <> targetLower /\
   strings_Contains nameLower targetLower
   || strings_Contains targetLower nameLower = false /\
   MatchType m = "fuzzy"%string /\
   Score m = CalculateSimilarity nameLower targetLower + 2 /\
   CalculateSimilarity nameLower targetLower <= fuzzyThreshold targetName).

(** The environment [E] with another view of the directories. *)
Definition withReadDir (E : Env) (readDir : string -> option (list DirEntry)) : Env :=
  {| strings_ToLower := @strings_ToLower E;
     strings_TrimSpace := @strings_TrimSpace E;
     fmt_Sscanf_d := @fmt_Sscanf_d E;
     filepath_Join := @filepath_Join E;
     filepath_Dir := @filepath_Dir E;
     sort_Slice := @sort_Slice E;
     os_Stat := @os_Stat E;
     os_ReadDir := readDir;
     os_ReadFile := @os_ReadFile E;
     os_WalkRoot := @os_WalkRoot E |}.

(** The selection a line of input stands for, if it is one the loop of
    [FuzzyFindPath] accepts: a number from 0 to [displayCount]. *)
Definition parseSelection {E : Env} (displayCount : Z) (input : string) : option Z :=
  match fmt_Sscanf_d (strings_TrimSpace input) with
  | None => None
  | Some selection =>
      if (selection <? 0) || (displayCount <? selection) then None
      else Some selection
  end.

(** *** The walk of the first variant

    [processDirectory] of [src/main.go] walks the tree with a callback that
    knows no ignore rules: every entry that is not a directory is sent. *)
Fixpoint walkDirSimple {E : Env} (path : string) (d : FsTree)
    : list string * option error :=
  match d with
  | FsFile _ => ([path], None)
  | FsDir _ readErr entries =>
      match readErr with
      | Some e => ([], Some (ErrOs e))
      | None =>
          (fix walkEntries (ds : list FsTree) : list string * option error :=
             match ds with
             | [] => ([], None)
             | d1 :: rest =>
                 match walkDirSimple (filepath_Join path (fsName d1)) d1 with
                 | (sent, Some e) => (sent, Some e)
                 | (sent, None) =>
                     let '(sent', r) := walkEntries rest in
                     (sent ++ sent', r)
                 end
             end) entries
      end
  end.

(** A record on the results channel is backed by the file system: the path
    could be accessed, the file is within the size limit and its extension
    is not a binary one, and the content is what [os.ReadFile] returns. *)
Definition recordBacked {E : Env} (cfg : Config) (rec : FileContent) : Prop :=
  exists fileInfo,
    os_Stat (fcPath rec) = inr fileInfo /\
    fiSize fileInfo <= MaxFileSize cfg /\
    mapGet BinaryExts (strings_ToLower (filepath_Ext (fcPath rec))) = false /\
    os_ReadFile (fcPath rec) = inr (fcContent rec).

(** *** A bound on the length of a run *)

Definition walkerSteps (wk : Walker) : nat :=
  match wk with
  | Walking todo _ => 4 + 3 * length todo
  | Returned _ => 3
  | Closed _ => 2
  | Waiting => 1
  end.

Definition workerSteps (w : Worker) : nat :=
  match w with
  | WIdle => 1
  | WBusy _ => 2
  | WExited => 0
  end.

Definition sumNat (l : list nat) : nat := foldr Nat.add O l.

(** The moves a task can still make, at most. *)
Definition taskSteps {E : Env} (cfg : Config) (tk : Task) : nat :=
  match taskState tk with
  | TPending =>
      5 + 3 * length (walkPlan (taskPath tk) cfg).1 + Z.to_nat (Workers cfg)
  | TDir d =>
      walkerSteps (walker d) + 2 * length (files d)
      + sumNat (map workerSteps (workers d))
  | TDone => 0
  end.

Definition runSteps {E : Env} (cfg : Config) (r : Run) : nat :=
  (match ctx (shared r) with None => 1 | Some _ => 0 end)
  + sumNat (map (taskSteps cfg) (tasks r)).

(** What holds of the workers of a directory task in every run: there is
    one, and none has left before the channel was closed and drained. *)
Definition poolOk (tk : Task) : Prop :=
  match taskState tk with
  | TDir d =>
      (0 < length (workers d))%nat /\
      (forall w, workers d !! w = Some WExited ->
                 files d = [] /\ isClosed (walker d) = true)
  | _ => True
  end.

(** *** Paths held by a directory task *)

Definition notIgnored (cfg : Config) (p : string) : Prop :=
  ShouldIgnore p false cfg = false.

Definition walkerTodo (wk : Walker) : list string :=
  match wk with
  | Walking todo _ => todo
  | _ => []
  end.

Definition workerHolds (P : string -> Prop) (w : Worker) : Prop :=
  match w with
  | WBusy p => P p
  | _ => True
  end.

(** Every path a directory task holds, still to be sent, in the channel
    [files] or in the hands of a worker, passes the ignore rules. *)
Definition heldOk (cfg : Config) (tk : Task) : Prop :=
  match taskState tk with
  | TDir d =>
      Forall (notIgnored cfg) (walkerTodo (walker d)) /\
      Forall (notIgnored cfg) (files d) /\
      Forall (workerHolds (notIgnored cfg)) (workers d)
  | _ => True
  end.

(** The bytes one record adds to the output of [main]. *)
Definition blockLen (result : FileContent) : Z :=
  9 + len (fcPath result) + len (fcContent result).

(** * A concrete environment

    The tree of the repository's integration test, with plain stand-ins
    for the library functions: they agree with Go's on the ASCII names and
    the clean relative paths used here. *)

Definition lowerByte (c : ascii) : ascii :=
  let n := nat_of_ascii c in
  if (65 <=? n)%nat && (n <=? 90)%nat then ascii_of_nat (n + 32) else c.

Fixpoint lowerASCII (s : string) : string :=
  match s with
  | EmptyString => EmptyString
  | String c s' => String (lowerByte c) (lowerASCII s')
  end.

Definition digitValue (c : ascii) : option Z :=
  let n := nat_of_ascii c in
  if (48 <=? n)%nat && (n <=? 57)%nat then Some (Z.of_nat (n - 48)) else None.

Fixpoint parseDigits (s : string) (acc : option Z) : option Z :=
  match s with
  | EmptyString => acc
  | String c s' =>
      match digitValue c with
      | Some d => parseDigits s' (Some (default 0 acc * 10 + d))
      | None => acc
      end
  end.

(** An unsigned decimal numeral at the start of the line. *)
Definition parseDecimal (s : string) : option Z := parseDigits s None.

Definition joinPath (dir name : string) : string :=
  if String.eqb dir "." then name else (dir ++ "/" ++ name)%string.

Fixpoint beforeLastSlash (path : string) : option string :=
  match path with
  | EmptyString => None
  | String c rest =>
      match beforeLastSlash rest with
      | Some d => Some (String c d)
      | None => if isSlash c then Some EmptyString else None
      end
  end.

Definition dirOf (path : string) : string :=
  match beforeLastSlash path with
  | Some EmptyString => "/"%string
  | Some d => d
  | None => "."%string
  end.

Definition testReadDir (dir : string) : option (list DirEntry) :=
  if String.eqb dir "." then
    Some [mkDirEntry ".gitignore" false; mkDirEntry "config.json" false;
          mkDirEntry "configuration.yaml" false; mkDirEntry "docs" true;
          mkDirEntry "src" true; mkDirEntry "test" true]
  else if String.eqb dir "docs" then Some [mkDirEntry "readme.md" false]
  else if String.eqb dir "src" then Some [mkDirEntry "main.go" false]
  else if String.eqb dir "test" then Some [mkDirEntry "test_file.go" false]
  else None.

Definition testTree : FsTree :=
  FsDir "." None
    [FsFile ".gitignore"; FsFile "config.json"; FsFile "configuration.yaml";
     FsDir "docs" None [FsFile "readme.md"];
     FsDir "src" None [FsFile "main.go"];
     FsDir "test" None [FsFile "test_file.go"]].

Definition testFiles : list (string * string) :=
  [(".gitignore", "node_modules/"); ("config.json", "{}");
   ("configuration.yaml", "setting: value"); ("docs/readme.md", "# Documentation");
   ("src/main.go", "package main"); ("test/test_file.go", "package test")]%string.

Definition testDirs : list string := ["."; "docs"; "src"; "test"]%string.

Fixpoint assoc (k : string) (l : list (string * string)) : option string :=
  match l with
  | [] => None
  | (k', v) :: l' => if String.eqb k k' then Some v else assoc k l'
  end.

Definition testStat (path : string) : error + FileInfo :=
  if existsb (String.eqb path) testDirs then inr (mkFileInfo 4096 true)
  else
    match assoc path testFiles with
    | Some content => inr (mkFileInfo (len content) false)
    | None => inl (ErrOs os_ErrNotExist)
    end.

Definition testReadFile (path : string) : error + string :=
  match assoc path testFiles with
  | Some content => inr content
  | None => inl (ErrOs os_ErrNotExist)
  end.

Definition testWalkRoot (path : string) : osErr + FsTree :=
  if String.eqb path "." then inr testTree
  else if String.eqb path "docs" then inr (FsDir "docs" None [FsFile "readme.md"])
  else if String.eqb path "src" then inr (FsDir "src" None [FsFile "main.go"])
  else if String.eqb path "test" then inr (FsDir "test" None [FsFile "test_file.go"])
  else inl os_ErrNotExist.

Definition testEnv : Env :=
  {| strings_ToLower := lowerASCII;
     strings_TrimSpace := fun s => s;
     fmt_Sscanf_d := parseDecimal;
     filepath_Join := joinPath;
     filepath_Dir := dirOf;
     sort_Slice := insertionSort;
     os_Stat := testStat;
     os_ReadDir := testReadDir;
     os_ReadFile := testReadFile;
     os_WalkRoot := testWalkRoot |}.

(** The configuration of the integration test, with the default
    [MaxMatches] and [SearchHidden]. *)
Definition testConfig : Config :=
  {| MaxFileSize := 1024 * 1024; Workers := 2; Verbose := true; Debug := true;
     MaxMatches := 15; SearchDepth := 3; AutoSelect := true;
     SearchHidden := false; NoIgnore := false |}.

Definition noIgnoreConfig : Config :=
  {| MaxFileSize := 1024 * 1024; Workers := 2; Verbose := true; Debug := true;
     MaxMatches := 15; SearchDepth := 3; AutoSelect := true;
     SearchHidden := false; NoIgnore := true |}.

(** Two exact matches of the same name, one level down, in sibling
    directories: same score, same depth. *)
Definition mainInSrc : FuzzyMatch :=
  {| Path := "src/main.go"; Name := "main.go"; Score := 0; IsDir := false;
     Depth := 1; MatchType := "exact" |}.

Definition mainInLib : FuzzyMatch :=
  {| Path := "lib/main.go"; Name := "main.go"; Score := 0; IsDir := false;
     Depth := 1; MatchType := "exact" |}.

Definition mainInRoot : FuzzyMatch :=
  {| Path := "main.go"; Name := "main.go"; Score := 0; IsDir := false;
     Depth := 0; MatchType := "exact" |}.

Definition mianInSrc : FuzzyMatch :=
  {| Path := "src/mian.go"; Name := "mian.go"; Score := 4; IsDir := false;
     Depth := 1; MatchType := "fuzzy" |}.

(** A project directory with one file and one subdirectory that cannot be
    read. *)
Definition lockedTree : FsTree :=
  FsDir "proj" None [FsFile "a.txt"; FsDir "private" (Some os_ErrPermission) []].

Definition lockedEnv : Env :=
  {| strings_ToLower := lowerASCII;
     strings_TrimSpace := fun s => s;
     fmt_Sscanf_d := parseDecimal;
     filepath_Join := joinPath;
     filepath_Dir := dirOf;
     sort_Slice := insertionSort;
     os_Stat := fun path =>
       if String.eqb path "proj" then inr (mkFileInfo 4096 true)
       else if String.eqb path "proj/a.txt" then inr (mkFileInfo 5 false)
       else inl (ErrOs os_ErrNotExist);
     os_ReadDir := fun _ => None;
     os_ReadFile := fun path =>
       if String.eqb path "proj/a.txt" then inr "hello"%string
       else inl (ErrOs os_ErrNotExist);
     os_WalkRoot := fun path =>
       if String.eqb path "proj" then inr lockedTree else inl os_ErrNotExist |}.

Definition oneWorkerConfig : Config :=
  {| MaxFileSize := 1024 * 1024; Workers := 1; Verbose := false; Debug := true;
     MaxMatches := 15; SearchDepth := 5; AutoSelect := false;
     SearchHidden := false; NoIgnore := false |}.

(** One task, one worker: the walk sends its file and fails on the
    subdirectory, the worker processes the file, everything is joined. *)
Definition lockedSchedule : list Action :=
  [ATask 0 (TStart SendFirst); ATask 0 TWalkPush; ATask 0 TWalkEnd;
   ATask 0 TClose; ATask 0 TAccount; ATask 0 (TTake 0);
   ATask 0 (TWork 0 SendFirst); ATask 0 (TExit 0); ATask 0 TJoin].

(** The run on the test tree up to the moment a worker holds the first
    file, [config.json]; then the deadline fires. *)
Definition deadlineSchedule : list Action :=
  [ATask 0 (TStart SendFirst); ATask 0 TWalkPush; ATask 0 (TTake 0);
   ACtxDone context_DeadlineExceeded; ATask 0 (TWork 0 SendFirst)].

(** The same, the deadline firing while the record waits to be sent. *)
Definition lateDeadlineSchedule : list Action :=
  [ATask 0 (TStart SendFirst); ATask 0 TWalkPush; ATask 0 (TTake 0);
   ATask 0 (TWork 0 (DoneFirst context_DeadlineExceeded))].

Definition noWorkerConfig : Config :=
  {| MaxFileSize := 1024 * 1024; Workers := 0; Verbose := false; Debug := true;
     MaxMatches := 15; SearchDepth := 5; AutoSelect := false;
     SearchHidden := false; NoIgnore := false |}.

(** Without workers the walk fills the channel and the run is over. *)
Definition noWorkerSchedule : list Action :=
  [ATask 0 (TStart SendFirst); ATask 0 TWalkPush; ATask 0 TWalkPush;
   ATask 0 TWalkPush; ATask 0 TWalkPush; ATask 0 TWalkPush; ATask 0 TWalkEnd;
   ATask 0 TClose; ATask 0 TAccount; ATask 0 TJoin].

(** The fuzzy candidate the test tree has for the target [mian.go]. *)
Definition mainInSrcFuzzy : FuzzyMatch :=
  {| Path := "src/main.go"; Name := "main.go"; Score := 4; IsDir := false;
     Depth := 1; MatchType := "fuzzy" |}.

(** The test tree as seen when a [node_modules] directory shows up with
    content of its own. *)
Definition testReadDirModules (dir : string) : option (list DirEntry) :=
  if String.eqb dir "node_modules" then Some [mkDirEntry "mian.go" false]
  else testReadDir dir.

Definition emptyConsole : Console := {| stdin := []; stdout := [] |}.

(** * Properties *)

(** ** The recurrence [lev] is the edit distance *)

Lemma lev_nil_r (s : list ascii) : lev s [] = length s.
Proof. destruct s; reflexivity. Qed.

Lemma lev_cons_cons (x y : ascii) (s t : list ascii) :
  lev (x :: s) (y :: t) =
  Nat.min (Nat.min (S (lev (x :: s) t)) (S (lev s (y :: t))))
          (lev s t + (if Ascii.eqb x y then 0 else 1))%nat.
Proof. reflexivity. Qed.

Lemma lev_refl (s : list ascii) : lev s s = O.
Proof.
  induction s as [|x s IH]; [reflexivity|].
  rewrite lev_cons_cons, IH, Ascii.eqb_refl. lia.
Qed.

Lemma lev_upper (s t : list ascii) :
  (lev s t <= Nat.max (length s) (length t))%nat.
Proof.
  revert t. induction s as [|x s IH]; intros t.
  - simpl. lia.
  - destruct t as [|y t]; [rewrite lev_nil_r; simpl; lia|].
    rewrite lev_cons_cons. specialize (IH t).
    cbn [length]. destruct (Ascii.eqb x y); lia.
Qed.

(** One more byte on either side moves the distance by at most one. *)
Lemma lev_cons_l_le (c : ascii) (s t : list ascii) :
  (lev (c :: s) t <= S (lev s t))%nat.
Proof.
  destruct t as [|y t]; [rewrite !lev_nil_r; simpl; lia|].
  rewrite lev_cons_cons. lia.
Qed.

Lemma lev_cons_r_le (c : ascii) (s t : list ascii) :
  (lev s (c :: t) <= S (lev s t))%nat.
Proof.
  destruct s as [|x s]; [simpl; lia|].
  rewrite lev_cons_cons. lia.
Qed.

Lemma lev_uncons_l_le (c : ascii) (s t : list ascii) :
  (lev s t <= S (lev (c :: s) t))%nat.
Proof.
  revert s. induction t as [|y t IH]; intros s.
  - rewrite !lev_nil_r. simpl. lia.
  - rewrite lev_cons_cons.
    pose proof (IH s). pose proof (lev_cons_r_le y s t).
    destruct (Ascii.eqb c y); lia.
Qed.

Lemma lev_subst_l_le (c d : ascii) (s t : list ascii) :
  (lev (c :: s) t <= S (lev (d :: s) t))%nat.
Proof.
  induction t as [|y t IH]; [rewrite !lev_nil_r; simpl; lia|].
  rewrite !lev_cons_cons.
  destruct (Ascii.eqb c y), (Ascii.eqb d y); lia.
Qed.

Lemma lev_cons_congr (x : ascii) (s s' : list ascii) :
  (forall t, lev s t <= S (lev s' t))%nat ->
  forall t, (lev (x :: s) t <= S (lev (x :: s') t))%nat.
Proof.
  intros H t. induction t as [|y t IH].
  - rewrite !lev_nil_r. specialize (H []). rewrite !lev_nil_r in H.
    simpl. lia.
  - rewrite !lev_cons_cons.
    pose proof (H (y :: t)). pose proof (H t).
    destruct (Ascii.eqb x y); lia.
Qed.

Lemma lev_edit1_l (s s' : list ascii) :
  edit1 s s' -> forall t, (lev s t <= S (lev s' t))%nat.
Proof.
  intros H. destruct H as [p c q|p c q|p c d q];
    induction p as [|x p IH]; simpl; intros t;
    solve [ apply lev_uncons_l_le | apply lev_cons_l_le | apply lev_subst_l_le
          | apply lev_cons_congr, IH ].
Qed.

Lemma lev_lower (n : nat) (s t : list ascii) :
  edits n s t -> (lev s t <= n)%nat.
Proof.
  induction 1 as [s|n s t u H1 _ IH]; [rewrite lev_refl; lia|].
  pose proof (lev_edit1_l _ _ H1 u). lia.
Qed.

Lemma edit1_cons {A : Type} (x : A) (s t : list A) :
  edit1 s t -> edit1 (x :: s) (x :: t).
Proof.
  intros [p c q|p c q|p c d q].
  - apply (edit1_insert (x :: p)).
  - apply (edit1_delete (x :: p)).
  - apply (edit1_subst (x :: p)).
Qed.

Lemma edits_cons {A : Type} (x : A) (n : nat) (s t : list A) :
  edits n s t -> edits n (x :: s) (x :: t).
Proof.
  induction 1; [constructor|].
  econstructor; eauto using edit1_cons.
Qed.

Lemma edits_insert_all {A : Type} (t : list A) : edits (length t) [] t.
Proof.
  induction t as [|y t IH]; [constructor|].
  simpl. econstructor; [apply (edit1_insert [] y [])|].
  apply edits_cons, IH.
Qed.

Lemma edits_delete_all {A : Type} (s : list A) : edits (length s) s [].
Proof.
  induction s as [|x s IH]; [constructor|].
  simpl. econstructor; [apply (edit1_delete [] x s)|]. exact IH.
Qed.

Lemma lev_edits (s t : list ascii) : edits (lev s t) s t.
Proof.
  revert t. induction s as [|x s IHs]; intros t.
  - apply edits_insert_all.
  - induction t as [|y t IHt].
    + rewrite lev_nil_r. apply edits_delete_all.
    + rewrite lev_cons_cons.
      set (a := S (lev (x :: s) t)). set (b := S (lev s (y :: t))).
      set (c := (lev s t + (if Ascii.eqb x y then 0 else 1))%nat).
      assert (Ha : edits a (x :: s) (y :: t)).
      { subst a. econstructor; [apply (edit1_insert [] y (x :: s))|].
        simpl. apply edits_cons, IHt. }
      assert (Hb : edits b (x :: s) (y :: t)).
      { subst b. econstructor; [apply (edit1_delete [] x s)|]. apply IHs. }
      assert (Hc : edits c (x :: s) (y :: t)).
      { subst c. destruct (Ascii.eqb_spec x y) as [->|_].
        - rewrite Nat.add_0_r. apply edits_cons, IHs.
        - rewrite Nat.add_1_r.
          econstructor; [apply (edit1_subst [] x y s)|].
          simpl. apply edits_cons, IHs. }
      destruct (Nat.min_spec (Nat.min a b) c) as [[_ ->]|[_ ->]]; [|exact Hc].
      destruct (Nat.min_spec a b) as [[_ ->]|[_ ->]]; assumption.
Qed.

Lemma lev_is_edit_distance (s t : list ascii) : is_edit_distance s t (lev s t).
Proof. split; [apply lev_edits|]. intros m. apply lev_lower. Qed.

Lemma edit1_sym {A : Type} (s t : list A) : edit1 s t -> edit1 t s.
Proof. intros [p c q|p c q|p c d q]; constructor. Qed.

Lemma edits_snoc {A : Type} (n : nat) (s t u : list A) :
  edits n s t -> edit1 t u -> edits (S n) s u.
Proof.
  induction 1 as [s|n s t' t H1 _ IH]; intros H2.
  - econstructor; [exact H2|constructor].
  - econstructor; [exact H1|]. apply IH, H2.
Qed.

Lemma edits_sym {A : Type} (n : nat) (s t : list A) :
  edits n s t -> edits n t s.
Proof.
  induction 1 as [s|n s t u H1 _ IH]; [constructor|].
  eapply edits_snoc; [exact IH|]. apply edit1_sym, H1.
Qed.

Lemma edit1_rev {A : Type} (s t : list A) : edit1 s t -> edit1 (rev s) (rev t).
Proof.
  intros [p c q|p c q|p c d q];
    rewrite !rev_app_distr; simpl; rewrite <- !app_assoc; simpl; constructor.
Qed.

Lemma edits_rev {A : Type} (n : nat) (s t : list A) :
  edits n s t -> edits n (rev s) (rev t).
Proof.
  induction 1; [constructor|].
  econstructor; eauto using edit1_rev.
Qed.

Lemma lev_sym (s t : list ascii) : lev s t = lev t s.
Proof.
  apply Nat.le_antisymm; apply lev_lower, edits_sym, lev_edits.
Qed.

Lemma lev_rev (s t : list ascii) : lev (rev s) (rev t) = lev s t.
Proof.
  apply Nat.le_antisymm.
  - apply lev_lower, edits_rev, lev_edits.
  - apply lev_lower.
    pose proof (edits_rev _ _ _ (lev_edits (rev s) (rev t))) as H.
    rewrite !rev_involutive in H. exact H.
Qed.

(** ** The rolling rows of [CalculateSimilarity] compute [lev] *)

Lemma for_range_ind {St : Type} (P : nat -> St -> Prop) (body : nat -> St -> St)
    (n lo : nat) (st : St) :
  P lo st ->
  (forall i st, (lo <= i < lo + n)%nat -> P i st -> P (S i) (body i st)) ->
  P (lo + n)%nat (for_range lo n body st).
Proof.
  revert lo st. induction n as [|n IH]; intros lo st H0 Hstep; simpl.
  - rewrite Nat.add_0_r. exact H0.
  - replace (lo + S n)%nat with (S lo + n)%nat by lia.
    apply IH.
    + apply Hstep; [lia|exact H0].
    + intros i st' Hi. apply Hstep. lia.
Qed.

Lemma for_range_ind0 {St : Type} (P : nat -> St -> Prop) (body : nat -> St -> St)
    (n : nat) (st : St) :
  P O st ->
  (forall i st, (i < n)%nat -> P i st -> P (S i) (body i st)) ->
  P n (for_range 0 n body st).
Proof.
  intros H0 Hstep. apply (for_range_ind P body n 0 st H0).
  intros i st' Hi. apply Hstep. lia.
Qed.

Lemma Min_spec (a b c : Z) : Min a b c = Z.min (Z.min a b) c.
Proof.
  unfold Min.
  destruct (Z.ltb_spec a b), (Z.ltb_spec a c), (Z.ltb_spec b c); lia.
Qed.

Lemma bytes_length (s : string) : length (bytes s) = String.length s.
Proof. induction s; simpl; congruence. Qed.

Lemma bytes_lookup (s : string) (i : nat) : bytes s !! i = String.get i s.
Proof.
  revert i. induction s as [|c s IH]; intros [|i]; simpl; auto.
Qed.

Lemma byteAt_lookup (s : string) (i : nat) (c : ascii) :
  bytes s !! i = Some c -> byteAt s i = c.
Proof. unfold byteAt. rewrite bytes_lookup. intros ->. reflexivity. Qed.

Lemma cell_0_l (s1 s2 : string) (j : nat) :
  (j <= String.length s2)%nat -> cell s1 s2 0 j = Z.of_nat j.
Proof.
  intros Hj. unfold cell. rewrite take_0. simpl.
  rewrite length_rev, length_take, bytes_length. f_equal. lia.
Qed.

Lemma cell_0_r (s1 s2 : string) (i : nat) :
  (i <= String.length s1)%nat -> cell s1 s2 i 0 = Z.of_nat i.
Proof.
  intros Hi. unfold cell. rewrite take_0. simpl.
  rewrite lev_nil_r, length_rev, length_take, bytes_length. f_equal. lia.
Qed.

Lemma cell_S_S (s1 s2 : string) (i j : nat) :
  (i < String.length s1)%nat -> (j < String.length s2)%nat ->
  cell s1 s2 (S i) (S j) =
  Min (cell s1 s2 (S i) j + 1) (cell s1 s2 i (S j) + 1)
      (cell s1 s2 i j + (if Ascii.eqb (byteAt s1 i) (byteAt s2 j) then 0 else 1)).
Proof.
  intros Hi Hj.
  destruct (lookup_lt_is_Some_2 (bytes s1) i) as [x Hx];
    [rewrite bytes_length; lia|].
  destruct (lookup_lt_is_Some_2 (bytes s2) j) as [y Hy];
    [rewrite bytes_length; lia|].
  rewrite (byteAt_lookup _ _ _ Hx), (byteAt_lookup _ _ _ Hy), Min_spec.
  unfold cell.
  rewrite (take_S_r _ _ _ Hx), (take_S_r _ _ _ Hy), !rev_unit, lev_cons_cons.
  destruct (Ascii.eqb x y); lia.
Qed.

Lemma cell_bounds (s1 s2 : string) (i j : nat) :
  0 <= cell s1 s2 i j <= Z.max (len s1) (len s2).
Proof.
  unfold cell, len.
  pose proof (lev_upper (rev (take i (bytes s1))) (rev (take j (bytes s2)))) as H.
  rewrite !length_rev, !length_take, !bytes_length in H. lia.
Qed.

Lemma initRow_spec (n : nat) :
  let v0 := for_range 0 (S n) (fun i v0 => <[i := Z.of_nat i]> v0)
                      (replicate (S n) 0) in
  length v0 = S n /\ forall k, (k <= n)%nat -> v0 !! k = Some (Z.of_nat k).
Proof.
  pose proof (for_range_ind0
    (fun i (v : list Z) =>
       length v = S n /\ forall k, (k < i)%nat -> v !! k = Some (Z.of_nat k))
    (fun i v0 => <[i := Z.of_nat i]> v0) (S n) (replicate (S n) 0)) as H.
  cbv beta in H. destruct H as [Hlen Hget].
  - split; [apply length_replicate|]. intros k Hk. lia.
  - intros i v Hi [Hlen Hget]. split; [rewrite length_insert; exact Hlen|].
    intros k Hk. destruct (decide (k = i)) as [->|Hne].
    + apply list_lookup_insert_eq. lia.
    + rewrite list_lookup_insert_ne by congruence. apply Hget. lia.
  - split; [exact Hlen|]. intros k Hk. apply Hget. lia.
Qed.

Lemma fillRow_spec (s1 s2 : string) (i : nat) (v0 v1 : list Z) :
  (i < String.length s1)%nat ->
  length v0 = S (String.length s2) ->
  (forall k, (k <= String.length s2)%nat -> v0 !! k = Some (cell s1 s2 i k)) ->
  length v1 = S (String.length s2) ->
  v1 !! O = Some (cell s1 s2 (S i) 0) ->
  length (fillRow s1 s2 i v0 v1) = S (String.length s2) /\
  forall k, (k <= String.length s2)%nat ->
            fillRow s1 s2 i v0 v1 !! k = Some (cell s1 s2 (S i) k).
Proof.
  intros Hi Hl0 H0 Hl1 H1. unfold fillRow.
  set (n := String.length s2) in *.
  pose proof (for_range_ind0
    (fun j (v : list Z) =>
       length v = S n /\
       forall k, (k <= j)%nat -> v !! k = Some (cell s1 s2 (S i) k))
    (fun j v1 =>
       let cost := if Ascii.eqb (byteAt s1 i) (byteAt s2 j) then 0 else 1 in
       <[S j := Min (v1 !!! j + 1) (v0 !!! S j + 1) (v0 !!! j + cost)]> v1)
    n v1) as H.
  cbv beta in H. apply H; clear H.
  - split; [exact Hl1|]. intros k Hk. replace k with O by lia. exact H1.
  - intros j v Hj [Hlen Hget]. split; [rewrite length_insert; exact Hlen|].
    intros k Hk. destruct (decide (k = S j)) as [->|Hne].
    + rewrite list_lookup_insert_eq by lia. f_equal.
      rewrite (list_lookup_total_correct v j _ (Hget j (Nat.le_refl j))).
      rewrite (list_lookup_total_correct v0 (S j) _ (H0 (S j) ltac:(lia))).
      rewrite (list_lookup_total_correct v0 j _ (H0 j ltac:(lia))).
      symmetry. apply cell_S_S; lia.
    + rewrite list_lookup_insert_ne by congruence. apply Hget. lia.
Qed.

Lemma copyRow_spec (s2 : string) (v0 v1 : list Z) :
  length v0 = S (String.length s2) -> length v1 = S (String.length s2) ->
  copyRow s2 v0 v1 = v1.
Proof.
  intros Hl0 Hl1. unfold copyRow. set (n := String.length s2) in *.
  pose proof (for_range_ind0
    (fun j (v : list Z) =>
       length v = S n /\ forall k, (k < j)%nat -> v !! k = v1 !! k)
    (fun j v0 => <[j := v1 !!! j]> v0) (S n) v0) as H.
  cbv beta in H. destruct H as [Hlen Hget].
  - split; [exact Hl0|]. intros k Hk. lia.
  - intros j v Hj [Hlen Hget]. split; [rewrite length_insert; exact Hlen|].
    intros k Hk. destruct (decide (k = j)) as [->|Hne].
    + rewrite list_lookup_insert_eq by lia.
      destruct (lookup_lt_is_Some_2 v1 j) as [x Hx]; [lia|].
      rewrite Hx. f_equal. apply list_lookup_total_correct, Hx.
    + rewrite list_lookup_insert_ne by congruence. apply Hget. lia.
  - apply list_eq. intros k. destruct (decide (k < S n)%nat) as [Hk|Hk].
    + apply Hget, Hk.
    + rewrite !lookup_ge_None_2 by lia. reflexivity.
Qed.

Lemma rows_spec (s1 s2 : string) (m : nat) (v0 v1 : list Z) :
  (m <= String.length s1)%nat ->
  length v0 = S (String.length s2) -> length v1 = S (String.length s2) ->
  (forall k, (k <= String.length s2)%nat -> v0 !! k = Some (cell s1 s2 0 k)) ->
  let '(w0, w1) := for_range 0 m (rowStep s1 s2) (v0, v1) in
  length w0 = S (String.length s2) /\ length w1 = S (String.length s2) /\
  (forall k, (k <= String.length s2)%nat -> w0 !! k = Some (cell s1 s2 m k)) /\
  ((0 < m)%nat -> w1 = w0).
Proof.
  intros Hm Hl0 Hl1 H0.
  pose proof (for_range_ind0
    (fun i (vs : list Z * list Z) =>
       (i <= m)%nat ->
       length vs.1 = S (String.length s2) /\ length vs.2 = S (String.length s2) /\
       (forall k, (k <= String.length s2)%nat ->
                  vs.1 !! k = Some (cell s1 s2 i k)) /\
       ((0 < i)%nat -> vs.2 = vs.1))
    (rowStep s1 s2) m (v0, v1)) as H.
  cbv beta in H.
  destruct (for_range 0 m (rowStep s1 s2) (v0, v1)) as [w0 w1].
  apply H; [| |lia]; clear H.
  - intros _. simpl. repeat split; auto. lia.
  - intros i [u0 u1] Hi IH Hle. specialize (IH ltac:(lia)).
    simpl in IH. destruct IH as (Hu0 & Hu1 & Hcells & _).
    unfold rowStep.
    destruct (fillRow_spec s1 s2 i u0 (<[O := Z.of_nat i + 1]> u1))
      as [Hlen Hrow]; auto; try lia.
    + rewrite length_insert. exact Hu1.
    + rewrite list_lookup_insert_eq by lia. f_equal.
      rewrite cell_0_r by lia. lia.
    + rewrite copyRow_spec by auto. simpl. repeat split; auto.
Qed.

Lemma CalculateSimilarity_lev (s1 s2 : string) :
  CalculateSimilarity s1 s2 = Z.of_nat (lev (bytes s1) (bytes s2)).
Proof.
  unfold CalculateSimilarity, len.
  destruct (Z.eqb_spec (Z.of_nat (String.length s1)) 0) as [E1|E1].
  { destruct s1; [|simpl in E1; lia]. simpl. rewrite bytes_length. reflexivity. }
  destruct (Z.eqb_spec (Z.of_nat (String.length s2)) 0) as [E2|E2].
  { destruct s2; [|simpl in E2; lia]. simpl bytes.
    rewrite lev_nil_r, bytes_length. reflexivity. }
  destruct (initRow_spec (String.length s2)) as [Hl0 H0].
  pose proof (rows_spec s1 s2 (String.length s1) _
                (replicate (S (String.length s2)) 0)
                (Nat.le_refl _) Hl0 (length_replicate _ _)) as H.
  destruct (for_range 0 (String.length s1) (rowStep s1 s2) _) as [w0 w1].
  destruct H as (_ & _ & Hcells & Heq).
  { intros k Hk. rewrite cell_0_l by exact Hk. apply H0, Hk. }
  rewrite Heq by lia.
  rewrite (list_lookup_total_correct _ _ _ (Hcells _ (Nat.le_refl _))).
  unfold cell. rewrite <- !bytes_length, !firstn_all, lev_rev. reflexivity.
Qed.

(** ** Checks of the model on the test tree *)

Example CalculateSimilarity_kitten :
  CalculateSimilarity "kitten" "sitting" = 3.
Proof. vm_compute. reflexivity. Qed.

Example CalculateSimilarity_flaw :
  CalculateSimilarity "flaw" "lawn" = 2.
Proof. vm_compute. reflexivity. Qed.

Example ShouldIgnore_examples :
  ShouldIgnore "web/node_modules" true testConfig = true /\
  ShouldIgnore "src" true testConfig = false /\
  ShouldIgnore ".gitignore" false testConfig = true /\
  ShouldIgnore "static/app.min.js" false testConfig = true /\
  ShouldIgnore "yarn.lock" false testConfig = true /\
  ShouldIgnore "src/main.go" false testConfig = false /\
  ShouldIgnore "." true testConfig = false.
Proof. vm_compute. repeat split. Qed.

Example filepath_examples :
  filepath_Base "a/b/c.txt" = "c.txt"%string /\
  filepath_Base "a/b/" = "b"%string /\
  filepath_Base "" = "."%string /\
  filepath_Base "///" = "/"%string /\
  filepath_Ext "a.b/c" = ""%string /\
  filepath_Ext "a/b.tar.gz" = ".gz"%string /\
  filepath_Ext ".gitignore" = ".gitignore"%string.
Proof. vm_compute. repeat split. Qed.

Example FindRecursiveMatches_main :
  FindRecursiveMatches (E := testEnv) "." "main" 0 testConfig =
  [ {| Path := "src/main.go"; Name := "main.go"; Score := 4; IsDir := false;
       Depth := 1; MatchType := "substring" |} ].
Proof. vm_compute. reflexivity. Qed.

(** ** Similarity scorer *)

(** C6. For all strings [a], [b] and [s]: [CalculateSimilarity a a = 0],
    [CalculateSimilarity a b = CalculateSimilarity b a],
    [CalculateSimilarity "" s = len s], and the result is the classic
    unit-cost edit distance: the least number of single-byte insertions,
    deletions and substitutions that turn [a] into [b] (the unit is the
    byte, which is what the code indexes). *)
Theorem CalculateSimilarity_edit_distance (a b s : string) :
  CalculateSimilarity a a = 0 /\
  CalculateSimilarity a b = CalculateSimilarity b a /\
  CalculateSimilarity "" s = len s /\
  exists n : nat,
    CalculateSimilarity a b = Z.of_nat n /\
    is_edit_distance (bytes a) (bytes b) n.
Proof.
  repeat split.
  - rewrite CalculateSimilarity_lev, lev_refl. reflexivity.
  - rewrite !CalculateSimilarity_lev, lev_sym. reflexivity.
  - exists (lev (bytes a) (bytes b)).
    split; [apply CalculateSimilarity_lev|apply lev_is_edit_distance].
Qed.

(** C10. For all strings [a] and [b] the result of the scorer lies between
    zero and the length of the longer string. *)
Theorem CalculateSimilarity_bounds (a b : string) :
  0 <= CalculateSimilarity a b <= Z.max (len a) (len b).
Proof.
  rewrite CalculateSimilarity_lev.
  pose proof (lev_upper (bytes a) (bytes b)) as H.
  rewrite !bytes_length in H. unfold len. lia.
Qed.

(** ** Ignore policy *)

(** C7. With the ignore-override flag set, [ShouldIgnore] returns false
    for every path and either value of the directory flag. *)
Theorem ShouldIgnore_NoIgnore (path : string) (isDir : bool) (cfg : Config) :
  NoIgnore cfg = true -> ShouldIgnore path isDir cfg = false.
Proof. intros H. unfold ShouldIgnore. rewrite H. reflexivity. Qed.

Lemma ShouldIgnore_NoIgnore_witness :
  NoIgnore noIgnoreConfig = true /\
  ShouldIgnore "web/node_modules" true noIgnoreConfig = false.
Proof.
  split; [reflexivity|].
  apply (ShouldIgnore_NoIgnore "web/node_modules" true noIgnoreConfig).
  reflexivity.
Defined.

(** ** ProcessSingleFile *)

(** C9. [ProcessSingleFile] places exactly one record, for its own path, on
    the results channel when it returns nil, and leaves the channel as it
    was when it returns an error (file too large, binary extension, read
    failure, context done). *)
Theorem ProcessSingleFile_emits {E : Env} (ctxNow : option ctxErr) (path : string)
    (fileInfo : FileInfo) (cfg : Config) (race : SendRace)
    (results : list FileContent) :
  match ProcessSingleFile ctxNow path fileInfo cfg race results with
  | (None, results') =>
      exists content, os_ReadFile path = inr content /\
        results' = results ++ [{| fcPath := path; fcContent := content |}]
  | (Some _, results') => results' = results
  end.
Proof.
  unfold ProcessSingleFile.
  destruct (MaxFileSize cfg <? fiSize fileInfo); [reflexivity|].
  destruct (mapGet BinaryExts _); [reflexivity|].
  destruct ctxNow; [reflexivity|].
  destruct (os_ReadFile path) as [err|content]; [reflexivity|].
  destruct race; [|reflexivity].
  exists content. split; reflexivity.
Qed.

(** X16. The four ways [ProcessSingleFile] returns an error, and the one way it
    returns nil. *)
Lemma ProcessSingleFile_cases {E : Env} (ctxNow : option ctxErr) (path : string)
    (fileInfo : FileInfo) (cfg : Config) (race : SendRace)
    (results : list FileContent) :
  (ProcessSingleFile ctxNow path fileInfo cfg race results).1 = None <->
  (fiSize fileInfo <= MaxFileSize cfg /\
   mapGet BinaryExts (strings_ToLower (filepath_Ext path)) = false /\
   ctxNow = None /\ (exists content, os_ReadFile path = inr content) /\
   race = SendFirst).
Proof.
  unfold ProcessSingleFile.
  destruct (Z.ltb_spec (MaxFileSize cfg) (fiSize fileInfo)).
  { simpl. split; [discriminate|]. intros (? & _). lia. }
  destruct (mapGet BinaryExts _).
  { simpl. split; [discriminate|]. intros (_ & ? & _). discriminate. }
  destruct ctxNow.
  { simpl. split; [discriminate|]. intros (_ & _ & ? & _). discriminate. }
  destruct (os_ReadFile path) as [err|content].
  { simpl. split; [discriminate|]. intros (_ & _ & _ & [c Hc] & _). discriminate. }
  destruct race; simpl.
  - split; [|reflexivity]. intros _. repeat split; eauto.
  - split; [discriminate|]. intros (_ & _ & _ & _ & ?). discriminate.
Qed.

(** ** Classification of directory entries *)

Lemma CalculateSimilarity_nonneg (s1 s2 : string) :
  0 <= CalculateSimilarity s1 s2.
Proof. rewrite CalculateSimilarity_lev. lia. Qed.

Lemma Abs_nonneg (n : Z) : 0 <= Abs n.
Proof. unfold Abs. destruct (Z.ltb_spec n 0); lia. Qed.





(** ** Score and class of the candidates *)

Section Candidates.

Context {E : Env}.

Lemma scanEntry_classified (dir targetName : string) (currentDepth : Z)
    (cfg : Config) (matches : list FuzzyMatch) (entry : DirEntry) :
  Forall classified matches ->
  Forall classified (scanEntry dir targetName currentDepth cfg matches entry).
Proof.
  intros Hm. unfold scanEntry.
  destruct (ShouldIgnore _ _ _); [exact Hm|].
  destruct (String.eqb _ _).
  { apply Forall_app. split; [exact Hm|]. repeat constructor. }
  destruct (_ || _)%bool.
  { apply Forall_app. split; [exact Hm|]. constructor; [|constructor].
    right. left. split; [reflexivity|]. cbn [Score].
    pose proof (Abs_nonneg (len (strings_ToLower (entryName entry))
                            - len (strings_ToLower targetName))). lia. }
  destruct (_ <=? _); [|exact Hm].
  apply Forall_app. split; [exact Hm|]. constructor; [|constructor].
  right. right. split; [reflexivity|]. cbn [Score].
  pose proof (CalculateSimilarity_nonneg (strings_ToLower (entryName entry))
                (strings_ToLower targetName)). lia.
Qed.

Lemma foldl_Forall {A B : Type} (P : A -> Prop) (f : list A -> B -> list A)
    (bs : list B) (acc : list A) :
  (forall acc b, Forall P acc -> Forall P (f acc b)) ->
  Forall P acc -> Forall P (foldl f acc bs).
Proof.
  intros Hf. revert acc. induction bs as [|b bs IH]; intros acc Hacc; simpl.
  - exact Hacc.
  - apply IH, Hf, Hacc.
Qed.

Lemma FindRecursiveMatches_at_classified (levels : nat) (dir targetName : string)
    (currentDepth : Z) (cfg : Config) :
  Forall classified
         (FindRecursiveMatches_at levels dir targetName currentDepth cfg).
Proof.
  revert dir currentDepth.
  induction levels as [|levels IH]; intros dir currentDepth; simpl.
  - constructor.
  - destruct (_ <? _); [constructor|].
    destruct (os_ReadDir dir) as [entries|]; [|constructor].
    apply foldl_Forall.
    + intros acc entry Hacc. unfold scanSubdir.
      destruct (entryIsDir entry); [|exact Hacc].
      destruct (ShouldIgnore _ _ _); [exact Hacc|].
      apply Forall_app. split; [exact Hacc|apply IH].
    + apply foldl_Forall; [|constructor].
      intros acc entry. apply scanEntry_classified.
Qed.

(** The recursive equation of the source: the depth check, the scan of the
    entries, then the subdirectories one level deeper. *)
Lemma FindRecursiveMatches_unfold (dir targetName : string) (currentDepth : Z)
    (cfg : Config) :
  FindRecursiveMatches dir targetName currentDepth cfg =
  if SearchDepth cfg <? currentDepth then []
  else
    match os_ReadDir dir with
    | None => []
    | Some entries =>
        foldl (scanSubdir
                 (fun subdir =>
                    FindRecursiveMatches subdir targetName (currentDepth + 1) cfg)
                 dir cfg)
              (foldl (scanEntry dir targetName currentDepth cfg) [] entries)
              entries
    end.
Proof.
  unfold FindRecursiveMatches.
  destruct (Z.ltb_spec (SearchDepth cfg) currentDepth) as [Hlt|Hge].
  - destruct (Z.to_nat _); [reflexivity|]. simpl.
    destruct (Z.ltb_spec (SearchDepth cfg) currentDepth); [reflexivity|lia].
  - replace (Z.to_nat (SearchDepth cfg - currentDepth + 1))
      with (S (Z.to_nat (SearchDepth cfg - (currentDepth + 1) + 1))) by lia.
    simpl.
    destruct (Z.ltb_spec (SearchDepth cfg) currentDepth); [lia|]. reflexivity.
Qed.

(** C8. Every candidate [FindRecursiveMatches] produces with score 0 is
    classified "exact"; a candidate classified "substring" or "fuzzy" has a
    strictly positive score. *)
Theorem FindRecursiveMatches_score_class (dir targetName : string)
    (currentDepth : Z) (cfg : Config) (m : FuzzyMatch) :
  In m (FindRecursiveMatches dir targetName currentDepth cfg) ->
  (Score m = 0 -> MatchType m = "exact"%string) /\
  (MatchType m = "substring"%string \/ MatchType m = "fuzzy"%string ->
   0 < Score m).
Proof.
  intros Hin.
  pose proof (FindRecursiveMatches_at_classified
                (Z.to_nat (SearchDepth cfg - currentDepth + 1))
                dir targetName currentDepth cfg) as Hall.
  rewrite Forall_forall in Hall.
  apply list_elem_of_In in Hin.
  destruct (Hall m Hin) as [[Ht Hs]|[[Ht Hs]|[Ht Hs]]]; split; intros H1;
    try lia; try exact Ht;
    destruct H1 as [H1|H1]; rewrite Ht in H1; discriminate.
Qed.

End Candidates.

Lemma FindRecursiveMatches_score_class_witness :
  let m := {| Path := "src/main.go"; Name := "main.go"; Score := 4;
              IsDir := false; Depth := 1; MatchType := "fuzzy" |} in
  In m (FindRecursiveMatches (E := testEnv) "." "mian.go" 0 testConfig) /\
  (Score m = 0 -> MatchType m = "exact"%string) /\
  (MatchType m = "substring"%string \/ MatchType m = "fuzzy"%string ->
   0 < Score m).
Proof.
  intros m.
  assert (Hin : In m (FindRecursiveMatches (E := testEnv) "." "mian.go" 0
                        testConfig)).
  { vm_compute. left. reflexivity. }
  split; [exact Hin|].
  exact (FindRecursiveMatches_score_class (E := testEnv) "." "mian.go" 0
           testConfig m Hin).
Defined.

(** ** Ranking *)

Lemma ranked_keyLe (a b : FuzzyMatch) :
  ranked a b <-> keyLe (rankKey a) (rankKey b).
Proof.
  unfold ranked, less, keyLe, rankKey. simpl.
  destruct (Z.eqb_spec (Score b) (Score a)); simpl.
  - destruct (Z.ltb_spec (Depth b) (Depth a)); split; intros Hr;
      try lia; try reflexivity; discriminate.
  - destruct (Z.ltb_spec (Score b) (Score a)); split; intros Hr;
      try lia; try reflexivity; discriminate.
Qed.

Lemma less_ranked (a b : FuzzyMatch) : less a b = true -> ranked a b.
Proof.
  unfold ranked, less. intros Hlt.
  destruct (Z.eqb_spec (Score a) (Score b)), (Z.eqb_spec (Score b) (Score a));
    simpl in *; try lia; apply Z.ltb_lt in Hlt; apply Z.ltb_ge; lia.
Qed.

#[local] Instance keyLe_trans : Transitive keyLe.
Proof. intros [a1 a2] [b1 b2] [c1 c2]. unfold keyLe. simpl. lia. Qed.

#[local] Instance keyLe_antisymm : AntiSymm (=) keyLe.
Proof.
  intros [a1 a2] [b1 b2]. unfold keyLe. simpl. intros H1 H2.
  f_equal; lia.
Qed.

#[local] Instance ranked_trans : Transitive ranked.
Proof.
  intros a b c. rewrite !ranked_keyLe. apply keyLe_trans.
Qed.

Lemma ranked_both_key (a b : FuzzyMatch) :
  ranked a b -> ranked b a -> rankKey a = rankKey b.
Proof. rewrite !ranked_keyLe. apply keyLe_antisymm. Qed.

Lemma NoDup_map_inj {A B : Type} (f : A -> B) (l : list A) (x y : A) :
  NoDup (map f l) -> In x l -> In y l -> f x = f y -> x = y.
Proof.
  induction l as [|a l IH]; simpl; [tauto|].
  rewrite NoDup_cons. intros [Hnotin Hnd] [->|Hx] [->|Hy] Hf; auto.
  - exfalso. apply Hnotin. rewrite Hf. apply list_elem_of_In, in_map, Hy.
  - exfalso. apply Hnotin. rewrite <- Hf. apply list_elem_of_In, in_map, Hx.
Qed.

(** C2 (as the code has it). For two reorderings of one candidate set,
    any two results of the sort carry the same sequence of (score, depth)
    keys; the results are the same sequence of candidates when no two
    candidates share both score and depth. *)
Theorem ranking_permutation_invariant (l1 l2 out1 out2 : list FuzzyMatch) :
  Permutation l1 l2 ->
  is_sort_of out1 l1 ->
  is_sort_of out2 l2 ->
  map rankKey out1 = map rankKey out2 /\
  (NoDup (map rankKey l1) -> out1 = out2).
Proof.
  intros Hperm [Hp1 Hs1] [Hp2 Hs2].
  assert (Hout : Permutation out1 out2).
  { rewrite Hp1, Hp2. exact Hperm. }
  split.
  - apply (Sorted_unique keyLe).
    + apply (Sorted_fmap rankKey ranked keyLe); [|exact Hs1].
      intros x y. apply ranked_keyLe.
    + apply (Sorted_fmap rankKey ranked keyLe); [|exact Hs2].
      intros x y. apply ranked_keyLe.
    + apply Permutation_map, Hout.
  - intros Hnd. apply (Sorted_unique_strong ranked); auto.
    intros x1 x2 Hx1 Hx2 H12 H21.
    apply (NoDup_map_inj rankKey l1); auto.
    + apply (Permutation_in _ Hp1), list_elem_of_In, Hx1.
    + apply (Permutation_in _ (Permutation_sym Hperm)),
        (Permutation_in _ Hp2), list_elem_of_In, Hx2.
    + apply ranked_both_key; assumption.
Qed.

Lemma ranking_permutation_invariant_witness :
  let l1 := [mianInSrc; mainInSrc; mainInRoot] in
  let l2 := [mainInSrc; mianInSrc; mainInRoot] in
  let out := [mainInRoot; mainInSrc; mianInSrc] in
  map rankKey (insertionSort l1) = map rankKey (insertionSort l2) /\
  insertionSort l1 = insertionSort l2.
Proof.
  intros l1 l2 out.
  assert (Hperm : Permutation l1 l2) by apply perm_swap.
  assert (Hsorted : Sorted ranked out).
  { repeat constructor. }
  assert (H1 : is_sort_of (insertionSort l1) l1).
  { split; [|exact Hsorted].
    change (Permutation [mainInRoot; mainInSrc; mianInSrc]
                        [mianInSrc; mainInSrc; mainInRoot]).
    apply (Permutation_rev [mainInRoot; mainInSrc; mianInSrc]). }
  assert (H2 : is_sort_of (insertionSort l2) l2).
  { split; [|exact Hsorted].
    change (Permutation [mainInRoot; mainInSrc; mianInSrc]
                        [mainInSrc; mianInSrc; mainInRoot]).
    eapply perm_trans; [apply (Permutation_rev [mainInRoot; mainInSrc; mianInSrc])|].
    apply perm_swap. }
  destruct (ranking_permutation_invariant l1 l2 _ _ Hperm H1 H2) as [Hk Heq].
  split; [exact Hk|]. apply Heq.
  repeat constructor; vm_compute; intros Hin; inversion Hin; subst;
    repeat match goal with
           | H : _ ∈ _ :: _ |- _ => inversion H; clear H; subst
           | H : _ ∈ [] |- _ => inversion H
           end.
Defined.

(** C2 as stated fails: the sort leaves candidates that tie on score and
    depth in an order that depends on the order they arrived in. *)
Lemma ranking_depends_on_input_order :
  ~ (forall l1 l2 : list FuzzyMatch,
       Permutation l1 l2 -> insertionSort l1 = insertionSort l2).
Proof.
  intros H.
  specialize (H [mainInSrc; mainInLib] [mainInLib; mainInSrc]
                (perm_swap _ _ _)).
  vm_compute in H. discriminate H.
Qed.

(** *** The insertion sort sorts *)

Lemma swap_adjacent {A : Type} (pre : list A) (x y : A) (post : list A) :
  swap (pre ++ y :: x :: post) (S (length pre)) (length pre) =
  pre ++ x :: y :: post.
Proof.
  unfold swap.
  rewrite (lookup_app_r pre) by lia.
  replace (S (length pre) - length pre)%nat with 1%nat by lia.
  rewrite (lookup_app_r pre) by lia.
  rewrite Nat.sub_diag. simpl lookup. cbv beta iota.
  rewrite (insert_app_r_alt pre) by lia.
  replace (S (length pre) - length pre)%nat with 1%nat by lia.
  rewrite (insert_app_r_alt pre) by lia.
  rewrite Nat.sub_diag. reflexivity.
Qed.

Lemma siftDown_split (pre : list FuzzyMatch) (x : FuzzyMatch)
    (post : list FuzzyMatch) :
  exists pre1 pre2,
    pre = pre1 ++ pre2 /\
    siftDown less (length pre) (pre ++ x :: post) = pre1 ++ x :: pre2 ++ post /\
    Forall (fun y => less x y = true) pre2 /\
    (forall pre1' y, pre1 = pre1' ++ [y] -> less x y = false).
Proof.
  revert post. induction pre as [|y pre IH] using rev_ind; intros post.
  - exists [], []. repeat split; auto.
    intros pre1' y Heq. destruct pre1'; discriminate Heq.
  - rewrite length_app, Nat.add_1_r. simpl siftDown.
    rewrite <- app_assoc. simpl app.
    rewrite (lookup_app_r pre) by lia.
    replace (S (length pre) - length pre)%nat with 1%nat by lia.
    rewrite (lookup_app_r pre) by lia.
    rewrite Nat.sub_diag. simpl lookup. cbv beta iota.
    destruct (less x y) eqn:Hlt.
    + rewrite swap_adjacent.
      destruct (IH (y :: post)) as (p1 & p2 & Hpre & Hsift & Hall & Hstop).
      exists p1, (p2 ++ [y]). repeat split.
      * rewrite Hpre, app_assoc. reflexivity.
      * rewrite Hsift, <- app_assoc. reflexivity.
      * apply Forall_app. split; [exact Hall|]. repeat constructor. exact Hlt.
      * exact Hstop.
    + exists (pre ++ [y]), []. repeat split.
      * rewrite app_nil_r. reflexivity.
      * rewrite <- app_assoc. reflexivity.
      * constructor.
      * intros pre1' y' Heq. apply app_inj_tail in Heq as [_ <-]. exact Hlt.
Qed.

Lemma siftDown_sorted (pre : list FuzzyMatch) (x : FuzzyMatch)
    (post : list FuzzyMatch) :
  StronglySorted ranked pre ->
  exists sorted,
    siftDown less (length pre) (pre ++ x :: post) = sorted ++ post /\
    Permutation sorted (pre ++ [x]) /\
    StronglySorted ranked sorted.
Proof.
  intros Hs.
  destruct (siftDown_split pre x post) as (p1 & p2 & -> & Hsift & Hall & Hstop).
  exists (p1 ++ x :: p2). repeat split.
  - rewrite Hsift, <- app_assoc. reflexivity.
  - rewrite <- app_assoc. apply Permutation_app_head.
    apply Permutation_cons_append.
  - apply StronglySorted_app in Hs as (Hcross & Hs1 & Hs2).
    apply StronglySorted_app_2.
    + intros a b Ha Hb.
      assert (Hax : ranked a x).
      { destruct p1 as [|z p1' _] using rev_ind; [inversion Ha|].
        pose proof (Hstop p1' z eq_refl) as Hzx.
        apply elem_of_app in Ha as [Ha|Ha].
        - transitivity z; [|exact Hzx].
          apply (StronglySorted_app_1_elem_of ranked p1' [z]); auto.
          constructor.
        - apply list_elem_of_singleton in Ha as ->. exact Hzx. }
      apply elem_of_cons in Hb as [->|Hb]; [exact Hax|].
      apply Hcross; assumption.
    + exact Hs1.
    + constructor; [exact Hs2|].
      eapply Forall_impl; [exact Hall|]. intros b. apply less_ranked.
Qed.

Lemma insertionSort_is_sort_of (l : list FuzzyMatch) :
  is_sort_of (insertionSort l) l.
Proof.
  unfold insertionSort.
  pose proof (for_range_ind
    (fun i (l' : list FuzzyMatch) =>
       length l' = length l /\ Permutation l' l /\
       StronglySorted ranked (take i l'))
    (fun i l' => siftDown less i l') (length l - 1) 1 l) as H.
  cbv beta in H. destruct H as (Hlen & Hperm & Hsorted).
  - repeat split; auto. destruct l as [|a [|b l]]; simpl; repeat constructor.
  - intros i l' Hi (Hlen & Hperm & Hsorted).
    destruct (lookup_lt_is_Some_2 l' i) as [x Hx]; [lia|].
    pose proof (take_drop_middle l' i x Hx) as Hmid.
    destruct (siftDown_sorted (take i l') x (drop (S i) l') Hsorted)
      as (sorted & Hsift & Hp & Hs).
    rewrite length_take, Nat.min_l, Hmid in Hsift by lia.
    assert (Hls : length sorted = S i).
    { rewrite (Permutation_length Hp), length_app, length_take. simpl. lia. }
    rewrite Hsift. repeat split.
    + rewrite length_app, Hls, length_drop. lia.
    + rewrite Hp, <- app_assoc. simpl. rewrite Hmid. exact Hperm.
    + rewrite take_app_length' by (symmetry; exact Hls). exact Hs.
  - split; [exact Hperm|].
    apply StronglySorted_Sorted.
    rewrite take_ge in Hsorted by lia. exact Hsorted.
Qed.

Lemma testEnv_sorts : sorts testEnv.
Proof. intros l. apply insertionSort_is_sort_of. Qed.

(** ** Auto-select *)

Section Selection.

Context {E : Env}.

Lemma readSelection_prompts (matches : list FuzzyMatch) (displayCount : Z)
    (lines : list string) (out : list Event) :
  exists after,
    stdout (readSelection matches displayCount lines out).2 =
    out ++ EvPrompt displayCount :: after.
Proof.
  revert out. induction lines as [|input lines IH]; intros out; simpl.
  - exists [EvReadError]. rewrite <- app_assoc. reflexivity.
  - assert (Hagain : exists after,
              stdout (readSelection matches displayCount lines
                        (((out ++ [EvPrompt displayCount]) ++ [EvReadLine input])
                         ++ [EvInvalidSelection])).2 =
              out ++ EvPrompt displayCount :: after).
    { destruct (IH (((out ++ [EvPrompt displayCount]) ++ [EvReadLine input])
                    ++ [EvInvalidSelection])) as [after Hafter].
      eexists. rewrite Hafter, <- !app_assoc. reflexivity. }
    destruct (fmt_Sscanf_d _) as [selection|]; [|exact Hagain].
    destruct (_ || _)%bool; [exact Hagain|].
    destruct (selection =? 0);
      [|destruct (matches !! _)];
      simpl; exists [EvReadLine input]; rewrite <- app_assoc; reflexivity.
Qed.

Lemma displayMatches_stdout (approximatePath : string) (matches : list FuzzyMatch)
    (displayCount : Z) (w : Console) :
  exists options,
    stdout (displayMatches approximatePath matches displayCount w) =
    stdout w ++ EvDidYouMean approximatePath :: options.
Proof.
  unfold displayMatches.
  pose proof (for_range_ind0
    (fun (_ : nat) (w' : Console) =>
       exists options,
         stdout w' = stdout w ++ EvDidYouMean approximatePath :: options)
    (fun i w =>
       match matches !! i with
       | Some m => emit (EvOption (Z.of_nat i + 1) m) w
       | None => w
       end)
    (Z.to_nat displayCount) (emit (EvDidYouMean approximatePath) w)) as H0.
  cbv beta in H0. destruct H0 as [options Hopt].
  - exists []. reflexivity.
  - intros i w' _ [options Hopt]. destruct (matches !! i); [|eauto].
    exists (options ++ [EvOption (Z.of_nat i + 1) f]). simpl.
    rewrite Hopt, <- app_assoc. reflexivity.
  - exists (options ++ [EvNoneOfThese]). simpl.
    rewrite Hopt, <- app_assoc. reflexivity.
Qed.

Lemma interactive_prompts (approximatePath : string) (matches : list FuzzyMatch)
    (displayCount : Z) (w : Console) :
  let w' := displayMatches approximatePath matches displayCount w in
  promptedSince w (readSelection matches displayCount (stdin w') (stdout w')).2.
Proof.
  intros w'.
  destruct (displayMatches_stdout approximatePath matches displayCount w)
    as [options Hopt].
  destruct (readSelection_prompts matches displayCount (stdin w') (stdout w'))
    as [after Hafter].
  exists (EvDidYouMean approximatePath :: options), displayCount, after.
  rewrite Hafter. subst w'. rewrite Hopt, <- app_assoc. reflexivity.
Qed.



End Selection.


(** ** The pipeline counters *)

Lemma sumZ_app (l1 l2 : list Z) : sumZ (l1 ++ l2) = sumZ l1 + sumZ l2.
Proof. unfold sumZ. induction l1 as [|x l1 IH]; simpl; lia. Qed.

Lemma sumZ_map_insert {A : Type} (f : A -> Z) (l : list A) (i : nat) (x y : A) :
  l !! i = Some x ->
  sumZ (map f (<[i := y]> l)) = sumZ (map f l) - f x + f y.
Proof.
  revert i. induction l as [|a l IH]; intros [|i] Hi; simpl in *; try discriminate.
  - injection Hi as ->. unfold sumZ. simpl. lia.
  - specialize (IH i Hi). unfold sumZ in *. simpl. lia.
Qed.

Lemma countBusy_insert (ws : list Worker) (w : nat) (x y : Worker) :
  ws !! w = Some x ->
  countBusy (<[w := y]> ws) =
  countBusy ws - (if isBusy x then 1 else 0) + (if isBusy y then 1 else 0).
Proof.
  intros Hw. unfold countBusy.
  apply (sumZ_map_insert (fun w => if isBusy w then 1 else 0) ws w x y Hw).
Qed.

Lemma countBusy_replicate (n : nat) : countBusy (replicate n WIdle) = 0.
Proof. induction n as [|n IH]; [reflexivity|]. unfold countBusy, sumZ in *. simpl. lia. Qed.

Lemma countBusy_exited (ws : list Worker) :
  forallb isExited ws = true -> countBusy ws = 0.
Proof.
  induction ws as [|w ws IH]; [reflexivity|]. simpl.
  intros Hall. apply andb_true_iff in Hall as [Hw Hws].
  specialize (IH Hws). destruct w; try discriminate.
  unfold countBusy, sumZ in *. simpl. lia.
Qed.

Ltac proj_simpl :=
  cbn [walker files workers fileCount taskPath taskState shared tasks
       ctx processed errors results] in *.

Section Pipeline.

Context {E : Env} (cfg : Config).

Lemma fire_live (race : SendRace) (s : Shared) :
  ctx (fire race s) = None ->
  ctx s = None /\ fire race s = s.
Proof.
  unfold fire. destruct (ctx s) eqn:Hc.
  - intros Hn. rewrite Hc in Hn. discriminate Hn.
  - destruct race; simpl; [auto|discriminate].
Qed.

Lemma countSingleFile_counts (path : string) (fileInfo : FileInfo)
    (race : SendRace) (s : Shared) :
  ctx (countSingleFile path fileInfo cfg race s) = ctx s /\
  processed (countSingleFile path fileInfo cfg race s)
  + errors (countSingleFile path fileInfo cfg race s) =
  processed s + errors s + 1.
Proof.
  unfold countSingleFile.
  destruct (ProcessSingleFile _ _ _ _ _ _) as [[err|] res]; simpl; split; lia || reflexivity.
Qed.

Lemma workerBody_counts (path : string) (race : SendRace) (s : Shared) :
  ctx (workerBody path cfg race s) = ctx s /\
  processed (workerBody path cfg race s) + errors (workerBody path cfg race s) =
  processed s + errors s + 1.
Proof.
  unfold workerBody. destruct (os_Stat path) as [err|fileInfo].
  - simpl. split; [reflexivity|lia].
  - apply countSingleFile_counts.
Qed.

Lemma startDirectory_ok (path : string) (fileInfo : FileInfo) :
  0 < Workers cfg ->
  os_Stat path = inr fileInfo -> fiIsDir fileInfo = true ->
  taskOk cfg {| taskPath := path; taskState := TDir (startDirectory path cfg) |} /\
  counted cfg path (TDir (startDirectory path cfg)) = 0.
Proof.
  intros Hw Hstat Hdir. unfold startDirectory.
  destruct (walkPlan path cfg) as [todo final] eqn:Hplan.
  unfold taskOk, walkerOk, counted. proj_simpl. rewrite Hplan.
  rewrite countBusy_replicate, length_replicate.
  split; [|simpl; lia].
  split; [eauto|]. split; [|split; [lia|]].
  - split; [reflexivity|]. exists []. split; reflexivity.
  - intros w Hx. apply lookup_replicate in Hx as [Hx _]. discriminate Hx.
Qed.

Lemma taskOk_dir (path : string) (d : DirRun) :
  (exists fileInfo, os_Stat path = inr fileInfo /\ fiIsDir fileInfo = true) ->
  walkerOk cfg path d ->
  (0 < length (workers d))%nat ->
  (forall w, workers d !! w = Some WExited ->
             files d = [] /\ isClosed (walker d) = true) ->
  taskOk cfg {| taskPath := path; taskState := TDir d |}.
Proof. unfold taskOk. simpl. auto. Qed.

Lemma exited_after_insert (ws : list Worker) (w w' : nat) (x : Worker) (P : Prop) :
  x <> WExited ->
  (forall w, ws !! w = Some WExited -> P) ->
  <[w := x]> ws !! w' = Some WExited -> P.
Proof.
  intros Hx Hex Hw'. destruct (decide (w = w')) as [->|Hne].
  - destruct (decide (w' < length ws)%nat) as [Hlt|Hge].
    + rewrite list_lookup_insert_eq in Hw' by exact Hlt. congruence.
    + rewrite list_insert_ge in Hw' by lia. eauto.
  - rewrite list_lookup_insert_ne in Hw' by exact Hne. eauto.
Qed.

(** One move of a directory task, the context being live afterwards: the
    task stays well-formed and the two counters grow by what [counted]
    grows. *)
Lemma stepDir_inv (a : TaskAction) (path : string) (d : DirRun) (s : Shared)
    (st' : TaskState) (s' : Shared) :
  taskOk cfg {| taskPath := path; taskState := TDir d |} ->
  stepDir cfg a d s = Some (st', s') ->
  ctx s' = None ->
  ctx s = None /\
  taskOk cfg {| taskPath := path; taskState := st' |} /\
  processed s' + errors s' - (processed s + errors s) =
  counted cfg path st' - counted cfg path (TDir d).
Proof.
  intros (Hstat & Hwalk & Hnw & Hex) Hstep Hctx.
  unfold walkerOk in Hwalk. cbn [taskPath taskState] in *.
  destruct a; unfold stepDir in Hstep.
  - (* TStart *)
    destruct (walker d) as [[|? ?] ?| | |]; discriminate Hstep.
  - (* TWalkPush *)
    destruct (walker d) as [[|p todo] final| | |] eqn:Hw; try discriminate Hstep.
    destruct (Z.of_nat (length (files d)) <? 100); [|discriminate Hstep].
    injection Hstep as <- <-.
    destruct Hwalk as (Hfinal & sent & Hsent & Hcount).
    split; [exact Hctx|]. split.
    + apply taskOk_dir; proj_simpl; [exact Hstat| |exact Hnw|].
      * unfold walkerOk. proj_simpl. split; [exact Hfinal|].
        exists (sent ++ [p]). rewrite <- app_assoc, length_app. simpl.
        split; [exact Hsent|lia].
      * intros w Hx. destruct (Hex w Hx) as [_ Hcl].
        discriminate Hcl.
    + unfold counted. proj_simpl. rewrite Hw, length_app. simpl. lia.
  - (* TWalkCancel *)
    destruct (walker d) as [[|p todo] final| | |]; try discriminate Hstep.
    destruct (ctx s) eqn:Hc; [|discriminate Hstep].
    injection Hstep as <- <-. congruence.
  - (* TWalkEnd *)
    destruct (walker d) as [[|p todo] final| | |] eqn:Hw; try discriminate Hstep.
    injection Hstep as <- <-.
    destruct Hwalk as (Hfinal & sent & Hsent & Hcount).
    split; [exact Hctx|]. split.
    + apply taskOk_dir; proj_simpl; [exact Hstat| |exact Hnw|].
      * unfold walkerOk. proj_simpl. split; [exact Hfinal|].
        rewrite Hsent, app_nil_r. exact Hcount.
      * intros w Hx. destruct (Hex w Hx) as [_ Hcl].
        discriminate Hcl.
    + unfold counted. proj_simpl. rewrite Hw. lia.
  - (* TClose *)
    destruct (walker d) as [[|p todo] final|err|err|] eqn:Hw; try discriminate Hstep.
    injection Hstep as <- <-.
    pose proof Hwalk as Hwalk'.
    split; [exact Hctx|]. split.
    + apply taskOk_dir; proj_simpl; [exact Hstat| |exact Hnw|].
      * unfold walkerOk. proj_simpl. exact Hwalk'.
      * intros w Hx. destruct (Hex w Hx) as [Hnil _]. auto.
    + unfold counted. proj_simpl. rewrite Hw. lia.
  - (* TAccount *)
    destruct (walker d) as [[|p todo] final|err|err|] eqn:Hw; try discriminate Hstep.
    injection Hstep as <- <-.
    destruct Hwalk as [Herr Hcount].
    pose proof Hcount as Hwalk'.
    assert (Hc : ctx s = None).
    { destruct (isCountedWalkError err); exact Hctx. }
    split; [exact Hc|]. split.
    + apply taskOk_dir; proj_simpl; [exact Hstat| |exact Hnw|].
      * unfold walkerOk. proj_simpl. exact Hwalk'.
      * intros w Hx. destruct (Hex w Hx) as [Hnil _]. auto.
    + unfold counted. proj_simpl. rewrite Hw, <- Herr.
      destruct (isCountedWalkError err); simpl; lia.
  - (* TTake *)
    assert (Hstep' :
      match workers d !! w, files d with
      | Some WIdle, p :: rest =>
          Some (TDir {| walker := walker d; files := rest;
                        workers := <[w := WBusy p]> (workers d);
                        fileCount := fileCount d |}, s)
      | _, _ => None
      end = Some (st', s')).
    { destruct (walker d) as [[|? ?] ?| | |]; exact Hstep. }
    clear Hstep.
    destruct (workers d !! w) as [[| |]|] eqn:Hwk; try discriminate Hstep'.
    destruct (files d) as [|p rest] eqn:Hfiles; [discriminate Hstep'|].
    injection Hstep' as <- <-.
    split; [exact Hctx|]. split.
    + apply taskOk_dir; proj_simpl; [exact Hstat| | |].
      * exact Hwalk.
      * rewrite length_insert. exact Hnw.
      * intros w'. apply exited_after_insert; [discriminate|].
        intros w0 Hx. destruct (Hex w0 Hx) as [Hnil _]. discriminate Hnil.
    + unfold counted. proj_simpl.
      rewrite (countBusy_insert _ _ _ _ Hwk), Hfiles. cbn [length isBusy]. lia.
  - (* TWork *)
    assert (Hstep' :
      match workers d !! w with
      | Some (WBusy p) =>
          Some (TDir (setWorker d w WIdle), fire race (workerBody p cfg race s))
      | _ => None
      end = Some (st', s')).
    { destruct (walker d) as [[|? ?] ?| | |]; exact Hstep. }
    clear Hstep.
    destruct (workers d !! w) as [[|p|]|] eqn:Hwk; try discriminate Hstep'.
    injection Hstep' as <- <-.
    apply fire_live in Hctx as [Hctx Hfire]. rewrite Hfire.
    destruct (workerBody_counts p race s) as [Hc Hsum].
    split; [congruence|]. split.
    + unfold setWorker. apply taskOk_dir; proj_simpl; [exact Hstat| | |].
      * exact Hwalk.
      * rewrite length_insert. exact Hnw.
      * intros w'. apply exited_after_insert; [discriminate|]. exact Hex.
    + unfold counted, setWorker. proj_simpl.
      rewrite (countBusy_insert _ _ _ _ Hwk). cbn [isBusy]. lia.
  - (* TExit *)
    assert (Hstep' :
      match workers d !! w, files d with
      | Some WIdle, [] =>
          if isClosed (walker d) then Some (TDir (setWorker d w WExited), s)
          else None
      | _, _ => None
      end = Some (st', s')).
    { destruct (walker d) as [[|? ?] ?| | |]; exact Hstep. }
    clear Hstep.
    destruct (workers d !! w) as [[| |]|] eqn:Hwk; try discriminate Hstep'.
    destruct (files d) as [|p rest] eqn:Hfiles; [|discriminate Hstep'].
    destruct (isClosed (walker d)) eqn:Hcl; [|discriminate Hstep'].
    injection Hstep' as <- <-.
    split; [exact Hctx|]. split.
    + unfold setWorker. apply taskOk_dir; proj_simpl; [exact Hstat| | |].
      * exact Hwalk.
      * rewrite length_insert. exact Hnw.
      * intros w' _. split; [exact Hfiles|exact Hcl].
    + unfold counted, setWorker. proj_simpl.
      rewrite (countBusy_insert _ _ _ _ Hwk). cbn [isBusy]. lia.
  - (* TJoin *)
    destruct (walker d) as [[|p todo] final|err|err|] eqn:Hw; try discriminate Hstep.
    destruct (forallb isExited (workers d)) eqn:Hall; [|discriminate Hstep].
    injection Hstep as <- <-.
    split; [exact Hctx|]. split; [exact I|].
    unfold counted. rewrite Hw, (countBusy_exited _ Hall).
    destruct (workers d) as [|w0 ws] eqn:Hws; [simpl in Hnw; lia|].
    simpl in Hall. apply andb_true_iff in Hall as [Hw0 _].
    destruct w0; try discriminate Hw0.
    destruct (Hex O eq_refl) as [Hnil _]. rewrite Hnil.
    destruct Hstat as (fileInfo & Hstat & Hdir).
    unfold expectedCount. rewrite Hstat, Hdir.
    destruct (walkPlan path cfg) as [sent final]. simpl in *. lia.
Qed.

Lemma expectedCount_split (path : string) :
  expectedCount cfg path =
  eligiblePlusSingle cfg path + accessFailure path + walkFailure cfg path.
Proof.
  unfold expectedCount, eligiblePlusSingle, accessFailure, walkFailure.
  destruct (os_Stat path) as [err|fileInfo]; [reflexivity|].
  destruct (fiIsDir fileInfo); [|reflexivity].
  destruct (walkPlan path cfg) as [sent final]. simpl. lia.
Qed.

Lemma stepTask_inv (a : TaskAction) (tk : Task) (s : Shared)
    (st' : TaskState) (s' : Shared) :
  0 < Workers cfg ->
  taskOk cfg tk ->
  stepTask cfg a (taskPath tk) (taskState tk) s = Some (st', s') ->
  ctx s' = None ->
  taskOk cfg {| taskPath := taskPath tk; taskState := st' |} /\
  processed s' + errors s' - (processed s + errors s) =
  counted cfg (taskPath tk) st' - counted cfg (taskPath tk) (taskState tk).
Proof.
  intros Hworkers Hok Hstep Hctx.
  destruct tk as [path st]. cbn [taskPath taskState] in *.
  destruct st as [|d|]; simpl in Hstep.
  - destruct a; try discriminate Hstep.
    destruct (os_Stat path) as [err|fileInfo] eqn:Hstat.
    + injection Hstep as <- <-. split; [exact I|].
      unfold counted, expectedCount. rewrite Hstat. simpl. lia.
    + destruct (fiIsDir fileInfo) eqn:Hdir; injection Hstep as <- <-.
      * destruct (startDirectory_ok path fileInfo Hworkers Hstat Hdir)
          as [Hok' Hzero].
        split; [exact Hok'|]. rewrite Hzero. simpl. lia.
      * apply fire_live in Hctx as [_ Hfire]. rewrite Hfire.
        destruct (countSingleFile_counts path fileInfo race s) as [_ Hsum].
        split; [exact I|].
        unfold counted, expectedCount. rewrite Hstat, Hdir. lia.
  - destruct (stepDir_inv a path d s st' s' Hok Hstep Hctx) as (_ & Hok' & Hsum).
    split; assumption.
  - destruct a; discriminate Hstep.
Qed.

Lemma stepDir_ctx (a : TaskAction) (d : DirRun) (s : Shared)
    (st' : TaskState) (s' : Shared) :
  stepDir cfg a d s = Some (st', s') -> ctx s' = None -> ctx s = None.
Proof.
  intros Hstep Hctx. unfold stepDir in Hstep.
  destruct a;
    destruct (walker d) as [[|? ?] ?|err|err|];
    repeat match type of Hstep with
           | (if ?c then _ else _) = _ => destruct c eqn:?
           | match ?x with _ => _ end = _ => destruct x eqn:?
           end;
    try discriminate Hstep; injection Hstep as <- <-;
    try congruence;
    try (apply fire_live in Hctx as [Hctx _]);
    match type of Hctx with
    | ctx (workerBody ?p _ ?race ?s) = None =>
        rewrite <- (proj1 (workerBody_counts p race s)); exact Hctx
    | context [if ?c then _ else _] => destruct c; exact Hctx
    end.
Qed.

Lemma step_ctx (a : Action) (r r' : Run) :
  step cfg a r = Some r' -> ctx (shared r') = None -> ctx (shared r) = None.
Proof.
  intros Hstep Hctx. destruct a as [e|t a]; simpl in Hstep.
  - destruct (ctx (shared r)); [discriminate Hstep|reflexivity].
  - destruct (tasks r !! t) as [[path st]|]; [|discriminate Hstep].
    cbn [taskPath taskState] in Hstep.
    destruct (stepTask cfg a path st (shared r)) as [[st' s']|] eqn:Htask;
      [|discriminate Hstep].
    injection Hstep as <-. cbn [shared] in Hctx.
    destruct st as [|d|]; simpl in Htask.
    + destruct a; try discriminate Htask.
      destruct (os_Stat path) as [err|fileInfo].
      * injection Htask as <- <-. exact Hctx.
      * destruct (fiIsDir fileInfo); injection Htask as <- <-; [exact Hctx|].
        apply fire_live in Hctx as [Hctx _].
        rewrite <- (proj1 (countSingleFile_counts path fileInfo race (shared r))).
        exact Hctx.
    + eapply stepDir_ctx; eauto.
    + destruct a; discriminate Htask.
Qed.

Lemma execute_ctx (sched : list Action) (r r' : Run) :
  execute cfg sched r = Some r' -> ctx (shared r') = None -> ctx (shared r) = None.
Proof.
  revert r. induction sched as [|a sched IH]; intros r Hrun Hctx; simpl in Hrun.
  - injection Hrun as <-. exact Hctx.
  - destruct (step cfg a r) as [r1|] eqn:Hstep; [|discriminate Hrun].
    eapply step_ctx; eauto.
Qed.

Lemma step_inv (a : Action) (r r' : Run) :
  0 < Workers cfg ->
  step cfg a r = Some r' ->
  ctx (shared r') = None ->
  Forall (taskOk cfg) (tasks r) ->
  processed (shared r) + errors (shared r) = totalCounted cfg (tasks r) ->
  Forall (taskOk cfg) (tasks r') /\
  processed (shared r') + errors (shared r') = totalCounted cfg (tasks r') /\
  map taskPath (tasks r') = map taskPath (tasks r).
Proof.
  intros Hworkers Hstep Hctx Hall Hsum.
  destruct a as [e|t a]; simpl in Hstep.
  - destruct (ctx (shared r)); [discriminate Hstep|].
    injection Hstep as <-. discriminate Hctx.
  - destruct (tasks r !! t) as [tk|] eqn:Htk; [|discriminate Hstep].
    destruct (stepTask cfg a (taskPath tk) (taskState tk) (shared r))
      as [[st' s']|] eqn:Htask; [|discriminate Hstep].
    injection Hstep as <-. cbn [shared tasks] in *.
    assert (Hok : taskOk cfg tk).
    { rewrite Forall_forall in Hall. apply Hall.
      apply list_elem_of_lookup. eauto. }
    destruct (stepTask_inv a tk (shared r) st' s' Hworkers Hok Htask Hctx)
      as [Hok' Hdelta].
    split; [|split].
    + apply Forall_insert; assumption.
    + unfold totalCounted in *.
      rewrite (sumZ_map_insert _ _ _ _ _ Htk). cbn [taskPath taskState]. lia.
    + apply list_eq. intros i. rewrite !list_lookup_fmap.
      destruct (decide (t = i)) as [->|Hne].
      * rewrite list_lookup_insert_eq by (eapply lookup_lt_Some; eauto).
        rewrite Htk. reflexivity.
      * rewrite list_lookup_insert_ne by exact Hne. reflexivity.
Qed.

Lemma execute_inv (sched : list Action) (r r' : Run) :
  0 < Workers cfg ->
  execute cfg sched r = Some r' ->
  ctx (shared r') = None ->
  Forall (taskOk cfg) (tasks r) ->
  processed (shared r) + errors (shared r) = totalCounted cfg (tasks r) ->
  processed (shared r') + errors (shared r') = totalCounted cfg (tasks r') /\
  map taskPath (tasks r') = map taskPath (tasks r).
Proof.
  intros Hworkers. revert r.
  induction sched as [|a sched IH]; intros r Hrun Hctx Hall Hsum; simpl in Hrun.
  - injection Hrun as <-. split; [exact Hsum|reflexivity].
  - destruct (step cfg a r) as [r1|] eqn:Hstep; [|discriminate Hrun].
    pose proof (execute_ctx sched r1 r' Hrun Hctx) as Hctx1.
    destruct (step_inv a r r1 Hworkers Hstep Hctx1 Hall Hsum)
      as (Hall1 & Hsum1 & Hpaths1).
    destruct (IH r1 Hrun Hctx Hall1 Hsum1) as [Hsum' Hpaths'].
    split; [exact Hsum'|]. rewrite Hpaths', Hpaths1. reflexivity.
Qed.

Lemma totalCounted_completed (tks : list Task) :
  forallb isDone tks = true ->
  totalCounted cfg tks = sumZ (map (expectedCount cfg) (map taskPath tks)).
Proof.
  unfold totalCounted, sumZ.
  induction tks as [|[path st] tks IH]; [reflexivity|]. simpl.
  intros Hall. apply andb_true_iff in Hall as [Hd Hall].
  rewrite (IH Hall). destruct st; try discriminate Hd. reflexivity.
Qed.

Lemma totalCounted_pending (paths : list string) :
  totalCounted cfg
    (map (fun p => {| taskPath := p; taskState := TPending |}) paths) = 0.
Proof.
  unfold totalCounted, sumZ.
  induction paths as [|p paths IH]; simpl; [reflexivity|lia].
Qed.

Lemma sumZ_map_add {A : Type} (f g : A -> Z) (l : list A) :
  sumZ (map (fun x => f x + g x) l) = sumZ (map f l) + sumZ (map g l).
Proof. unfold sumZ. induction l as [|x l IH]; simpl; lia. Qed.

(** C3 (as the code has it). After a completed run that was not cancelled,
    with at least one worker per directory, the processed count and the
    error count add up to the eligible file paths the walkers sent to the
    workers plus the direct single-file invocations, plus one for every
    top-level path that could not be accessed and one for every directory
    whose walk ended with an error. *)
Theorem pipeline_counters (paths : list string) (sched : list Action) (r : Run) :
  0 < Workers cfg ->
  execute cfg sched (initialRun paths) = Some r ->
  completed r = true ->
  ctx (shared r) = None ->
  processed (shared r) + errors (shared r) =
  sumZ (map (eligiblePlusSingle cfg) paths)
  + sumZ (map accessFailure paths)
  + sumZ (map (walkFailure cfg) paths).
Proof.
  intros Hworkers Hrun Hdone Hctx.
  destruct (execute_inv sched (initialRun paths) r Hworkers Hrun Hctx)
    as [Hsum Hpaths].
  - apply Forall_forall. intros tk Hin. simpl in Hin.
    apply list_elem_of_fmap in Hin as (p & -> & _). exact I.
  - simpl. symmetry. apply totalCounted_pending.
  - rewrite Hsum, (totalCounted_completed _ Hdone), Hpaths. simpl.
    rewrite (map_map (fun p => {| taskPath := p; taskState := TPending |})
                     taskPath).
    cbn [taskPath]. rewrite map_id.
    rewrite <- !sumZ_map_add. f_equal. apply map_ext. intros p.
    apply expectedCount_split.
Qed.

End Pipeline.

Lemma pipeline_counters_witness :
  exists r,
    execute (E := lockedEnv) oneWorkerConfig lockedSchedule
            (initialRun ["proj"%string]) = Some r /\
    completed r = true /\ ctx (shared r) = None /\
    processed (shared r) = 1 /\ errors (shared r) = 1 /\
    processed (shared r) + errors (shared r) = 1 + 0 + 1.
Proof.
  eexists. split; [vm_compute; reflexivity|].
  split; [reflexivity|]. split; [reflexivity|].
  split; [reflexivity|]. split; [reflexivity|].
  refine (pipeline_counters (E := lockedEnv) oneWorkerConfig ["proj"%string]
            lockedSchedule _ _ _ _ _).
  - reflexivity.
  - vm_compute. reflexivity.
  - reflexivity.
  - reflexivity.
Defined.

(** C3 as stated fails: a walk that ends with an error adds one to the
    error count, over and above the paths it sent to the workers. *)
Lemma pipeline_counters_walk_error :
  ~ (forall (sched : list Action) (r : Run),
       execute (E := lockedEnv) oneWorkerConfig sched
               (initialRun ["proj"%string]) = Some r ->
       completed r = true ->
       ctx (shared r) = None ->
       processed (shared r) + errors (shared r) =
       sumZ (map (eligiblePlusSingle (E := lockedEnv) oneWorkerConfig)
                 ["proj"%string])).
Proof.
  intros Hclaim.
  specialize (Hclaim lockedSchedule _ eq_refl eq_refl eq_refl).
  vm_compute in Hclaim. discriminate Hclaim.
Qed.

(** ** Cancellation in a worker *)

Lemma workerBody_cancelled {E : Env} (path : string) (cfg : Config)
    (race : SendRace) (s : Shared) (fileInfo : FileInfo) (e : ctxErr) :
  os_Stat path = inr fileInfo ->
  fiSize fileInfo <= MaxFileSize cfg ->
  mapGet BinaryExts (strings_ToLower (filepath_Ext path)) = false ->
  ctx s = Some e ->
  ProcessSingleFile (ctx s) path fileInfo cfg race (results s) =
    (Some (ErrCtx e), results s) /\
  workerBody path cfg race s = addError s.
Proof.
  intros Hstat Hsize Hext Hctx.
  assert (Hsingle : ProcessSingleFile (ctx s) path fileInfo cfg race (results s)
                    = (Some (ErrCtx e), results s)).
  { unfold ProcessSingleFile.
    destruct (Z.ltb_spec (MaxFileSize cfg) (fiSize fileInfo)); [lia|].
    rewrite Hext, Hctx. reflexivity. }
  split; [exact Hsingle|].
  unfold workerBody, countSingleFile. rewrite Hstat, Hsingle.
  destruct s; reflexivity.
Qed.

(** The walker exempts [context.Canceled] from the error count; the error
    of an expired deadline is [context.DeadlineExceeded]. *)
Example isCountedWalkError_context :
  isCountedWalkError (Some (ErrCtx context_Canceled)) = false /\
  isCountedWalkError (Some (ErrCtx context_DeadlineExceeded)) = true.
Proof. split; reflexivity. Qed.

(** C1 (what the code does). On the test tree with one worker: the
    deadline fires while the worker holds [config.json], either before the
    worker's call of [ProcessSingleFile] looks at the context or while the
    record waits to be placed on the results channel.  In both runs no
    record is emitted and the file is not counted as processed, and the
    error counter is incremented: it stands at 1. *)
Theorem worker_counts_deadline_as_error :
  option_map shared
    (execute (E := testEnv) oneWorkerConfig deadlineSchedule
             (initialRun ["."%string])) =
  Some {| ctx := Some context_DeadlineExceeded; processed := 0; errors := 1;
          results := [] |} /\
  option_map shared
    (execute (E := testEnv) oneWorkerConfig lateDeadlineSchedule
             (initialRun ["."%string])) =
  Some {| ctx := Some context_DeadlineExceeded; processed := 0; errors := 1;
          results := [] |}.
Proof. split; vm_compute; reflexivity. Qed.

(** ** Every run can complete *)

Section Completion.

Context {E : Env} (cfg : Config).

Lemma runTask_app (path : string) (acts1 acts2 : list TaskAction)
    (st : TaskState) (s : Shared) :
  runTask cfg path (acts1 ++ acts2) st s =
  match runTask cfg path acts1 st s with
  | None => None
  | Some (st', s') => runTask cfg path acts2 st' s'
  end.
Proof.
  revert st s. induction acts1 as [|a acts1 IH]; intros st s; simpl.
  - reflexivity.
  - destruct (stepTask cfg a path st s) as [[st' s']|]; [apply IH|reflexivity].
Qed.

Lemma fire_SendFirst (s : Shared) : fire SendFirst s = s.
Proof. unfold fire. destruct (ctx s); reflexivity. Qed.

Lemma workerBody_SendFirst_ctx (path : string) (s : Shared) :
  fire SendFirst (workerBody path cfg SendFirst s) = workerBody path cfg SendFirst s /\
  ctx (workerBody path cfg SendFirst s) = ctx s.
Proof. split; [apply fire_SendFirst|apply workerBody_counts]. Qed.

(** The first worker handles each path right after the walker sent it. *)
Lemma runTask_handle_all (path : string) (todo : list string)
    (final : option error) (ws : list Worker) (fc : Z) (s : Shared) :
  ws !! O = Some WIdle ->
  ctx s = None ->
  exists fc' s',
    runTask cfg path
      (concat (replicate (length todo) [TWalkPush; TTake 0; TWork 0 SendFirst]))
      (TDir {| walker := Walking todo final; files := []; workers := ws;
               fileCount := fc |}) s =
    Some (TDir {| walker := Walking [] final; files := []; workers := ws;
                  fileCount := fc' |}, s') /\
    ctx s' = None.
Proof.
  intros Hidle. revert fc s.
  induction todo as [|p todo IH]; intros fc s Hctx.
  - exists fc, s. split; [reflexivity|exact Hctx].
  - destruct (workerBody_SendFirst_ctx p s) as [Hfire Hc].
    destruct (IH (fc + 1) (workerBody p cfg SendFirst s)) as (fc' & s' & Hrun & Hctx');
      [congruence|].
    exists fc', s'. split; [|exact Hctx'].
    cbn [length replicate concat app runTask stepTask stepDir walker files
         workers fileCount].
    replace (Z.of_nat 0 <? 100) with true by reflexivity. cbv iota.
    cbn [stepTask stepDir walker files workers fileCount].
    rewrite Hidle. cbn [stepTask stepDir walker files workers fileCount].
    rewrite list_lookup_insert_eq by (eapply lookup_lt_Some; eauto).
    unfold setWorker. cbn [walker files workers fileCount].
    rewrite Hfire, list_insert_insert_eq, (list_insert_id ws O WIdle Hidle).
    exact Hrun.
Qed.

(** After [close(files)], with the channel drained, the workers leave. *)
Lemma runTask_exits (path : string) (exited idle : nat) (fc : Z) (s : Shared) :
  runTask cfg path (map TExit (seq exited idle))
    (TDir {| walker := Waiting; files := [];
             workers := replicate exited WExited ++ replicate idle WIdle;
             fileCount := fc |}) s =
  Some (TDir {| walker := Waiting; files := [];
                workers := replicate (exited + idle) WExited;
                fileCount := fc |}, s).
Proof.
  revert exited. induction idle as [|idle IH]; intros exited.
  - simpl. rewrite app_nil_r, Nat.add_0_r. reflexivity.
  - cbn [seq map runTask stepTask stepDir walker files workers fileCount].
    rewrite lookup_app_r by (rewrite length_replicate; lia).
    rewrite length_replicate, Nat.sub_diag. cbn [replicate lookup list_lookup].
    cbn [isClosed]. unfold setWorker. cbn [walker files workers fileCount].
    rewrite insert_app_r_alt by (rewrite length_replicate; lia).
    rewrite length_replicate, Nat.sub_diag. cbn [insert list_insert].
    replace (replicate exited WExited ++ WExited :: replicate idle WIdle)
      with (replicate (S exited) WExited ++ replicate idle WIdle).
    + replace (exited + S idle)%nat with (S exited + idle)%nat by lia. apply IH.
    + rewrite <- (Nat.add_1_r exited), replicate_add, <- app_assoc. reflexivity.
Qed.

Lemma forallb_isExited_replicate (n : nat) :
  forallb isExited (replicate n WExited) = true.
Proof. induction n as [|n IH]; [reflexivity|exact IH]. Qed.

Lemma runTask_sequentialTask (path : string) (s : Shared) :
  0 < Workers cfg ->
  ctx s = None ->
  exists s',
    runTask cfg path (sequentialTask cfg path) TPending s = Some (TDone, s') /\
    ctx s' = None.
Proof.
  intros Hworkers Hctx. unfold sequentialTask.
  destruct (os_Stat path) as [err|fileInfo] eqn:Hstat.
  - exists (addError s). simpl. rewrite Hstat. split; [reflexivity|exact Hctx].
  - destruct (fiIsDir fileInfo) eqn:Hdir.
    + unfold sequentialDir.
      cbn [runTask stepTask]. rewrite Hstat, Hdir. unfold startDirectory.
      destruct (walkPlan path cfg) as [todo final]. cbn [fst].
      destruct (runTask_handle_all path todo final
                  (replicate (Z.to_nat (Workers cfg)) WIdle) 0 s)
        as (fc' & s' & Hrun & Hctx'); [|exact Hctx|].
      { apply lookup_replicate. split; [reflexivity|lia]. }
      rewrite runTask_app, Hrun.
      cbn [app runTask stepTask stepDir walker files workers fileCount].
      pose proof (runTask_exits path 0 (Z.to_nat (Workers cfg)) fc'
                    (if isCountedWalkError final then addError s' else s'))
        as Hexits.
      cbn [replicate app Nat.add] in Hexits.
      rewrite runTask_app, Hexits.
      cbn [runTask stepTask stepDir walker files workers fileCount].
      rewrite forallb_isExited_replicate.
      eexists. split; [reflexivity|].
      destruct (isCountedWalkError final); exact Hctx'.
    + exists (countSingleFile path fileInfo cfg SendFirst s).
      simpl. rewrite Hstat, Hdir, fire_SendFirst.
      destruct (countSingleFile_counts cfg path fileInfo SendFirst s) as [Hc _].
      split; [reflexivity|congruence].
Qed.

Lemma execute_app (sched1 sched2 : list Action) (r : Run) :
  execute cfg (sched1 ++ sched2) r =
  match execute cfg sched1 r with
  | None => None
  | Some r' => execute cfg sched2 r'
  end.
Proof.
  revert r. induction sched1 as [|a sched1 IH]; intros r; simpl.
  - reflexivity.
  - destruct (step cfg a r); [apply IH|reflexivity].
Qed.

Lemma execute_task (t : nat) (path : string) (acts : list TaskAction)
    (st st' : TaskState) (s' : Shared) (r : Run) :
  tasks r !! t = Some {| taskPath := path; taskState := st |} ->
  runTask cfg path acts st (shared r) = Some (st', s') ->
  execute cfg (map (ATask t) acts) r =
  Some {| shared := s';
          tasks := <[t := {| taskPath := path; taskState := st' |}]> (tasks r) |}.
Proof.
  revert st r. induction acts as [|a acts IH]; intros st r Htk Hrun; simpl in *.
  - injection Hrun as <- <-. rewrite (list_insert_id _ _ _ Htk).
    destruct r; reflexivity.
  - rewrite Htk. cbn [taskPath taskState].
    destruct (stepTask cfg a path st (shared r)) as [[st1 s1]|]; [|discriminate Hrun].
    rewrite (IH st1
               {| shared := s1;
                  tasks := <[t := {| taskPath := path; taskState := st1 |}]>
                             (tasks r) |}
               (list_lookup_insert_eq _ _ _ (lookup_lt_Some _ _ _ Htk)) Hrun).
    cbn [shared tasks]. rewrite list_insert_insert_eq. reflexivity.
Qed.

Lemma sequentialSchedule_completes (paths : list string) (finished : list Task)
    (s : Shared) :
  0 < Workers cfg ->
  ctx s = None ->
  forallb isDone finished = true ->
  exists r,
    execute cfg (sequentialSchedule cfg (length finished) paths)
      {| shared := s;
         tasks := finished
                  ++ map (fun p => {| taskPath := p; taskState := TPending |}) paths |}
    = Some r /\
    completed r = true /\ ctx (shared r) = None.
Proof.
  intros Hworkers. revert finished s.
  induction paths as [|path paths IH]; intros finished s Hctx Hdone.
  - eexists. split; [reflexivity|]. split; [|exact Hctx].
    unfold completed. simpl. rewrite app_nil_r. exact Hdone.
  - destruct (runTask_sequentialTask path s Hworkers Hctx) as (s' & Hrun & Hctx').
    cbn [sequentialSchedule map]. rewrite execute_app.
    rewrite (execute_task (length finished) path _ TPending TDone s').
    + cbn [tasks]. rewrite insert_app_r_alt, Nat.sub_diag by lia.
      cbn [insert list_insert].
      destruct (IH (finished ++ [{| taskPath := path; taskState := TDone |}]) s')
        as (r & Hexec & Hcompleted & Hctxr); [exact Hctx'| |].
      { rewrite forallb_app, Hdone. reflexivity. }
      exists r. rewrite length_app, Nat.add_1_r, <- app_assoc in Hexec.
      split; [exact Hexec|]. split; assumption.
    + cbn [tasks]. rewrite lookup_app_r, Nat.sub_diag by lia. reflexivity.
    + exact Hrun.
Qed.

(** With at least one worker, every list of paths has a run that completes
    without the context being cancelled: the assumptions of the counter
    theorem can be met for every input. *)
Theorem pipeline_completes (paths : list string) :
  0 < Workers cfg ->
  exists r,
    execute cfg (sequentialSchedule cfg 0 paths) (initialRun paths) = Some r /\
    completed r = true /\ ctx (shared r) = None.
Proof.
  intros Hworkers.
  apply (sequentialSchedule_completes paths []
           {| ctx := None; processed := 0; errors := 0; results := [] |}
           Hworkers eq_refl eq_refl).
Qed.

End Completion.

(** Without workers a run completes with both counters at zero, whatever the
    walk has sent: this is why the counter theorem asks for a worker. *)
Example pipeline_counters_no_worker :
  exists r,
    execute (E := testEnv) noWorkerConfig noWorkerSchedule
            (initialRun ["."%string]) = Some r /\
    completed r = true /\ ctx (shared r) = None /\
    processed (shared r) + errors (shared r) = 0 /\
    sumZ (map (eligiblePlusSingle (E := testEnv) noWorkerConfig) ["."%string]) = 5.
Proof.
  eexists. split; [vm_compute; reflexivity|].
  split; [reflexivity|]. split; [reflexivity|].
  split; vm_compute; reflexivity.
Qed.

(** ** The nested calls of [FuzzyFindPath] *)

Section Fuel.

Context {E : Env} (cfg : Config).

Lemma FuzzyFindPath_fuel_mono (n m : nat) (approximatePath : string)
    (w : Console) (r : (string * bool) * Console) :
  (n <= m)%nat ->
  FuzzyFindPath n approximatePath cfg w = Some r ->
  FuzzyFindPath m approximatePath cfg w = Some r.
Proof.
  revert m approximatePath w r.
  induction n as [|n IH]; intros m approximatePath w r Hle Hrun;
    [discriminate Hrun|].
  destruct m as [|m]; [lia|].
  cbn [FuzzyFindPath] in *. unfold resolveDir in *.
  destruct (strings_Contains approximatePath "/"); [|exact Hrun].
  destruct (isNotExist _); [|exact Hrun].
  destruct (FuzzyFindPath n (filepath_Dir approximatePath) cfg w)
    as [[[resolvedDir found] w1]|] eqn:Hnested; [|discriminate Hrun].
  assert (Hnm : (n <= m)%nat) by lia.
  rewrite (IH m _ _ _ Hnm Hnested). exact Hrun.
Qed.

(** The recursion on a missing directory prefix ends as soon as the prefix
    is shorter than the path, as the result of [filepath.Dir] is for every
    path but the root. *)
Lemma FuzzyFindPath_returns (approximatePath : string) (w : Console) :
  (forall p, strings_Contains p "/" = true ->
             isNotExist (os_Stat (filepath_Dir p)) = true ->
             (String.length (filepath_Dir p) < String.length p)%nat) ->
  exists r,
    FuzzyFindPath (S (String.length approximatePath)) approximatePath cfg w
    = Some r.
Proof.
  intros Hdir. revert w.
  induction approximatePath as [approximatePath IH]
    using (induction_ltof1 _ String.length); unfold ltof in IH.
  intros w. cbn [FuzzyFindPath]. unfold resolveDir.
  destruct (strings_Contains approximatePath "/") eqn:Hsep; [|eauto].
  destruct (isNotExist _) eqn:Hmissing; [|eauto].
  pose proof (Hdir _ Hsep Hmissing) as Hshorter.
  destruct (IH _ Hshorter w) as [[[resolvedDir found] w1] Hnested].
  assert (Hfuel : (S (String.length (filepath_Dir approximatePath))
                   <= String.length approximatePath)%nat) by lia.
  rewrite (FuzzyFindPath_fuel_mono _ _ _ _ _ Hfuel Hnested).
  destruct (negb found); eauto.
Qed.

End Fuel.

(** A missing directory prefix is resolved by a nested call with its own
    candidates and its own selection: here the nested call for [dcs] prompts
    (best score 3, threshold 2) and the operator picks the first option;
    the selection for [readme.m] under [docs] is then automatic (score 2,
    threshold 2). *)
Example FuzzyFindPath_nested_prefix :
  FuzzyFindPath (E := testEnv) 2 "dcs/readme.m" testConfig
                {| stdin := ["1"%string]; stdout := [] |} =
  Some (("docs/readme.md"%string, true),
        {| stdin := [];
           stdout :=
             [EvDidYouMean "dcs";
              EvOption 1 {| Path := "docs"; Name := "docs"; Score := 3;
                            IsDir := true; Depth := 0; MatchType := "fuzzy" |};
              EvOption 2 {| Path := "src"; Name := "src"; Score := 5;
                            IsDir := true; Depth := 0; MatchType := "fuzzy" |};
              EvOption 3 {| Path := "test"; Name := "test"; Score := 5;
                            IsDir := true; Depth := 0; MatchType := "fuzzy" |};
              EvNoneOfThese; EvPrompt 3; EvReadLine "1";
              EvAutoSelected "dcs/readme.m" "docs/readme.md"] |}).
Proof. vm_compute. reflexivity. Qed.

(** The selection loop asks again after a malformed or out-of-range line. *)
Example FuzzyFindPath_reprompts :
  (FuzzyFindPath (E := testEnv) 1 "readme" testConfig
                 {| stdin := ["x"; "7"; "1"]%string; stdout := [] |}) =
  Some (("docs/readme.md"%string, true),
        {| stdin := [];
           stdout :=
             [EvDidYouMean "readme";
              EvOption 1 {| Path := "docs/readme.md"; Name := "readme.md";
                            Score := 4; IsDir := false; Depth := 1;
                            MatchType := "substring" |};
              EvNoneOfThese;
              EvPrompt 1; EvReadLine "x"; EvInvalidSelection;
              EvPrompt 1; EvReadLine "7"; EvInvalidSelection;
              EvPrompt 1; EvReadLine "1"] |}).
Proof. vm_compute. reflexivity. Qed.

(** The walk of the test tree sends the five files that pass the ignore
    check, in lexical order, and ends without an error. *)
Example walkPlan_testTree :
  walkPlan (E := testEnv) "." testConfig =
  (["config.json"; "configuration.yaml"; "docs/readme.md"; "src/main.go";
    "test/test_file.go"]%string, None).
Proof. vm_compute. reflexivity. Qed.

(** Two workers sharing the test tree: whatever the interleaving, five files
    are processed; here the second worker takes every other path. *)
Example execute_two_workers :
  option_map (fun r => (processed (shared r), errors (shared r), completed r))
    (execute (E := testEnv) testConfig
       [ATask 0 (TStart SendFirst);
        ATask 0 TWalkPush; ATask 0 TWalkPush; ATask 0 (TTake 0);
        ATask 0 (TTake 1); ATask 0 TWalkPush; ATask 0 (TWork 1 SendFirst);
        ATask 0 (TWork 0 SendFirst); ATask 0 TWalkPush; ATask 0 TWalkPush;
        ATask 0 TWalkEnd; ATask 0 (TTake 1); ATask 0 TClose;
        ATask 0 (TTake 0); ATask 0 (TWork 0 SendFirst); ATask 0 TAccount;
        ATask 0 (TTake 0); ATask 0 (TWork 1 SendFirst); ATask 0 (TExit 1);
        ATask 0 (TWork 0 SendFirst); ATask 0 (TExit 0); ATask 0 TJoin]
       (initialRun ["."%string])) =
  Some (5, 0, true).
Proof. vm_compute. reflexivity. Qed.

(** ** The head of the ranking *)

(** X5. When [sort.Slice] sorts, the first element of the ranking is a
    candidate that no other candidate beats on (score, depth). *)
Lemma sort_Slice_head_minimal {E : Env} (l : list FuzzyMatch)
    (bestMatch : FuzzyMatch) (rest : list FuzzyMatch) :
  sorts E ->
  sort_Slice l = bestMatch :: rest ->
  In bestMatch l /\ forall m, In m l -> keyLe (rankKey bestMatch) (rankKey m).
Proof.
  intros Hsorts Hhead. destruct (Hsorts l) as [Hperm Hsorted].
  rewrite Hhead in Hperm, Hsorted. split.
  - apply (Permutation_in _ Hperm). left. reflexivity.
  - intros m Hm. apply (Permutation_in _ (Permutation_sym Hperm)) in Hm.
    apply Sorted_StronglySorted in Hsorted; [|apply ranked_trans].
    apply StronglySorted_cons in Hsorted as [Hall _].
    destruct Hm as [<-|Hm].
    + unfold keyLe. lia.
    + apply ranked_keyLe. rewrite Forall_forall in Hall.
      apply Hall, list_elem_of_In, Hm.
Qed.

(** * Further properties of the code *)

(** ** utils *)

(** [Min] returns the least of its three arguments, and it is one of them. *)
Theorem Min_least (a b c : Z) :
  Min a b c <= a /\ Min a b c <= b /\ Min a b c <= c /\
  (Min a b c = a \/ Min a b c = b \/ Min a b c = c).
Proof.
  unfold Min.
  destruct (Z.ltb_spec a b), (Z.ltb_spec a c), (Z.ltb_spec b c); lia.
Qed.

Lemma edits_trans {A : Type} (n m : nat) (s t u : list A) :
  edits n s t -> edits m t u -> edits (n + m) s u.
Proof.
  induction 1 as [s|n s s' t H1 _ IH]; intros H2; [exact H2|].
  simpl. econstructor; [exact H1|]. apply IH, H2.
Qed.

Lemma edit1_length {A : Type} (s t : list A) :
  edit1 s t -> (length s <= S (length t) /\ length t <= S (length s))%nat.
Proof.
  intros [p c q|p c q|p c d q]; rewrite !length_app; simpl; lia.
Qed.

Lemma edits_length {A : Type} (n : nat) (s t : list A) :
  edits n s t -> (length s <= n + length t /\ length t <= n + length s)%nat.
Proof.
  induction 1 as [s|n s t u H1 _ IH]; [lia|].
  apply edit1_length in H1. lia.
Qed.

Lemma bytes_inj (a b : string) : bytes a = bytes b -> a = b.
Proof.
  intros Heq. unfold bytes in Heq.
  rewrite <- (string_of_list_ascii_of_string a),
          <- (string_of_list_ascii_of_string b), Heq.
  reflexivity.
Qed.

(** X1. The scorer separates strings: the distance is zero exactly for equal
    strings. *)
Theorem CalculateSimilarity_zero_iff (a b : string) :
  CalculateSimilarity a b = 0 <-> a = b.
Proof.
  rewrite CalculateSimilarity_lev. split.
  - intros Hzero. apply bytes_inj.
    pose proof (lev_edits (bytes a) (bytes b)) as Hed.
    replace (lev (bytes a) (bytes b)) with O in Hed by lia.
    inversion Hed. reflexivity.
  - intros ->. rewrite lev_refl. reflexivity.
Qed.

(** X2. The scorer satisfies the triangle inequality. *)
Theorem CalculateSimilarity_triangle (a b c : string) :
  CalculateSimilarity a c <= CalculateSimilarity a b + CalculateSimilarity b c.
Proof.
  rewrite !CalculateSimilarity_lev.
  pose proof (lev_lower _ _ _
                (edits_trans _ _ _ _ _ (lev_edits (bytes a) (bytes b))
                             (lev_edits (bytes b) (bytes c)))).
  lia.
Qed.

(** X3. Two strings are at least as far apart as their lengths differ. *)
Theorem CalculateSimilarity_length_gap (a b : string) :
  Z.abs (len a - len b) <= CalculateSimilarity a b.
Proof.
  rewrite CalculateSimilarity_lev. unfold len.
  pose proof (edits_length _ _ _ (lev_edits (bytes a) (bytes b))) as H.
  rewrite !bytes_length in H. lia.
Qed.

(** ** The comparison handed to sort.Slice *)

(** X4. [less] is a strict weak ordering, as [sort.Slice] requires of its
    comparison: irreflexive, transitive, and with a transitive
    incomparability (two candidates are incomparable exactly when they have
    the same score and the same depth). *)
Theorem less_strict_weak_order (a b c : FuzzyMatch) :
  less a a = false /\
  (less a b = true -> less b c = true -> less a c = true) /\
  (less a b = false -> less b a = false -> rankKey a = rankKey b) /\
  (rankKey a = rankKey b -> less a b = false /\ less b a = false).
Proof.
  unfold less, rankKey.
  destruct (Z.eqb_spec (Score a) (Score a)); [|congruence].
  destruct (Z.eqb_spec (Score a) (Score b)), (Z.eqb_spec (Score b) (Score c)),
    (Z.eqb_spec (Score a) (Score c)), (Z.eqb_spec (Score b) (Score a));
    cbn [negb]; rewrite ?Z.ltb_lt, ?Z.ltb_ge;
    repeat split; intros; try lia;
    try (apply Z.ltb_ge; lia); try (apply Z.ltb_lt; lia);
    try (f_equal; lia);
    try match goal with
        | Heq : (_, _) = (_, _) |- _ => injection Heq as ? ?; try lia;
                                       try (apply Z.ltb_ge; lia)
        end.
Qed.

(** ** Ignore policy *)

Lemma afterLastSlash_cases (path last : string) :
  (forall c, In c (bytes (afterLastSlash path last)) -> isSlash c = false) \/
  (afterLastSlash path last = last /\
   forall c, In c (bytes path) -> isSlash c = false).
Proof.
  revert last. induction path as [|c rest IH]; intros last; simpl.
  - right. split; [reflexivity|]. intros c [].
  - destruct (isSlash c) eqn:Hc.
    + left. destruct (IH rest) as [Hno|[-> Hno]]; exact Hno.
    + destruct (IH last) as [Hno|[Heq Hno]]; [left; exact Hno|].
      right. split; [exact Heq|].
      intros c' [<-|Hin]; [exact Hc|apply Hno, Hin].
Qed.

Lemma stripTrailingSlashes_noslash (s : string) :
  (forall c, In c (bytes s) -> isSlash c = false) ->
  stripTrailingSlashes s = s.
Proof.
  induction s as [|c rest IH]; intros Hno; simpl; [reflexivity|].
  rewrite (Hno c (or_introl eq_refl)). simpl.
  rewrite IH; [reflexivity|]. intros c' Hin. apply Hno. right. exact Hin.
Qed.

Lemma afterLastSlash_noslash (s last : string) :
  (forall c, In c (bytes s) -> isSlash c = false) ->
  afterLastSlash s last = last.
Proof.
  revert last. induction s as [|c rest IH]; intros last Hno; simpl; [reflexivity|].
  rewrite (Hno c (or_introl eq_refl)).
  apply IH. intros c' Hin. apply Hno. right. exact Hin.
Qed.

Lemma filepath_Base_noslash (s : string) :
  s <> EmptyString ->
  (forall c, In c (bytes s) -> isSlash c = false) ->
  filepath_Base s = s.
Proof.
  intros Hne Hno. unfold filepath_Base.
  destruct (String.eqb_spec s EmptyString) as [->|_]; [contradiction|].
  rewrite (stripTrailingSlashes_noslash s Hno), (afterLastSlash_noslash s s Hno).
  destruct (String.eqb_spec s EmptyString) as [->|_]; [contradiction|reflexivity].
Qed.

Lemma filepath_Base_idempotent (path : string) :
  filepath_Base (filepath_Base path) = filepath_Base path.
Proof.
  unfold filepath_Base at 2 3.
  destruct (String.eqb_spec path EmptyString) as [_|_]; [reflexivity|].
  set (p := stripTrailingSlashes path).
  destruct (String.eqb_spec (afterLastSlash p p) EmptyString) as [_|Hne];
    [reflexivity|].
  apply filepath_Base_noslash; [exact Hne|].
  destruct (afterLastSlash_cases p p) as [Hno|[Heq Hno]]; [exact Hno|].
  rewrite Heq. exact Hno.
Qed.

(** X6. [ShouldIgnore] looks at the last element of the path only: a name is
    matched, never a path. *)
Theorem ShouldIgnore_base_name (path : string) (isDir : bool) (cfg : Config) :
  ShouldIgnore path isDir cfg = ShouldIgnore (filepath_Base path) isDir cfg.
Proof. unfold ShouldIgnore. rewrite filepath_Base_idempotent. reflexivity. Qed.

Lemma string_length_append (s t : string) :
  String.length (s ++ t) = (String.length s + String.length t)%nat.
Proof. induction s as [|c s IH]; simpl; [reflexivity|]. rewrite IH. reflexivity. Qed.

Lemma substring_all (t : string) : String.substring 0 (String.length t) t = t.
Proof. induction t as [|c t IH]; simpl; [reflexivity|]. rewrite IH. reflexivity. Qed.

Lemma substring_append_r (pre t : string) :
  String.substring (String.length pre) (String.length t) (pre ++ t) = t.
Proof. induction pre as [|c pre IH]; simpl; [apply substring_all|exact IH]. Qed.

Lemma strings_HasSuffix_append (pre t : string) :
  strings_HasSuffix (pre ++ t) t = true.
Proof.
  unfold strings_HasSuffix, len. rewrite string_length_append.
  replace (String.length pre + String.length t - String.length t)%nat
    with (String.length pre) by lia.
  rewrite substring_append_r, String.eqb_refl, andb_true_r.
  apply Z.leb_le. lia.
Qed.

Lemma string_append_nil_r (s : string) : (s ++ "")%string = s.
Proof.
  induction s as [|a s IH]; [reflexivity|].
  change (String a s ++ "")%string with (String a (s ++ "")).
  rewrite IH. reflexivity.
Qed.

Lemma filepath_Ext_from_suffix (path ext : string) :
  (exists pre, path = (pre ++ filepath_Ext_from path ext)%string) \/
  filepath_Ext_from path ext = ext.
Proof.
  revert ext. induction path as [|c rest IH]; intros ext; simpl.
  - right. reflexivity.
  - destruct (isSlash c).
    + left. destruct (IH EmptyString) as [[pre Hpre]|Hempty].
      * exists (String c pre). apply (f_equal (String c)) in Hpre. exact Hpre.
      * rewrite Hempty. exists (String c rest).
        symmetry. apply string_append_nil_r.
    + destruct (isDot c).
      * left. destruct (IH (String c rest)) as [[pre Hpre]|Hwhole].
        -- exists (String c pre). apply (f_equal (String c)) in Hpre. exact Hpre.
        -- rewrite Hwhole. exists EmptyString. reflexivity.
      * destruct (IH ext) as [[pre Hpre]|Hsame]; [|right; exact Hsame].
        left. exists (String c pre). apply (f_equal (String c)) in Hpre. exact Hpre.
Qed.

Lemma strings_HasSuffix_Ext (name : string) :
  strings_HasSuffix name (filepath_Ext name) = true.
Proof.
  unfold filepath_Ext.
  destruct (filepath_Ext_from_suffix name EmptyString) as [[pre Hpre]|Hempty].
  - rewrite Hpre at 1. apply strings_HasSuffix_append.
  - rewrite Hempty.
    rewrite <- (string_append_nil_r name) at 1.
    apply strings_HasSuffix_append.
Qed.

Lemma mapGet_true_In (m : gmap string bool) (k : string) :
  mapGet m k = true -> In (k, true) (map_to_list m).
Proof.
  unfold mapGet. intros Hget.
  apply list_elem_of_In, elem_of_map_to_list.
  destruct (m !! k) as [[|]|]; try discriminate Hget. reflexivity.
Qed.

(** X7. For a file, the lookup of the extension in [IgnoreExts] adds nothing to
    the scan of the keys as suffixes: unless the override is set, a file is
    ignored exactly when its name is hidden (and hidden names are not
    searched) or its base name ends with one of the keys of [IgnoreExts]. *)
Theorem ShouldIgnore_file_suffix (path : string) (cfg : Config) :
  ShouldIgnore path false cfg =
  negb (NoIgnore cfg) &&
  ((negb (SearchHidden cfg) && (1 <? len (filepath_Base path))
    && Ascii.eqb (byteAt (filepath_Base path) 0) "."%char)
   || existsb (fun kv => strings_HasSuffix (filepath_Base path) kv.1)
              (map_to_list IgnoreExts)).
Proof.
  unfold ShouldIgnore. destruct (NoIgnore cfg); [reflexivity|]. cbn [negb andb].
  destruct (negb (SearchHidden cfg) && _ && _)%bool; [reflexivity|]. cbn [orb].
  set (name := filepath_Base path).
  destruct (mapGet IgnoreExts (filepath_Ext name)) eqn:Hext;
    [|destruct (existsb _ _); reflexivity].
  symmetry. apply existsb_exists.
  exists (filepath_Ext name, true). split; [|apply strings_HasSuffix_Ext].
  exact (mapGet_true_In IgnoreExts (filepath_Ext name) Hext).
Qed.

(** ** What the search records *)

Section Search.

Context {E : Env} (cfg : Config) (targetName : string).

Lemma scanEntry_acc (dir : string) (depth : Z) (acc : list FuzzyMatch)
    (entry : DirEntry) :
  scanEntry dir targetName depth cfg acc entry =
  acc ++ scanEntry dir targetName depth cfg [] entry.
Proof.
  unfold scanEntry.
  destruct (ShouldIgnore _ _ _); [rewrite app_nil_r; reflexivity|].
  destruct (String.eqb _ _); [reflexivity|].
  destruct (_ || _)%bool; [reflexivity|].
  destruct (_ <=? _); [reflexivity|rewrite app_nil_r; reflexivity].
Qed.

(** Every candidate of a search comes out of the scan of one entry, at a
    depth between the starting depth and the search depth. *)
Lemma FindRecursiveMatches_at_Forall (P : FuzzyMatch -> Prop) (depth0 : Z) :
  (forall dir depth entry m,
     depth0 <= depth <= SearchDepth cfg ->
     In m (scanEntry dir targetName depth cfg [] entry) -> P m) ->
  forall levels dir depth,
    depth0 <= depth ->
    Forall P (FindRecursiveMatches_at levels dir targetName depth cfg).
Proof.
  intros Hscan levels.
  induction levels as [|levels IH]; intros dir depth Hdepth; simpl.
  - constructor.
  - destruct (Z.ltb_spec (SearchDepth cfg) depth); [constructor|].
    destruct (os_ReadDir dir) as [entries|]; [|constructor].
    apply foldl_Forall.
    + intros acc entry Hacc. unfold scanSubdir.
      destruct (entryIsDir entry); [|exact Hacc].
      destruct (ShouldIgnore _ _ _); [exact Hacc|].
      apply Forall_app. split; [exact Hacc|]. apply IH. lia.
    + apply foldl_Forall; [|constructor].
      intros acc entry Hacc. rewrite scanEntry_acc.
      apply Forall_app. split; [exact Hacc|].
      apply Forall_forall. intros m Hm.
      apply (Hscan dir depth entry m); [lia|]. apply list_elem_of_In, Hm.
Qed.

Lemma FindRecursiveMatches_In (P : FuzzyMatch -> Prop) (dir : string)
    (currentDepth : Z) (m : FuzzyMatch) :
  (forall dir depth entry m,
     currentDepth <= depth <= SearchDepth cfg ->
     In m (scanEntry dir targetName depth cfg [] entry) -> P m) ->
  In m (FindRecursiveMatches dir targetName currentDepth cfg) -> P m.
Proof.
  intros Hscan Hin.
  pose proof (FindRecursiveMatches_at_Forall P currentDepth Hscan
                (Z.to_nat (SearchDepth cfg - currentDepth + 1)) dir
                currentDepth (Z.le_refl _)) as Hall.
  rewrite Forall_forall in Hall. apply Hall, list_elem_of_In, Hin.
Qed.

(** X8. The depth of every candidate lies between the depth the search started
    at and the configured search depth. *)
Theorem FindRecursiveMatches_depth (dir : string) (currentDepth : Z)
    (m : FuzzyMatch) :
  In m (FindRecursiveMatches dir targetName currentDepth cfg) ->
  currentDepth <= Depth m <= SearchDepth cfg.
Proof.
  intros Hm.
  apply (FindRecursiveMatches_In
           (fun m => currentDepth <= Depth m <= SearchDepth cfg)
           dir currentDepth m); [clear dir m Hm|exact Hm].
  intros dir depth entry m Hdepth Hin. unfold scanEntry in Hin.
  destruct (ShouldIgnore _ _ _); [destruct Hin|].
  destruct (String.eqb _ _); [destruct Hin as [<-|[]]; exact Hdepth|].
  destruct (_ || _)%bool; [destruct Hin as [<-|[]]; exact Hdepth|].
  destruct (_ <=? _); [destruct Hin as [<-|[]]; exact Hdepth|destruct Hin].
Qed.

(** X9. No candidate is an ignored path: the path of a candidate is its name
    joined to the directory it was found in, it passes the ignore check,
    and so does every candidate directory. *)
Theorem FindRecursiveMatches_not_ignored (dir : string) (currentDepth : Z)
    (m : FuzzyMatch) :
  In m (FindRecursiveMatches dir targetName currentDepth cfg) ->
  ShouldIgnore (Path m) (IsDir m) cfg = false /\
  exists parent, Path m = filepath_Join parent (Name m).
Proof.
  intros Hm.
  apply (FindRecursiveMatches_In
           (fun m => ShouldIgnore (Path m) (IsDir m) cfg = false /\
                     exists parent, Path m = filepath_Join parent (Name m))
           dir currentDepth m); [clear dir m Hm|exact Hm].
  intros dir depth entry m Hdepth Hin. unfold scanEntry in Hin.
  destruct (ShouldIgnore _ _ _) eqn:Hign; [destruct Hin|].
  destruct (String.eqb _ _);
    [destruct Hin as [<-|[]]; split; [exact Hign|exists dir; reflexivity]|].
  destruct (_ || _)%bool;
    [destruct Hin as [<-|[]]; split; [exact Hign|exists dir; reflexivity]|].
  destruct (_ <=? _); [|destruct Hin].
  destruct Hin as [<-|[]]; split; [exact Hign|exists dir; reflexivity].
Qed.

(** X10. Class and score of every candidate are the ones its name earns against
    the target: "exact" with score 0 for equal lowercase names, "substring"
    with score one plus the difference of the lengths when one lowercase
    name contains the other, "fuzzy" with the distance plus two otherwise,
    the distance then being within the threshold. *)
Theorem FindRecursiveMatches_scored_by_name (dir : string) (currentDepth : Z)
    (m : FuzzyMatch) :
  In m (FindRecursiveMatches dir targetName currentDepth cfg) ->
  scoredByName targetName m.
Proof.
  intros Hm.
  apply (FindRecursiveMatches_In (scoredByName targetName)
           dir currentDepth m); [clear dir m Hm|exact Hm].
  intros dir depth entry m Hdepth Hin. unfold scanEntry in Hin.
  unfold scoredByName.
  destruct (ShouldIgnore _ _ _); [destruct Hin|].
  destruct (String.eqb_spec (strings_ToLower (entryName entry))
                            (strings_ToLower targetName)) as [Heq|Hne].
  { destruct Hin as [<-|[]]. left. cbn. auto. }
  destruct (_ || _)%bool eqn:Hsub.
  { destruct Hin as [<-|[]]. right. left. cbn. auto. }
  destruct (Z.leb_spec (CalculateSimilarity (strings_ToLower (entryName entry))
                                            (strings_ToLower targetName))
                       (fuzzyThreshold targetName)); [|destruct Hin].
  destruct Hin as [<-|[]]. right. right. cbn. auto.
Qed.

End Search.

Lemma FindRecursiveMatches_depth_witness :
  In mainInSrcFuzzy (FindRecursiveMatches (E := testEnv) "." "mian.go" 0 testConfig) /\
  0 <= Depth mainInSrcFuzzy <= SearchDepth testConfig.
Proof.
  assert (Hin : In mainInSrcFuzzy
                   (FindRecursiveMatches (E := testEnv) "." "mian.go" 0 testConfig)).
  { vm_compute. left. reflexivity. }
  split; [exact Hin|].
  exact (FindRecursiveMatches_depth (E := testEnv) testConfig "mian.go" "." 0
           mainInSrcFuzzy Hin).
Defined.

Lemma FindRecursiveMatches_not_ignored_witness :
  In mainInSrcFuzzy (FindRecursiveMatches (E := testEnv) "." "mian.go" 0 testConfig) /\
  ShouldIgnore (Path mainInSrcFuzzy) (IsDir mainInSrcFuzzy) testConfig = false.
Proof.
  assert (Hin : In mainInSrcFuzzy
                   (FindRecursiveMatches (E := testEnv) "." "mian.go" 0 testConfig)).
  { vm_compute. left. reflexivity. }
  split; [exact Hin|].
  exact (proj1 (FindRecursiveMatches_not_ignored (E := testEnv) testConfig
                  "mian.go" "." 0 mainInSrcFuzzy Hin)).
Defined.

Lemma FindRecursiveMatches_scored_by_name_witness :
  In mainInSrcFuzzy (FindRecursiveMatches (E := testEnv) "." "mian.go" 0 testConfig) /\
  scoredByName (E := testEnv) "mian.go" mainInSrcFuzzy.
Proof.
  assert (Hin : In mainInSrcFuzzy
                   (FindRecursiveMatches (E := testEnv) "." "mian.go" 0 testConfig)).
  { vm_compute. left. reflexivity. }
  split; [exact Hin|].
  exact (FindRecursiveMatches_scored_by_name (E := testEnv) testConfig
           "mian.go" "." 0 mainInSrcFuzzy Hin).
Defined.

(** ** Ignored directories are never read *)

Lemma foldl_ext_in {A B : Type} (f g : A -> B -> A) (l : list B) (a : A) :
  (forall acc b, In b l -> f acc b = g acc b) ->
  foldl f a l = foldl g a l.
Proof.
  revert a. induction l as [|b l IH]; intros a Hfg; simpl; [reflexivity|].
  rewrite (Hfg a b (or_introl eq_refl)). apply IH.
  intros acc b' Hin. apply Hfg. right. exact Hin.
Qed.

(** X11. The search never reads a directory that fails the ignore check (other
    than the directory it is started on): its result is the same whatever
    [os.ReadDir] returns for such directories. *)
Theorem FindRecursiveMatches_skips_ignored (E : Env) (cfg : Config)
    (readDir1 readDir2 : string -> option (list DirEntry))
    (dir targetName : string) (currentDepth : Z) :
  (forall d, ShouldIgnore d true cfg = false -> readDir1 d = readDir2 d) ->
  readDir1 dir = readDir2 dir ->
  FindRecursiveMatches (E := withReadDir E readDir1) dir targetName currentDepth cfg =
  FindRecursiveMatches (E := withReadDir E readDir2) dir targetName currentDepth cfg.
Proof.
  intros Hsame. unfold FindRecursiveMatches.
  generalize (Z.to_nat (SearchDepth cfg - currentDepth + 1)) as levels.
  intros levels. revert dir currentDepth.
  induction levels as [|levels IH]; intros dir currentDepth Hdir;
    [reflexivity|].
  cbn [FindRecursiveMatches_at os_ReadDir withReadDir].
  destruct (SearchDepth cfg <? currentDepth); [reflexivity|].
  rewrite Hdir. destruct (readDir2 dir) as [entries|]; [|reflexivity].
  change (foldl (scanEntry (E := withReadDir E readDir1) dir targetName
                           currentDepth cfg) [] entries)
    with (foldl (scanEntry (E := withReadDir E readDir2) dir targetName
                           currentDepth cfg) [] entries).
  apply foldl_ext_in. intros acc entry _. unfold scanSubdir.
  destruct (entryIsDir entry); [|reflexivity].
  change (@filepath_Join (withReadDir E readDir1)) with (@filepath_Join E).
  change (@filepath_Join (withReadDir E readDir2)) with (@filepath_Join E).
  destruct (ShouldIgnore _ true cfg) eqn:Hign; [reflexivity|].
  rewrite (IH _ _ (Hsame _ Hign)). reflexivity.
Qed.

Lemma FindRecursiveMatches_skips_ignored_witness :
  FindRecursiveMatches (E := withReadDir testEnv testReadDir) "." "mian.go" 0
                       testConfig =
  FindRecursiveMatches (E := withReadDir testEnv testReadDirModules) "."
                       "mian.go" 0 testConfig.
Proof.
  apply (FindRecursiveMatches_skips_ignored testEnv testConfig testReadDir
           testReadDirModules "." "mian.go" 0).
  - intros d Hd. unfold testReadDirModules.
    destruct (String.eqb_spec d "node_modules") as [->|_]; [|reflexivity].
    vm_compute in Hd. discriminate Hd.
  - reflexivity.
Defined.

(** ** What FuzzyFindPath returns *)

Section Resolution.

Context {E : Env} (cfg : Config).

Lemma readSelection_result (matches : list FuzzyMatch) (displayCount : Z)
    (lines : list string) (out : list Event) (p : string) (found : bool)
    (w' : Console) :
  readSelection matches displayCount lines out = ((p, found), w') ->
  if found then
    exists i m, matches !! i = Some m /\ Path m = p /\ Z.of_nat i < displayCount
  else p = EmptyString.
Proof.
  revert out. induction lines as [|input lines IH]; intros out Hrun;
    simpl in Hrun.
  - injection Hrun as <- <- <-. reflexivity.
  - destruct (fmt_Sscanf_d _) as [selection|]; [|exact (IH _ Hrun)].
    destruct (Z.ltb_spec selection 0); [exact (IH _ Hrun)|].
    destruct (Z.ltb_spec displayCount selection); [exact (IH _ Hrun)|].
    cbn [orb] in Hrun.
    destruct (Z.eqb_spec selection 0).
    { injection Hrun as <- <- <-. reflexivity. }
    destruct (matches !! Z.to_nat (selection - 1)) as [m|] eqn:Hm;
      injection Hrun as <- <- <-; [|reflexivity].
    exists (Z.to_nat (selection - 1)), m. repeat split; auto. lia.
Qed.

Lemma selectMatch_result (approximatePath dir targetName : string)
    (w : Console) (p : string) (found : bool) (w' : Console) :
  sorts E ->
  selectMatch approximatePath dir targetName cfg w = ((p, found), w') ->
  if found then
    exists m, In m (FindRecursiveMatches dir targetName 0 cfg) /\ Path m = p
  else p = EmptyString.
Proof.
  intros Hsorts Hrun. unfold selectMatch in Hrun.
  destruct (Z.of_nat (length (FindRecursiveMatches dir targetName 0 cfg)) =? 0).
  { injection Hrun as <- <- <-. reflexivity. }
  destruct (Hsorts (FindRecursiveMatches dir targetName 0 cfg)) as [Hperm _].
  set (sorted := sort_Slice (FindRecursiveMatches dir targetName 0 cfg)) in *.
  assert (Hinteractive : forall dc lines out,
            readSelection sorted dc lines out = ((p, found), w') ->
            if found then
              exists m, In m (FindRecursiveMatches dir targetName 0 cfg) /\
                        Path m = p
            else p = EmptyString).
  { intros dc lines out Hsel.
    pose proof (readSelection_result _ _ _ _ _ _ _ Hsel) as Hres.
    destruct found; [|exact Hres].
    destruct Hres as (i & m & Hm & Hp & _). exists m. split; [|exact Hp].
    apply (Permutation_in _ Hperm), list_elem_of_In, list_elem_of_lookup.
    eauto. }
  destruct (AutoSelect cfg); [|exact (Hinteractive _ _ _ Hrun)].
  destruct sorted as [|bestMatch rest] eqn:Hsorted;
    [exact (Hinteractive _ _ _ Hrun)|].
  destruct (Score bestMatch <=? autoThreshold targetName);
    [|exact (Hinteractive _ _ _ Hrun)].
  injection Hrun as <- <- <-. exists bestMatch. split; [|reflexivity].
  apply (Permutation_in _ Hperm). left. reflexivity.
Qed.

(** X12. [FuzzyFindPath] never makes a path up: when it reports success the
    path is the path of a candidate the search found (for some directory
    and target name), and when it reports failure the path is empty. *)
Theorem FuzzyFindPath_returns_candidate (fuel : nat) (approximatePath : string)
    (w : Console) (p : string) (found : bool) (w' : Console) :
  sorts E ->
  FuzzyFindPath fuel approximatePath cfg w = Some ((p, found), w') ->
  if found then
    exists dir targetName m,
      In m (FindRecursiveMatches dir targetName 0 cfg) /\ Path m = p
  else p = EmptyString.
Proof.
  intros Hsorts Hrun. destruct fuel as [|fuel]; [discriminate Hrun|].
  cbn [FuzzyFindPath] in Hrun.
  destruct (resolveDir _ approximatePath w) as [[r|[[dir targetName] w1]]|] eqn:Hres;
    [| |discriminate Hrun].
  - injection Hrun as ->. unfold resolveDir in Hres.
    destruct (strings_Contains approximatePath "/"); [|discriminate Hres].
    destruct (isNotExist _); [|discriminate Hres].
    destruct (FuzzyFindPath fuel _ cfg w) as [[[resolvedDir found'] w1]|];
      [|discriminate Hres].
    destruct (negb found'); [|discriminate Hres].
    injection Hres as <- <- <-. reflexivity.
  - injection Hrun as Hrun.
    pose proof (selectMatch_result _ _ _ _ _ _ _ Hsorts Hrun) as Hsel.
    destruct found; [|exact Hsel].
    destruct Hsel as (m & Hin & Hp). eauto.
Qed.

(** X13. An empty candidate list ends the resolution at once: not found, one
    message, and nothing read from the input. *)
Theorem FuzzyFindPath_no_matches (fuel : nat) (approximatePath : string)
    (w : Console) (dir targetName : string) (w1 : Console) :
  resolveDir (fun d w => FuzzyFindPath fuel d cfg w) approximatePath w =
    Some (inr (dir, targetName, w1)) ->
  FindRecursiveMatches dir targetName 0 cfg = [] ->
  FuzzyFindPath (S fuel) approximatePath cfg w =
  Some ((EmptyString, false), emit (EvNoMatches targetName dir) w1).
Proof.
  intros Hres Hnone. cbn [FuzzyFindPath]. rewrite Hres.
  unfold selectMatch. rewrite Hnone. reflexivity.
Qed.

(** X14. Without auto-select every non-empty candidate list is put to the
    operator: the options are displayed and a selection is asked for. *)
Theorem FuzzyFindPath_without_auto_prompts (fuel : nat) (approximatePath : string)
    (w : Console) (dir targetName : string) (w1 : Console) :
  resolveDir (fun d w => FuzzyFindPath fuel d cfg w) approximatePath w =
    Some (inr (dir, targetName, w1)) ->
  AutoSelect cfg = false ->
  FindRecursiveMatches dir targetName 0 cfg <> [] ->
  exists r w2,
    FuzzyFindPath (S fuel) approximatePath cfg w = Some (r, w2) /\
    promptedSince w1 w2.
Proof.
  intros Hres Hauto Hne. cbn [FuzzyFindPath]. rewrite Hres. unfold selectMatch.
  destruct (Z.eqb_spec (Z.of_nat (length (FindRecursiveMatches dir targetName 0 cfg))) 0)
    as [Hlen|_].
  { destruct (FindRecursiveMatches dir targetName 0 cfg); [contradiction|].
    simpl in Hlen. lia. }
  rewrite Hauto.
  match goal with
  | |- context [Some ?res] => exists res.1, res.2
  end.
  split; [rewrite <- surjective_pairing; reflexivity|].
  apply interactive_prompts.
Qed.

(** X15. The selection loop skips every line that is not a number from 0 to
    [displayCount], and the first line that is one decides, whatever
    follows it: 0 declines, any other number returns the path of that
    option.  When no line qualifies the input runs out and nothing is
    selected. *)
Theorem readSelection_first_valid (matches : list FuzzyMatch) (displayCount : Z)
    (skipped : list string) (out : list Event) :
  Forall (fun input => parseSelection displayCount input = None) skipped ->
  (readSelection matches displayCount skipped out).1 = (EmptyString, false) /\
  forall input rest selection,
    parseSelection displayCount input = Some selection ->
    (readSelection matches displayCount (skipped ++ input :: rest) out).1 =
      (if selection =? 0 then (EmptyString, false)
       else match matches !! Z.to_nat (selection - 1) with
            | Some m => (Path m, true)
            | None => (EmptyString, false)
            end).
Proof.
  intros Hskipped. revert out.
  induction Hskipped as [|line skipped Hline _ IH]; intros out.
  - split; [reflexivity|]. intros input rest selection Hsel.
    unfold parseSelection in Hsel. simpl.
    destruct (fmt_Sscanf_d _) as [sel|]; [|discriminate Hsel].
    destruct ((sel <? 0) || (displayCount <? sel))%bool; [discriminate Hsel|].
    injection Hsel as ->.
    destruct (selection =? 0); [reflexivity|].
    destruct (matches !! _); reflexivity.
  - unfold parseSelection in Hline. simpl.
    destruct (fmt_Sscanf_d _) as [sel|]; [|apply IH].
    destruct ((sel <? 0) || (displayCount <? sel))%bool;
      [apply IH|discriminate Hline].
Qed.

End Resolution.

Lemma FuzzyFindPath_returns_candidate_witness :
  FuzzyFindPath (E := testEnv) 1 "main.g" testConfig emptyConsole =
    Some (("src/main.go"%string, true),
          {| stdin := []; stdout := [EvAutoSelected "main.g" "src/main.go"] |}) /\
  exists dir targetName m,
    In m (FindRecursiveMatches (E := testEnv) dir targetName 0 testConfig) /\
    Path m = "src/main.go"%string.
Proof.
  assert (Hrun : FuzzyFindPath (E := testEnv) 1 "main.g" testConfig emptyConsole =
    Some (("src/main.go"%string, true),
          {| stdin := []; stdout := [EvAutoSelected "main.g" "src/main.go"] |})).
  { vm_compute. reflexivity. }
  split; [exact Hrun|].
  exact (FuzzyFindPath_returns_candidate (E := testEnv) testConfig 1 "main.g"
           emptyConsole _ true _ testEnv_sorts Hrun).
Defined.

Lemma FuzzyFindPath_no_matches_witness :
  FuzzyFindPath (E := testEnv) 1 "zzzzzzzzzzzz" testConfig emptyConsole =
  Some ((EmptyString, false),
        {| stdin := []; stdout := [EvNoMatches "zzzzzzzzzzzz" "."] |}).
Proof.
  apply (FuzzyFindPath_no_matches (E := testEnv) testConfig 0 "zzzzzzzzzzzz"
           emptyConsole "." "zzzzzzzzzzzz" emptyConsole).
  - reflexivity.
  - vm_compute. reflexivity.
Defined.

Lemma FuzzyFindPath_without_auto_prompts_witness :
  exists r w2,
    FuzzyFindPath (E := testEnv) 1 "main.g" oneWorkerConfig emptyConsole
    = Some (r, w2) /\
    promptedSince emptyConsole w2.
Proof.
  apply (FuzzyFindPath_without_auto_prompts (E := testEnv) oneWorkerConfig 0
           "main.g" emptyConsole "." "main.g" emptyConsole).
  - reflexivity.
  - reflexivity.
  - vm_compute. discriminate.
Defined.

Lemma readSelection_first_valid_witness :
  (readSelection (E := testEnv) [mainInSrc; mainInLib] 2
                 ["x"; "7"; "2"; "1"]%string []).1
  = ("lib/main.go"%string, true).
Proof.
  refine (proj2 (readSelection_first_valid (E := testEnv) [mainInSrc; mainInLib]
                   2 ["x"; "7"]%string [] _) "2"%string ["1"%string] 2 _).
  - repeat constructor.
  - reflexivity.
Defined.

(** ** The shared state along a run *)

Section SharedState.

Context {E : Env} (cfg : Config).

(** Either the file goes through, one record is added and [processed]
    moves by one, or nothing is added and [errors] moves by one. *)
Lemma countSingleFile_cases (path : string) (fileInfo : FileInfo)
    (race : SendRace) (s : Shared) :
  (exists content,
     fiSize fileInfo <= MaxFileSize cfg /\
     mapGet BinaryExts (strings_ToLower (filepath_Ext path)) = false /\
     os_ReadFile path = inr content /\
     countSingleFile path fileInfo cfg race s =
     addProcessed
       (setResults (results s ++ [{| fcPath := path; fcContent := content |}]) s))
  \/ countSingleFile path fileInfo cfg race s = addError s.
Proof.
  unfold countSingleFile, ProcessSingleFile.
  destruct (Z.ltb_spec (MaxFileSize cfg) (fiSize fileInfo));
    [right; destruct s; reflexivity|].
  destruct (mapGet BinaryExts _) eqn:Hext; [right; destruct s; reflexivity|].
  destruct (ctx s); [right; destruct s; reflexivity|].
  destruct (os_ReadFile path) as [err|content] eqn:Hread;
    [right; destruct s; reflexivity|].
  destruct race; [|right; destruct s; reflexivity].
  left. exists content. auto.
Qed.

(** A property of the shared state that every write of the pipeline keeps
    is kept by every move. *)
Lemma step_shared (P : Shared -> Prop) (a : Action) (r r' : Run) :
  (forall s, P s -> P (addError s)) ->
  (forall s e, ctx s = None -> P s ->
     P {| ctx := Some e; processed := processed s; errors := errors s;
          results := results s |}) ->
  (forall path fileInfo race s,
     os_Stat path = inr fileInfo ->
     P s -> P (countSingleFile path fileInfo cfg race s)) ->
  step cfg a r = Some r' ->
  P (shared r) -> P (shared r').
Proof.
  intros Herr Hctx Hfile Hstep HP.
  assert (Hfire : forall race s, P s -> P (fire race s)).
  { intros race s Hs. unfold fire. destruct (ctx s) eqn:Hc; [exact Hs|].
    destruct race; [exact Hs|apply Hctx; assumption]. }
  assert (Hbody : forall path race s, P s -> P (workerBody path cfg race s)).
  { intros path race s Hs. unfold workerBody.
    destruct (os_Stat path) as [err|fileInfo] eqn:Hstat; [apply Herr, Hs|].
    apply Hfile; assumption. }
  destruct a as [e|t a]; simpl in Hstep.
  - destruct (ctx (shared r)) eqn:Hc; [discriminate Hstep|].
    injection Hstep as <-. apply Hctx; assumption.
  - destruct (tasks r !! t) as [[path st]|]; [|discriminate Hstep].
    cbn [taskPath taskState] in Hstep.
    destruct (stepTask cfg a path st (shared r)) as [[st' s']|] eqn:Htask;
      [|discriminate Hstep].
    injection Hstep as <-. cbn [shared].
    destruct st as [|d|]; simpl in Htask.
    + destruct a; try discriminate Htask.
      destruct (os_Stat path) as [err|fileInfo] eqn:Hstat.
      * injection Htask as <- <-. apply Herr, HP.
      * destruct (fiIsDir fileInfo); injection Htask as <- <-; [exact HP|].
        apply Hfire, Hfile; assumption.
    + unfold stepDir in Htask.
      destruct a;
        destruct (walker d) as [[|? ?] ?|err|err|];
        repeat match type of Htask with
               | (if ?c then _ else _) = _ => destruct c eqn:?
               | match ?x with _ => _ end = _ => destruct x eqn:?
               end;
        try discriminate Htask; injection Htask as <- <-;
        try exact HP; try (apply Hfire, Hbody, HP);
        match goal with
        | |- P (if ?c then _ else _) => destruct c; [apply Herr, HP|exact HP]
        end.
    + destruct a; discriminate Htask.
Qed.

Lemma execute_shared (P : Shared -> Prop) (sched : list Action) (r r' : Run) :
  (forall s, P s -> P (addError s)) ->
  (forall s e, ctx s = None -> P s ->
     P {| ctx := Some e; processed := processed s; errors := errors s;
          results := results s |}) ->
  (forall path fileInfo race s,
     os_Stat path = inr fileInfo ->
     P s -> P (countSingleFile path fileInfo cfg race s)) ->
  execute cfg sched r = Some r' ->
  P (shared r) -> P (shared r').
Proof.
  intros Herr Hctx Hfile. revert r.
  induction sched as [|a sched IH]; intros r Hrun HP; simpl in Hrun.
  - injection Hrun as <-. exact HP.
  - destruct (step cfg a r) as [r1|] eqn:Hstep; [|discriminate Hrun].
    apply (IH r1 Hrun). exact (step_shared P a r r1 Herr Hctx Hfile Hstep HP).
Qed.

(** X17. In every run, cancelled or not, the processed count is the number of
    records placed on the results channel. *)
Theorem processed_counts_records (paths : list string) (sched : list Action)
    (r : Run) :
  execute cfg sched (initialRun paths) = Some r ->
  processed (shared r) = Z.of_nat (length (results (shared r))).
Proof.
  intros Hrun.
  apply (execute_shared
           (fun s => processed s = Z.of_nat (length (results s)))
           sched (initialRun paths) r); auto.
  intros path fileInfo race s _ Hs.
  destruct (countSingleFile_cases path fileInfo race s)
    as [(content & _ & _ & _ & ->)| ->]; simpl; [|exact Hs].
  rewrite length_app. simpl. lia.
Qed.

(** X18. Along any run the two counters never decrease, the records already on
    the results channel stay as they are, in order, and a context that is
    done stays done with the same error. *)
Theorem shared_state_monotone (sched : list Action) (r r' : Run) :
  execute cfg sched r = Some r' ->
  processed (shared r) <= processed (shared r') /\
  errors (shared r) <= errors (shared r') /\
  (exists more, results (shared r') = results (shared r) ++ more) /\
  (forall e, ctx (shared r) = Some e -> ctx (shared r') = Some e).
Proof.
  intros Hrun.
  pose proof (execute_shared
           (fun s => processed (shared r) <= processed s /\
                     errors (shared r) <= errors s /\
                     (exists more, results s = results (shared r) ++ more) /\
                     (forall e, ctx (shared r) = Some e -> ctx s = Some e))
           sched r r') as Hmono.
  cbv beta in Hmono. apply Hmono; auto; clear Hmono.
  - intros s (Hp & He & Hr & Hc). simpl. repeat split; auto. lia.
  - intros s e Hnone (Hp & He & Hr & Hc). simpl. repeat split; auto.
    intros e0 He0. rewrite (Hc e0 He0) in Hnone. discriminate Hnone.
  - intros path fileInfo race s _ (Hp & He & (more & Hr) & Hc).
    destruct (countSingleFile_cases path fileInfo race s)
      as [(content & _ & _ & _ & ->)| ->]; simpl.
    + repeat split; try lia; auto.
      eexists. rewrite Hr, <- app_assoc. reflexivity.
    + repeat split; try lia; eauto.
  - repeat split; try lia; auto. exists []. rewrite app_nil_r. reflexivity.
Qed.

(** X19. Every record on the results channel is backed by the file system: its
    path could be accessed, the file was within the size limit, its
    extension is not a binary one and the content is what was read. *)
Theorem records_backed (paths : list string) (sched : list Action) (r : Run)
    (rec : FileContent) :
  execute cfg sched (initialRun paths) = Some r ->
  In rec (results (shared r)) ->
  recordBacked cfg rec.
Proof.
  intros Hrun.
  pose proof (execute_shared
           (fun s => forall rec, In rec (results s) -> recordBacked cfg rec)
           sched (initialRun paths) r) as Hinv.
  cbv beta in Hinv. apply Hinv; auto; clear Hinv.
  - intros path fileInfo race s Hstat Hs rec' Hin.
    destruct (countSingleFile_cases path fileInfo race s)
      as [(content & Hsize & Hext & Hread & Heq)| Heq];
      rewrite Heq in Hin; simpl in Hin; [|apply Hs, Hin].
    apply in_app_or in Hin as [Hin|[<-|[]]]; [apply Hs, Hin|].
    exists fileInfo. auto.
  - intros rec' [].
Qed.

End SharedState.

Lemma processed_counts_records_witness :
  exists r,
    execute (E := lockedEnv) oneWorkerConfig lockedSchedule
            (initialRun ["proj"%string]) = Some r /\
    processed (shared r) = Z.of_nat (length (results (shared r))).
Proof.
  eexists. split; [vm_compute; reflexivity|].
  refine (processed_counts_records (E := lockedEnv) oneWorkerConfig
            ["proj"%string] lockedSchedule _ _).
  vm_compute. reflexivity.
Defined.

Lemma shared_state_monotone_witness :
  exists r',
    execute (E := testEnv) oneWorkerConfig deadlineSchedule
            (initialRun ["."%string]) = Some r' /\
    0 <= processed (shared r') /\ 0 <= errors (shared r').
Proof.
  eexists. split; [vm_compute; reflexivity|].
  destruct (shared_state_monotone (E := testEnv) oneWorkerConfig
              deadlineSchedule (initialRun ["."%string]) _
              ltac:(vm_compute; reflexivity)) as (Hp & He & _).
  split; [exact Hp|exact He].
Defined.

Lemma records_backed_witness :
  recordBacked (E := lockedEnv) oneWorkerConfig
               {| fcPath := "proj/a.txt"; fcContent := "hello" |}.
Proof.
  refine (records_backed (E := lockedEnv) oneWorkerConfig ["proj"%string]
            lockedSchedule _ _ _ _).
  - vm_compute. reflexivity.
  - vm_compute. left. reflexivity.
Defined.

(** ** The directory walk *)

Lemma FsTree_nested_ind (P : FsTree -> Prop) :
  (forall name, P (FsFile name)) ->
  (forall name readErr entries,
     Forall P entries -> P (FsDir name readErr entries)) ->
  forall d, P d.
Proof.
  intros Hfile Hdir. fix IH 1. intros [name|name readErr entries].
  - apply Hfile.
  - apply Hdir.
    induction entries as [|d1 rest IHrest]; constructor;
      [apply IH|exact IHrest].
Qed.

Section Walk.

Context {E : Env} (cfg : Config).

Lemma walkDir_not_ignored (d : FsTree) :
  forall path p,
    In p (walkDir path d cfg).1 -> ShouldIgnore p false cfg = false.
Proof.
  induction d as [name|name readErr entries IH] using FsTree_nested_ind;
    intros path p Hin; simpl in Hin.
  - destruct (ShouldIgnore path false cfg) eqn:Hig; simpl in Hin;
      [destruct Hin|].
    destruct Hin as [<-|[]]. exact Hig.
  - destruct (ShouldIgnore path true cfg); [destruct Hin|].
    destruct readErr as [e|]; [destruct Hin|].
    induction IH as [|d1 rest Hd1 _ IHrest]; [destruct Hin|].
    destruct (walkDir (filepath_Join path (fsName d1)) d1 cfg)
      as [sent [e|]] eqn:Hwalk.
    + apply (Hd1 (filepath_Join path (fsName d1))). rewrite Hwalk. exact Hin.
    + match type of Hin with
      | In _ (let '(_, _) := ?x in _).1 => destruct x as [sent' r]
      end.
      simpl in Hin. apply in_app_or in Hin as [Hin|Hin].
      * apply (Hd1 (filepath_Join path (fsName d1))). rewrite Hwalk. exact Hin.
      * apply IHrest. exact Hin.
Qed.

(** X20. The walk of a directory sends no path that [ShouldIgnore] rejects as a
    file. *)
Theorem walkPlan_not_ignored (dirPath p : string) :
  In p (walkPlan dirPath cfg).1 -> ShouldIgnore p false cfg = false.
Proof.
  unfold walkPlan. destruct (os_WalkRoot dirPath) as [e|root]; [intros []|].
  apply walkDir_not_ignored.
Qed.

(** X21. With [NoIgnore] set the walk is the one of the first variant of the
    program, which has no ignore rules: the same paths are sent in the same
    order and the same error ends it. *)
Theorem walkDir_NoIgnore (d : FsTree) (path : string) :
  NoIgnore cfg = true -> walkDir path d cfg = walkDirSimple path d.
Proof.
  intros Hno. revert path.
  induction d as [name|name readErr entries IH] using FsTree_nested_ind;
    intros path; simpl; unfold ShouldIgnore; rewrite Hno.
  - reflexivity.
  - destruct readErr as [e|]; [reflexivity|].
    induction IH as [|d1 rest Hd1 _ IHrest]; [reflexivity|].
    rewrite Hd1, IHrest. reflexivity.
Qed.

(** *** Which files reach the results *)

Lemma countSingleFile_results (path : string) (fileInfo : FileInfo)
    (race : SendRace) (s : Shared) (rec : FileContent) :
  In rec (results (countSingleFile path fileInfo cfg race s)) ->
  In rec (results s) \/ fcPath rec = path.
Proof.
  destruct (countSingleFile_cases cfg path fileInfo race s)
    as [(content & _ & _ & _ & ->)| ->]; simpl; [|auto].
  intros Hin. apply in_app_or in Hin as [Hin|[<-|[]]]; auto.
Qed.

Lemma workerBody_results (path : string) (race : SendRace) (s : Shared)
    (rec : FileContent) :
  In rec (results (workerBody path cfg race s)) ->
  In rec (results s) \/ fcPath rec = path.
Proof.
  unfold workerBody. destruct (os_Stat path) as [err|fileInfo].
  - simpl. auto.
  - apply countSingleFile_results.
Qed.

Lemma fire_results (race : SendRace) (s : Shared) :
  results (fire race s) = results s.
Proof.
  unfold fire. destruct (ctx s); [reflexivity|]. destruct race; reflexivity.
Qed.

Lemma startDirectory_held (path : string) :
  heldOk cfg {| taskPath := path; taskState := TDir (startDirectory path cfg) |}.
Proof.
  unfold heldOk, startDirectory, walkPlan. cbn [taskState].
  destruct (os_WalkRoot path) as [e|root].
  - proj_simpl. split; [constructor|]. split; [constructor|].
    apply Forall_replicate. exact I.
  - pose proof (walkDir_not_ignored root path) as Hplan.
    destruct (walkDir path root cfg) as [todo final]. proj_simpl.
    split; [|split].
    + apply Forall_forall. intros p Hp. apply Hplan.
      apply list_elem_of_In. exact Hp.
    + constructor.
    + apply Forall_replicate. exact I.
Qed.

(** One move of a task: the paths it holds still pass the ignore rules,
    and a record that is new carries the path of the task itself or a path
    that passes them. *)
Lemma stepTask_held (a : TaskAction) (path : string) (st st' : TaskState)
    (s s' : Shared) :
  stepTask cfg a path st s = Some (st', s') ->
  heldOk cfg {| taskPath := path; taskState := st |} ->
  heldOk cfg {| taskPath := path; taskState := st' |} /\
  (forall rec, In rec (results s') ->
     In rec (results s) \/ fcPath rec = path \/ notIgnored cfg (fcPath rec)).
Proof.
  intros Hstep Hheld. destruct st as [|d|]; simpl in Hstep.
  - destruct a; try discriminate Hstep.
    destruct (os_Stat path) as [err|fileInfo].
    + injection Hstep as <- <-. split; [exact I|]. simpl. auto.
    + destruct (fiIsDir fileInfo); injection Hstep as <- <-.
      * split; [apply startDirectory_held|auto].
      * split; [exact I|]. intros rec Hin. rewrite fire_results in Hin.
        apply countSingleFile_results in Hin as [Hin|Hin]; auto.
  - unfold heldOk in Hheld. cbn [taskState] in Hheld.
    destruct Hheld as (Htodo & Hfiles & Hworkers).
    unfold stepDir in Hstep. destruct a.
    + destruct (walker d) as [[|? ?] ?| | |]; discriminate Hstep.
    + destruct (walker d) as [[|p todo] final| | |]; try discriminate Hstep.
      destruct (Z.of_nat (length (files d)) <? 100); [|discriminate Hstep].
      injection Hstep as <- <-. simpl in Htodo.
      apply Forall_cons in Htodo as [Hp Htodo].
      split; [|auto]. unfold heldOk. proj_simpl.
      split; [exact Htodo|]. split; [|exact Hworkers].
      apply Forall_app. split; [exact Hfiles|]. constructor; [exact Hp|constructor].
    + destruct (walker d) as [[|p todo] final| | |]; try discriminate Hstep.
      destruct (ctx s); [|discriminate Hstep].
      injection Hstep as <- <-. split; [|auto].
      unfold heldOk. proj_simpl. split; [constructor|]. auto.
    + destruct (walker d) as [[|p todo] final| | |]; try discriminate Hstep.
      injection Hstep as <- <-. split; [|auto].
      unfold heldOk. proj_simpl. split; [constructor|]. auto.
    + destruct (walker d) as [[|p todo] final|err|err|]; try discriminate Hstep.
      injection Hstep as <- <-. split; [|auto].
      unfold heldOk. proj_simpl. split; [constructor|]. auto.
    + destruct (walker d) as [[|p todo] final|err|err|]; try discriminate Hstep.
      injection Hstep as <- <-. split.
      * unfold heldOk. proj_simpl. split; [constructor|]. auto.
      * intros rec Hin. left.
        destruct (isCountedWalkError err); exact Hin.
    + destruct (workers d !! w) as [[|p0|]|] eqn:Hw; try discriminate Hstep.
      destruct (files d) as [|p rest]; [discriminate Hstep|].
      injection Hstep as <- <-. split; [|auto].
      apply Forall_cons in Hfiles as [Hp Hrest].
      unfold heldOk. proj_simpl. split; [exact Htodo|]. split; [exact Hrest|].
      apply Forall_insert; [exact Hworkers|exact Hp].
    + destruct (workers d !! w) as [[|p|]|] eqn:Hw; try discriminate Hstep.
      injection Hstep as <- <-.
      pose proof (Forall_lookup_1 _ _ _ _ Hworkers Hw) as Hp. simpl in Hp.
      split.
      * unfold heldOk, setWorker. proj_simpl.
        split; [exact Htodo|]. split; [exact Hfiles|].
        apply Forall_insert; [exact Hworkers|exact I].
      * intros rec Hin. rewrite fire_results in Hin.
        apply workerBody_results in Hin as [Hin| ->]; auto.
    + destruct (workers d !! w) as [[|p0|]|] eqn:Hw; try discriminate Hstep.
      destruct (files d) as [|p rest] eqn:Hf; [|discriminate Hstep].
      destruct (isClosed (walker d)); [|discriminate Hstep].
      injection Hstep as <- <-. split; [|auto].
      unfold heldOk, setWorker. proj_simpl.
      split; [exact Htodo|]. split; [rewrite Hf; constructor|].
      apply Forall_insert; [exact Hworkers|exact I].
    + destruct (walker d) as [[|p todo] final|err|err|]; try discriminate Hstep.
      destruct (forallb isExited (workers d)); [|discriminate Hstep].
      injection Hstep as <- <-. split; [exact I|auto].
  - destruct a; discriminate Hstep.
Qed.

Lemma step_held (paths : list string) (a : Action) (r r' : Run) :
  step cfg a r = Some r' ->
  Forall (fun tk => In (taskPath tk) paths /\ heldOk cfg tk) (tasks r) ->
  (forall rec, In rec (results (shared r)) ->
     In (fcPath rec) paths \/ notIgnored cfg (fcPath rec)) ->
  Forall (fun tk => In (taskPath tk) paths /\ heldOk cfg tk) (tasks r') /\
  (forall rec, In rec (results (shared r')) ->
     In (fcPath rec) paths \/ notIgnored cfg (fcPath rec)).
Proof.
  intros Hstep Htasks Hres. destruct a as [e|t a]; simpl in Hstep.
  - destruct (ctx (shared r)); [discriminate Hstep|].
    injection Hstep as <-. simpl. auto.
  - destruct (tasks r !! t) as [[path st]|] eqn:Ht; [|discriminate Hstep].
    cbn [taskPath taskState] in Hstep.
    destruct (stepTask cfg a path st (shared r)) as [[st' s']|] eqn:Htask;
      [|discriminate Hstep].
    injection Hstep as <-. cbn [shared tasks].
    pose proof (Forall_lookup_1 _ _ _ _ Htasks Ht) as [Hpath Hheld].
    cbn [taskPath] in Hpath.
    destruct (stepTask_held a path st st' (shared r) s' Htask Hheld)
      as [Hheld' Hnew].
    split.
    + apply Forall_insert; [exact Htasks|]. split; [exact Hpath|exact Hheld'].
    + intros rec Hin. destruct (Hnew rec Hin) as [Hold|[-> |Hok]]; auto.
Qed.

(** X22. A file reaches the results only if it was named on the command line
    (as a resolved path) or passes the ignore rules: the walk of a
    directory never hands an ignored file to the workers. *)
Theorem records_named_or_not_ignored (paths : list string)
    (sched : list Action) (r : Run) (rec : FileContent) :
  execute cfg sched (initialRun paths) = Some r ->
  In rec (results (shared r)) ->
  In (fcPath rec) paths \/ ShouldIgnore (fcPath rec) false cfg = false.
Proof.
  intros Hrun.
  assert (Hinv : forall sched r0 r1,
    execute cfg sched r0 = Some r1 ->
    Forall (fun tk => In (taskPath tk) paths /\ heldOk cfg tk) (tasks r0) ->
    (forall rec, In rec (results (shared r0)) ->
       In (fcPath rec) paths \/ notIgnored cfg (fcPath rec)) ->
    forall rec, In rec (results (shared r1)) ->
       In (fcPath rec) paths \/ notIgnored cfg (fcPath rec)).
  { clear. induction sched as [|a sched IH]; intros r0 r1 Hrun Htasks Hres;
      simpl in Hrun.
    - injection Hrun as <-. exact Hres.
    - destruct (step cfg a r0) as [r2|] eqn:Hstep; [|discriminate Hrun].
      destruct (step_held paths a r0 r2 Hstep Htasks Hres) as [Htasks' Hres'].
      exact (IH r2 r1 Hrun Htasks' Hres'). }
  apply (Hinv sched (initialRun paths) r Hrun).
  - simpl. apply Forall_forall. intros tk Htk.
    apply list_elem_of_In, in_map_iff in Htk as (p & <- & Hp).
    split; [exact Hp|exact I].
  - intros rec' [].
Qed.

End Walk.

Lemma walkPlan_not_ignored_witness :
  In "src/main.go"%string (walkPlan (E := testEnv) "." testConfig).1 /\
  ShouldIgnore "src/main.go" false testConfig = false.
Proof.
  assert (Hin : In "src/main.go"%string
                   (walkPlan (E := testEnv) "." testConfig).1).
  { vm_compute. do 3 right. left. reflexivity. }
  split; [exact Hin|].
  exact (walkPlan_not_ignored (E := testEnv) testConfig "." "src/main.go" Hin).
Defined.

Lemma walkDir_NoIgnore_witness :
  NoIgnore noIgnoreConfig = true /\
  walkDir (E := testEnv) "." testTree noIgnoreConfig
  = walkDirSimple (E := testEnv) "." testTree.
Proof.
  split; [reflexivity|].
  apply (walkDir_NoIgnore (E := testEnv) noIgnoreConfig testTree ".").
  reflexivity.
Defined.

Lemma records_named_or_not_ignored_witness :
  In "proj/a.txt"%string ["proj"%string] \/
  ShouldIgnore "proj/a.txt" false oneWorkerConfig = false.
Proof.
  refine (records_named_or_not_ignored (E := lockedEnv) oneWorkerConfig
            ["proj"%string] lockedSchedule _
            {| fcPath := "proj/a.txt"; fcContent := "hello" |} _ _).
  - vm_compute. reflexivity.
  - vm_compute. left. reflexivity.
Defined.

(** ** Every run ends *)

Lemma sumNat_insert {A : Type} (f : A -> nat) (l : list A) (i : nat) (x y : A) :
  l !! i = Some x ->
  (sumNat (map f (<[i := y]> l)) + f x = sumNat (map f l) + f y)%nat.
Proof.
  revert i. induction l as [|z l IH]; intros [|i] Hl; simpl in *;
    try discriminate Hl.
  - injection Hl as ->. lia.
  - specialize (IH i Hl). lia.
Qed.

Lemma sumNat_idle (n : nat) :
  sumNat (map workerSteps (replicate n WIdle)) = n.
Proof.
  induction n as [|n IH]; simpl; [reflexivity|]. rewrite IH. reflexivity.
Qed.

Lemma forallb_false_lookup {A : Type} (f : A -> bool) (l : list A) :
  forallb f l = false -> exists i x, l !! i = Some x /\ f x = false.
Proof.
  induction l as [|y l IH]; simpl; [discriminate|].
  destruct (f y) eqn:Hy; simpl.
  - intros Hl. destruct (IH Hl) as (i & x & Hi & Hx). exists (S i), x. auto.
  - intros _. exists O, y. auto.
Qed.

Section Termination.

Context {E : Env} (cfg : Config).

(** Each move of a task uses up one of the moves it has left. *)
Lemma stepTask_steps (a : TaskAction) (path : string) (st st' : TaskState)
    (s s' : Shared) :
  stepTask cfg a path st s = Some (st', s') ->
  (taskSteps cfg {| taskPath := path; taskState := st' |}
   < taskSteps cfg {| taskPath := path; taskState := st |})%nat.
Proof.
  intros Hstep. destruct st as [|d|]; simpl in Hstep.
  - destruct a; try discriminate Hstep.
    unfold taskSteps at 2. cbn [taskState taskPath].
    destruct (os_Stat path) as [err|fileInfo].
    + injection Hstep as <- <-. unfold taskSteps. simpl. lia.
    + destruct (fiIsDir fileInfo); injection Hstep as <- <-;
        [|unfold taskSteps; simpl; lia].
      unfold taskSteps, startDirectory. cbn [taskState].
      destruct (walkPlan path cfg) as [todo final]. proj_simpl.
      rewrite sumNat_idle. simpl. lia.
  - unfold taskSteps. cbn [taskState]. unfold stepDir in Hstep. destruct a.
    + destruct (walker d) as [[|? ?] ?| | |]; discriminate Hstep.
    + destruct (walker d) as [[|p todo] final| | |]; try discriminate Hstep.
      destruct (Z.of_nat (length (files d)) <? 100); [|discriminate Hstep].
      injection Hstep as <- <-. proj_simpl. rewrite length_app. simpl. lia.
    + destruct (walker d) as [[|p todo] final| | |]; try discriminate Hstep.
      destruct (ctx s); [|discriminate Hstep].
      injection Hstep as <- <-. proj_simpl. simpl. lia.
    + destruct (walker d) as [[|p todo] final| | |]; try discriminate Hstep.
      injection Hstep as <- <-. proj_simpl. simpl. lia.
    + destruct (walker d) as [[|p todo] final|err|err|]; try discriminate Hstep.
      injection Hstep as <- <-. proj_simpl. simpl. lia.
    + destruct (walker d) as [[|p todo] final|err|err|]; try discriminate Hstep.
      injection Hstep as <- <-. proj_simpl. simpl. lia.
    + destruct (workers d !! w) as [[|p0|]|] eqn:Hw; try discriminate Hstep.
      destruct (files d) as [|p rest] eqn:Hf; [discriminate Hstep|].
      injection Hstep as <- <-. proj_simpl.
      pose proof (sumNat_insert workerSteps (workers d) w WIdle (WBusy p) Hw).
      simpl in *. lia.
    + destruct (workers d !! w) as [[|p|]|] eqn:Hw; try discriminate Hstep.
      injection Hstep as <- <-. unfold setWorker. proj_simpl.
      pose proof (sumNat_insert workerSteps (workers d) w (WBusy p) WIdle Hw).
      simpl in *. lia.
    + destruct (workers d !! w) as [[|p0|]|] eqn:Hw; try discriminate Hstep.
      destruct (files d) as [|p rest] eqn:Hf; [|discriminate Hstep].
      destruct (isClosed (walker d)); [|discriminate Hstep].
      injection Hstep as <- <-. unfold setWorker. proj_simpl.
      pose proof (sumNat_insert workerSteps (workers d) w WIdle WExited Hw).
      rewrite Hf. simpl in *. lia.
    + destruct (walker d) as [[|p todo] final|err|err|]; try discriminate Hstep.
      destruct (forallb isExited (workers d)); [|discriminate Hstep].
      injection Hstep as <- <-. simpl. lia.
  - destruct a; discriminate Hstep.
Qed.

Lemma step_steps (a : Action) (r r' : Run) :
  step cfg a r = Some r' -> (runSteps cfg r' < runSteps cfg r)%nat.
Proof.
  intros Hstep. pose proof (step_ctx cfg a r r' Hstep) as Hctx.
  unfold runSteps. destruct a as [e|t a]; simpl in Hstep.
  - destruct (ctx (shared r)); [discriminate Hstep|].
    injection Hstep as <-. simpl. lia.
  - destruct (tasks r !! t) as [[path st]|] eqn:Ht; [|discriminate Hstep].
    cbn [taskPath taskState] in Hstep.
    destruct (stepTask cfg a path st (shared r)) as [[st' s']|] eqn:Htask;
      [|discriminate Hstep].
    injection Hstep as <-. cbn [shared tasks] in *.
    pose proof (stepTask_steps a path st st' (shared r) s' Htask) as Hlt.
    pose proof (sumNat_insert (taskSteps cfg) (tasks r) t _
                  {| taskPath := path; taskState := st' |} Ht) as Hsum.
    destruct (ctx s'); [|rewrite (Hctx eq_refl)]; destruct (ctx (shared r)); lia.
Qed.

(** X23. A run is no longer than the moves its first state has left: no
    schedule keeps the goroutines of the pipeline going for ever. *)
Theorem run_length_bounded (sched : list Action) (r r' : Run) :
  execute cfg sched r = Some r' ->
  (length sched + runSteps cfg r' <= runSteps cfg r)%nat.
Proof.
  revert r. induction sched as [|a sched IH]; intros r Hrun; simpl in Hrun.
  - injection Hrun as <-. simpl. lia.
  - destruct (step cfg a r) as [r1|] eqn:Hstep; [|discriminate Hrun].
    pose proof (step_steps a r r1 Hstep). specialize (IH r1 Hrun).
    simpl. lia.
Qed.

(** *** The workers of a task *)

Lemma stepTask_pool (a : TaskAction) (path : string) (st st' : TaskState)
    (s s' : Shared) :
  0 < Workers cfg ->
  stepTask cfg a path st s = Some (st', s') ->
  poolOk {| taskPath := path; taskState := st |} ->
  poolOk {| taskPath := path; taskState := st' |}.
Proof.
  intros Hworkers Hstep Hpool. destruct st as [|d|]; simpl in Hstep.
  - destruct a; try discriminate Hstep.
    destruct (os_Stat path) as [err|fileInfo].
    + injection Hstep as <- <-. exact I.
    + destruct (fiIsDir fileInfo); injection Hstep as <- <-; [|exact I].
      unfold poolOk, startDirectory. cbn [taskState].
      destruct (walkPlan path cfg) as [todo final]. proj_simpl.
      rewrite length_replicate. split; [lia|].
      intros w Hx. apply lookup_replicate in Hx as [Hx _]. discriminate Hx.
  - unfold poolOk in Hpool. cbn [taskState] in Hpool.
    destruct Hpool as [Hnw Hex].
    unfold stepDir in Hstep. unfold poolOk. cbn [taskState]. destruct a.
    + destruct (walker d) as [[|? ?] ?| | |]; discriminate Hstep.
    + destruct (walker d) as [[|p todo] final| | |] eqn:Hwk; try discriminate Hstep.
      destruct (Z.of_nat (length (files d)) <? 100); [|discriminate Hstep].
      injection Hstep as <- <-. proj_simpl. split; [exact Hnw|].
      intros w Hx. destruct (Hex w Hx) as [_ Hcl]. discriminate Hcl.
    + destruct (walker d) as [[|p todo] final| | |] eqn:Hwk; try discriminate Hstep.
      destruct (ctx s); [|discriminate Hstep].
      injection Hstep as <- <-. proj_simpl. split; [exact Hnw|].
      intros w Hx. destruct (Hex w Hx) as [_ Hcl]. discriminate Hcl.
    + destruct (walker d) as [[|p todo] final| | |] eqn:Hwk; try discriminate Hstep.
      injection Hstep as <- <-. proj_simpl. split; [exact Hnw|].
      intros w Hx. destruct (Hex w Hx) as [_ Hcl]. discriminate Hcl.
    + destruct (walker d) as [[|p todo] final|err|err|] eqn:Hwk;
        try discriminate Hstep.
      injection Hstep as <- <-. proj_simpl. split; [exact Hnw|].
      intros w Hx. destruct (Hex w Hx) as [_ Hcl]. discriminate Hcl.
    + destruct (walker d) as [[|p todo] final|err|err|] eqn:Hwk;
        try discriminate Hstep.
      injection Hstep as <- <-. proj_simpl. split; [exact Hnw|].
      intros w Hx. destruct (Hex w Hx) as [Hnil _]. auto.
    + destruct (workers d !! w) as [[|p0|]|] eqn:Hw; try discriminate Hstep.
      destruct (files d) as [|p rest] eqn:Hf; [discriminate Hstep|].
      injection Hstep as <- <-. proj_simpl.
      split; [rewrite length_insert; exact Hnw|].
      intros w' Hx. exfalso.
      refine (exited_after_insert (workers d) w w' (WBusy p) False _ _ Hx);
        [discriminate|].
      intros w0 Hx0. destruct (Hex w0 Hx0) as [Hnil _]. discriminate Hnil.
    + destruct (workers d !! w) as [[|p|]|] eqn:Hw; try discriminate Hstep.
      injection Hstep as <- <-. unfold setWorker. proj_simpl.
      split; [rewrite length_insert; exact Hnw|].
      intros w' Hx.
      refine (exited_after_insert (workers d) w w' WIdle _ _ Hex Hx).
      discriminate.
    + destruct (workers d !! w) as [[|p0|]|] eqn:Hw; try discriminate Hstep.
      destruct (files d) as [|p rest] eqn:Hf; [|discriminate Hstep].
      destruct (isClosed (walker d)) eqn:Hcl; [|discriminate Hstep].
      injection Hstep as <- <-. unfold setWorker. proj_simpl.
      split; [rewrite length_insert; exact Hnw|].
      intros w' Hx. auto.
    + destruct (walker d) as [[|p todo] final|err|err|]; try discriminate Hstep.
      destruct (forallb isExited (workers d)); [|discriminate Hstep].
      injection Hstep as <- <-. exact I.
  - destruct a; discriminate Hstep.
Qed.

Lemma step_pool (a : Action) (r r' : Run) :
  0 < Workers cfg ->
  step cfg a r = Some r' ->
  Forall poolOk (tasks r) -> Forall poolOk (tasks r').
Proof.
  intros Hworkers Hstep Hpool. destruct a as [e|t a]; simpl in Hstep.
  - destruct (ctx (shared r)); [discriminate Hstep|].
    injection Hstep as <-. exact Hpool.
  - destruct (tasks r !! t) as [[path st]|] eqn:Ht; [|discriminate Hstep].
    cbn [taskPath taskState] in Hstep.
    destruct (stepTask cfg a path st (shared r)) as [[st' s']|] eqn:Htask;
      [|discriminate Hstep].
    injection Hstep as <-. cbn [tasks].
    apply Forall_insert; [exact Hpool|].
    apply (stepTask_pool a path st st' (shared r) s' Hworkers Htask).
    exact (Forall_lookup_1 _ _ _ _ Hpool Ht).
Qed.

Lemma execute_pool (sched : list Action) (r r' : Run) :
  0 < Workers cfg ->
  execute cfg sched r = Some r' ->
  Forall poolOk (tasks r) -> Forall poolOk (tasks r').
Proof.
  intros Hworkers. revert r.
  induction sched as [|a sched IH]; intros r Hrun Hpool; simpl in Hrun.
  - injection Hrun as <-. exact Hpool.
  - destruct (step cfg a r) as [r1|] eqn:Hstep; [|discriminate Hrun].
    exact (IH r1 Hrun (step_pool a r r1 Hworkers Hstep Hpool)).
Qed.

Lemma initialRun_pool (paths : list string) :
  Forall poolOk (tasks (initialRun paths)).
Proof.
  simpl. apply Forall_forall. intros tk Htk.
  apply list_elem_of_In, in_map_iff in Htk as (p & <- & _). exact I.
Qed.

(** A task that has not returned, with a pool as [poolOk] has it, can
    move. *)
Lemma task_can_move (path : string) (st : TaskState) (s : Shared) :
  poolOk {| taskPath := path; taskState := st |} ->
  st <> TDone ->
  exists a r, stepTask cfg a path st s = Some r.
Proof.
  intros Hpool Hnot. destruct st as [|d|]; [| |congruence].
  - exists (TStart SendFirst). simpl.
    destruct (os_Stat path) as [err|fileInfo]; [eauto|].
    destruct (fiIsDir fileInfo); eauto.
  - unfold poolOk in Hpool. cbn [taskState] in Hpool.
    destruct Hpool as [Hnw Hex].
    destruct (walker d) as [[|p todo] final|err|err|] eqn:Hwk.
    + exists TWalkEnd. cbn [stepTask]. unfold stepDir. rewrite Hwk. eauto.
    + destruct (Z.of_nat (length (files d)) <? 100) eqn:Hfull.
      * exists TWalkPush. cbn [stepTask]. unfold stepDir.
        rewrite Hwk, Hfull. eauto.
      * destruct (workers d) as [|x ws] eqn:Hws; [simpl in Hnw; lia|].
        destruct x as [|p0|].
        -- destruct (files d) as [|q rest] eqn:Hf; [discriminate Hfull|].
           exists (TTake 0). cbn [stepTask]. unfold stepDir.
           rewrite Hws, Hf. simpl. eauto.
        -- exists (TWork 0 SendFirst). cbn [stepTask]. unfold stepDir.
           rewrite Hws. simpl. eauto.
        -- destruct (Hex O eq_refl) as [Hnil _]. rewrite Hnil in Hfull.
           discriminate Hfull.
    + exists TClose. cbn [stepTask]. unfold stepDir. rewrite Hwk. eauto.
    + exists TAccount. cbn [stepTask]. unfold stepDir. rewrite Hwk. eauto.
    + destruct (forallb isExited (workers d)) eqn:Hall.
      * exists TJoin. cbn [stepTask]. unfold stepDir. rewrite Hwk, Hall. eauto.
      * apply forallb_false_lookup in Hall as (w & x & Hw & Hx).
        destruct x as [|p0|]; [| |discriminate Hx].
        -- destruct (files d) as [|q rest] eqn:Hf.
           ++ exists (TExit w). cbn [stepTask]. unfold stepDir.
              rewrite Hw, Hf, Hwk. simpl. eauto.
           ++ exists (TTake w). cbn [stepTask]. unfold stepDir.
              rewrite Hw, Hf. eauto.
        -- exists (TWork w SendFirst). cbn [stepTask]. unfold stepDir.
           rewrite Hw. eauto.
Qed.

Lemma run_can_move (r : Run) :
  Forall poolOk (tasks r) ->
  completed r = false ->
  exists t a r', step cfg (ATask t a) r = Some r'.
Proof.
  intros Hpool Hnot. unfold completed in Hnot.
  apply forallb_false_lookup in Hnot as (t & [path st] & Ht & Hdone).
  pose proof (Forall_lookup_1 _ _ _ _ Hpool Ht) as Hok.
  assert (Hst : st <> TDone) by (intros ->; discriminate Hdone).
  destruct (task_can_move path st (shared r) Hok Hst) as (a & [st' s'] & Hstep).
  exists t, a. simpl. rewrite Ht. cbn [taskPath taskState]. rewrite Hstep.
  eauto.
Qed.

(** X24. With at least one worker the pipeline never deadlocks: in every state
    a run can reach, cancelled or not, in which some [ProcessPath] has not
    returned, one of its goroutines can move. *)
Theorem pool_never_deadlocks (paths : list string) (sched : list Action)
    (r : Run) :
  0 < Workers cfg ->
  execute cfg sched (initialRun paths) = Some r ->
  completed r = false ->
  exists t a r', step cfg (ATask t a) r = Some r'.
Proof.
  intros Hworkers Hrun Hnot.
  apply run_can_move; [|exact Hnot].
  exact (execute_pool sched _ r Hworkers Hrun (initialRun_pool paths)).
Qed.

Lemma finish_from (n : nat) :
  forall r,
    (runSteps cfg r <= n)%nat ->
    Forall poolOk (tasks r) ->
    0 < Workers cfg ->
    exists more r', execute cfg more r = Some r' /\ completed r' = true.
Proof.
  induction n as [|n IH]; intros r Hn Hpool Hworkers.
  - destruct (completed r) eqn:Hc; [exists [], r; auto|].
    destruct (run_can_move r Hpool Hc) as (t & a & r1 & Hstep).
    pose proof (step_steps _ _ _ Hstep). lia.
  - destruct (completed r) eqn:Hc; [exists [], r; auto|].
    destruct (run_can_move r Hpool Hc) as (t & a & r1 & Hstep).
    pose proof (step_steps _ _ _ Hstep) as Hlt.
    destruct (IH r1 ltac:(lia) (step_pool _ _ _ Hworkers Hstep Hpool) Hworkers)
      as (more & r' & Hrun & Hdone).
    exists (ATask t a :: more), r'. split; [|exact Hdone].
    cbn [execute]. rewrite Hstep. exact Hrun.
Qed.

(** X25. With at least one worker every run can be brought to its end, whatever
    happened so far and whether or not the context is done: [wg.Wait()] in
    [main] returns. *)
Theorem run_can_finish (paths : list string) (sched : list Action) (r : Run) :
  0 < Workers cfg ->
  execute cfg sched (initialRun paths) = Some r ->
  exists more r',
    execute cfg (sched ++ more) (initialRun paths) = Some r' /\
    completed r' = true.
Proof.
  intros Hworkers Hrun.
  destruct (finish_from (runSteps cfg r) r (le_n _)
              (execute_pool sched _ r Hworkers Hrun (initialRun_pool paths))
              Hworkers) as (more & r' & Hmore & Hdone).
  exists more, r'. split; [|exact Hdone].
  rewrite (execute_app cfg sched more (initialRun paths)), Hrun. exact Hmore.
Qed.

End Termination.

Lemma run_length_bounded_witness :
  exists r',
    execute (E := lockedEnv) oneWorkerConfig lockedSchedule
            (initialRun ["proj"%string]) = Some r' /\
    (length lockedSchedule + runSteps (E := lockedEnv) oneWorkerConfig r'
     <= runSteps (E := lockedEnv) oneWorkerConfig (initialRun ["proj"%string]))%nat.
Proof.
  eexists. split; [vm_compute; reflexivity|].
  apply (run_length_bounded (E := lockedEnv) oneWorkerConfig lockedSchedule).
  vm_compute. reflexivity.
Defined.

Lemma pool_never_deadlocks_witness :
  exists r,
    execute (E := testEnv) testConfig deadlineSchedule
            (initialRun ["."%string]) = Some r /\
    completed r = false /\
    exists t a r', step (E := testEnv) testConfig (ATask t a) r = Some r'.
Proof.
  eexists. split; [vm_compute; reflexivity|].
  split; [vm_compute; reflexivity|].
  apply (pool_never_deadlocks (E := testEnv) testConfig ["."%string]
           deadlineSchedule).
  - reflexivity.
  - vm_compute. reflexivity.
  - vm_compute. reflexivity.
Defined.

Lemma run_can_finish_witness :
  exists more r',
    execute (E := testEnv) testConfig (deadlineSchedule ++ more)
            (initialRun ["."%string]) = Some r' /\
    completed r' = true.
Proof.
  refine (run_can_finish (E := testEnv) testConfig ["."%string]
            deadlineSchedule _ _ _).
  - reflexivity.
  - vm_compute. reflexivity.
Defined.

(** ** main: the arguments and the results *)

Lemma trimRight_cons (f : ascii -> bool) (c : ascii) (s : string) :
  trimRight f (String c s)
  = match trimRight f s with
    | EmptyString => if f c then EmptyString else String c EmptyString
    | t => String c t
    end.
Proof. reflexivity. Qed.

Lemma trimRight_idem (f : ascii -> bool) (s : string) :
  trimRight f (trimRight f s) = trimRight f s.
Proof.
  induction s as [|c s IH]; [reflexivity|].
  rewrite trimRight_cons.
  destruct (trimRight f s) as [|d t] eqn:Ht.
  - destruct (f c) eqn:Hc; [reflexivity|].
    rewrite trimRight_cons. simpl. rewrite Hc. reflexivity.
  - rewrite trimRight_cons, IH. reflexivity.
Qed.

Lemma trimLeft_idem (f : ascii -> bool) (s : string) :
  trimLeft f (trimLeft f s) = trimLeft f s.
Proof.
  induction s as [|c s IH]; [reflexivity|]. simpl.
  destruct (f c) eqn:Hc; [exact IH|]. simpl. rewrite Hc. reflexivity.
Qed.

(** Trimming on the left leaves a string trimmed on the right as it is on
    the right. *)
Lemma trimRight_trimLeft (f : ascii -> bool) (t : string) :
  trimRight f t = t -> trimRight f (trimLeft f t) = trimLeft f t.
Proof.
  induction t as [|c t IH]; intros Ht; [reflexivity|]. simpl.
  destruct (f c) eqn:Hc; [|exact Ht].
  apply IH. rewrite trimRight_cons in Ht.
  destruct (trimRight f t) as [|d u]; [|injection Ht as Ht; exact Ht].
  rewrite Hc in Ht. discriminate Ht.
Qed.

(** Trimming the quotes twice is trimming them once. *)
Lemma trimQuotes_idem (path : string) :
  trimQuotes (trimQuotes path) = trimQuotes path.
Proof.
  unfold trimQuotes.
  rewrite (trimRight_trimLeft isQuote (trimRight isQuote path)
             (trimRight_idem isQuote path)).
  apply trimLeft_idem.
Qed.

Lemma collect_from (count : Z) (output : string) (rs : list FileContent) :
  (foldl collectOne (count, output) rs).1 = count + Z.of_nat (length rs) /\
  len (foldl collectOne (count, output) rs).2
  = len output + sumZ (map blockLen rs).
Proof.
  revert count output. induction rs as [|r rs IH]; intros count output.
  - simpl. split; lia.
  - cbn [foldl collectOne]. destruct (IH (count + 1)
      (output ++ ("-- " ++ fcPath r ++ " --" ++ newline)
       ++ fcContent r ++ (newline ++ newline))%string) as [Hc Hl].
    rewrite Hc, Hl. split; [simpl length; lia|].
    change (sumZ (map blockLen (r :: rs)))
      with (blockLen r + sumZ (map blockLen rs)).
    generalize (sumZ (map blockLen rs)). intros rest.
    unfold blockLen, len. rewrite !string_length_append.
    simpl String.length. lia.
Qed.

Lemma blockLen_pos (rs : list FileContent) :
  0 <= sumZ (map blockLen rs) /\ (rs <> [] -> 0 < sumZ (map blockLen rs)).
Proof.
  induction rs as [|r rs [IH _]]; simpl; [split; [lia|congruence]|].
  unfold blockLen at 1 3, len. split; [lia|intros _; lia].
Qed.

Section Main.

Context {E : Env} (cfg : Config).

(** X26. The collector counts the records it receives, and each one adds its
    path, its content and nine bytes of framing to the output. *)
Theorem collect_counts (fileContents : list FileContent) :
  (collect fileContents).1 = Z.of_nat (length fileContents) /\
  len (collect fileContents).2 = sumZ (map blockLen fileContents).
Proof.
  unfold collect.
  destruct (collect_from 0 EmptyString fileContents) as [Hc Hl].
  rewrite Hc, Hl. split; [lia|reflexivity].
Qed.

(** X27. [main] says that no content was found exactly when no record reached
    it: a file that is empty still gives a block of its own. *)
Theorem report_NoContent_iff (fileContents : list FileContent) :
  report fileContents = NoContent <-> fileContents = [].
Proof.
  unfold report, collect.
  destruct (collect_from 0 EmptyString fileContents) as [_ Hl].
  destruct (foldl collectOne (0, EmptyString) fileContents)
    as [count output] eqn:Hfold.
  cbn [snd] in Hl. split.
  - destruct (Z.eqb_spec (len output) 0) as [Hz|Hnz]; [|discriminate].
    intros _. destruct fileContents as [|r rs]; [reflexivity|].
    destruct (blockLen_pos (r :: rs)) as [_ Hpos].
    specialize (Hpos ltac:(discriminate)). change (len EmptyString) with 0 in Hl.
    lia.
  - intros ->. injection Hfold as <- <-. reflexivity.
Qed.

(** X28. The number of files [main] reports as copied is the processed counter
    of the pipeline, in every run, cancelled or not; it says that no
    content was found exactly when that counter is zero. *)
Theorem main_reports_processed (paths : list string) (sched : list Action)
    (r : Run) :
  execute cfg sched (initialRun paths) = Some r ->
  (report (results (shared r)) = NoContent /\ processed (shared r) = 0) \/
  (exists bytes clipboard,
     report (results (shared r))
     = Copied (processed (shared r)) bytes clipboard /\
     0 < processed (shared r)).
Proof.
  intros Hrun.
  assert (Hproc : processed (shared r) = Z.of_nat (length (results (shared r)))).
  { apply (execute_shared cfg
             (fun s => processed s = Z.of_nat (length (results s)))
             sched (initialRun paths) r); auto.
    intros path fileInfo race s _ Hs.
    destruct (countSingleFile_cases cfg path fileInfo race s)
      as [(content & _ & _ & _ & ->)| ->]; simpl; [|exact Hs].
    rewrite length_app. simpl. lia. }
  destruct (collect_from 0 EmptyString (results (shared r))) as [Hc Hl].
  destruct (blockLen_pos (results (shared r))) as [_ Hpos].
  unfold report, collect.
  destruct (foldl collectOne (0, EmptyString) (results (shared r)))
    as [count output].
  cbn [fst snd] in Hc, Hl. change (len EmptyString) with 0 in Hl.
  destruct (results (shared r)) as [|rec rs].
  - left. simpl in Hl. replace (len output) with 0 by lia.
    split; [reflexivity|]. rewrite Hproc. reflexivity.
  - right. specialize (Hpos ltac:(discriminate)).
    destruct (Z.eqb_spec (len output) 0) as [Hz|_]; [lia|].
    exists (len output), output. rewrite Hproc, Hc.
    split; [reflexivity|]. simpl length. lia.
Qed.

Lemma resolveArgs_existing_from (fuel : nat) (paths : list string)
    (resolved : list string) (t : Terminal) :
  Forall (fun path => exists fileInfo,
            os_Stat (trimQuotes path) = inr fileInfo) paths ->
  resolveArgs fuel cfg paths (resolved, t)
  = Some (resolved ++ map trimQuotes paths, t).
Proof.
  intros Hall. revert resolved.
  induction Hall as [|path paths [fileInfo Hstat] _ IH]; intros resolved.
  - simpl. rewrite app_nil_r. reflexivity.
  - cbn [resolveArgs resolveArg]. rewrite Hstat, IH, <- app_assoc.
    reflexivity.
Qed.

(** X29. Arguments that exist are taken as they are, without their quotes and
    in their order: nothing is searched, printed or read. *)
Theorem resolveArgs_existing (fuel : nat) (paths : list string) (t : Terminal) :
  Forall (fun path => exists fileInfo,
            os_Stat (trimQuotes path) = inr fileInfo) paths ->
  resolveArgs fuel cfg paths ([], t) = Some (map trimQuotes paths, t).
Proof.
  intros Hall. exact (resolveArgs_existing_from fuel paths [] t Hall).
Qed.

(** X30. Quotes around an argument make no difference to [main]: the
    arguments count only through their trimmed form. *)
Theorem resolveArgs_quotes (fuel : nat) (paths : list string)
    (st : list string * Terminal) :
  resolveArgs fuel cfg (map trimQuotes paths) st
  = resolveArgs fuel cfg paths st.
Proof.
  revert st. induction paths as [|path paths IH]; intros st; [reflexivity|].
  cbn [map resolveArgs]. unfold resolveArg at 1 2.
  rewrite trimQuotes_idem.
  destruct st as [resolved t].
  destruct (os_Stat (trimQuotes path)) as [err|fileInfo]; [|apply IH].
  destruct (isNotExist (inl err)); [|apply IH].
  destruct (FuzzyFindPath fuel (trimQuotes path) cfg _)
    as [[[resolvedPath found] w]|]; [|reflexivity].
  destruct found; apply IH.
Qed.

End Main.

Lemma main_reports_processed_witness :
  exists r,
    execute (E := lockedEnv) oneWorkerConfig lockedSchedule
            (initialRun ["proj"%string]) = Some r /\
    ((report (results (shared r)) = NoContent /\ processed (shared r) = 0) \/
     (exists bytes clipboard,
        report (results (shared r))
        = Copied (processed (shared r)) bytes clipboard /\
        0 < processed (shared r))).
Proof.
  eexists. split; [vm_compute; reflexivity|].
  apply (main_reports_processed (E := lockedEnv) oneWorkerConfig
           ["proj"%string] lockedSchedule).
  vm_compute. reflexivity.
Defined.

Lemma resolveArgs_existing_witness :
  resolveArgs (E := testEnv) 1 testConfig ["'src/main.go'"; "docs"]%string
              ([], {| termIn := []; termOut := [] |})
  = Some (["src/main.go"; "docs"]%string, {| termIn := []; termOut := [] |}).
Proof.
  apply (resolveArgs_existing (E := testEnv) testConfig 1
           ["'src/main.go'"; "docs"]%string).
  constructor; [eexists; vm_compute; reflexivity|].
  constructor; [eexists; vm_compute; reflexivity|].
  constructor.
Defined.

Lemma sort_Slice_head_minimal_witness :
  In mainInSrc [mianInSrc; mainInSrc] /\
  forall m, In m [mianInSrc; mainInSrc] ->
            keyLe (rankKey mainInSrc) (rankKey m).
Proof.
  apply (sort_Slice_head_minimal (E := testEnv) [mianInSrc; mainInSrc]
           mainInSrc [mianInSrc] testEnv_sorts).
  reflexivity.
Defined.
